(** * A recursive model index (RMI) over sorted big-integer keys

    Shallow embedding of [rmi.go] (the tree, [NewRMI], [buildRecursive],
    [GetIndex]) and [regression.go] ([mean], [covariance], [variance],
    [coefficients]), together with the part of Go's [math/big] and [sort]
    packages that the two files call.

    Conventions.
    - A Go [int] is a 64-bit two's complement integer: it is a [Z], and
      every multiplication whose result can leave the 64-bit range is
      wrapped with [wrap64].  Additions on slice lengths, layer numbers
      and loop counters stay far below [2^63] and are left unwrapped.
    - A [*big.Int] is a [Z].
    - A [*big.Float] is a [Big.Float]: precision, sign and magnitude, with
      Go's rounding to nearest even, signed zeros and infinities.  An
      operation [z.Op(x, y)] is [Op z x y]: the receiver is passed for its
      precision, and the result is the new value of the receiver.
    - A [float64] only ever holds an [int] here; it is the [int] itself
      (see [float_quo] and [Big.NewFloat_int]).
    - A run of Go code either returns or panics: [outcome].
    - A slice is a [list]; a slice of pointers is a list of [option], with
      [None] for nil.
    - The tree is built into [rmi.nodes], which the recursion mutates: the
      layers are threaded through [buildRecursive] as a state. *)

From Stdlib Require Import ZArith List Lia Bool.
Import ListNotations.
Open Scope Z_scope.

(** ** Outcomes: return or panic *)

Inductive panic : Type :=
| ErrNaN            (* math/big: an operation whose result would be a NaN *)
| IndexOutOfRange   (* runtime: index out of range *)
| SliceBounds       (* runtime: slice bounds out of range *)
| MakeSliceLen      (* runtime: makeslice: len out of range *)
| NilDeref.         (* runtime: nil pointer dereference *)

Inductive outcome (A : Type) : Type :=
| Returned (a : A)
| Panicked (p : panic).

Arguments Returned {A} a.
Arguments Panicked {A} p.

Definition bind {A B : Type} (c : outcome A) (k : A -> outcome B) : outcome B :=
  match c with
  | Returned a => k a
  | Panicked p => Panicked p
  end.

Notation "x <- c ;; k" := (bind c (fun x => k))
  (at level 61, c at next level, right associativity).
Notation "' pat <- c ;; k" := (bind c (fun x => match x with pat => k end))
  (at level 61, pat pattern, c at next level, right associativity).

(** ** Machine integers *)

Definition min_int : Z := - 2 ^ 63.
Definition max_int : Z := 2 ^ 63 - 1.

Definition wrap64 (z : Z) : Z := (z + 2 ^ 63) mod 2 ^ 64 - 2 ^ 63.

Definition len {A : Type} (l : list A) : Z := Z.of_nat (length l).

(** [s[i]] *)
Definition index {A : Type} (l : list A) (i : Z) : outcome A :=
  if (i <? 0) || (len l <=? i) then Panicked IndexOutOfRange
  else match nth_error l (Z.to_nat i) with
       | Some a => Returned a
       | None => Panicked IndexOutOfRange
       end.

(** The elements [lo], ..., [hi - 1] of [l]. *)
Definition sub {A : Type} (l : list A) (lo hi : Z) : list A :=
  firstn (Z.to_nat (hi - lo)) (skipn (Z.to_nat lo) l).

(** [s[lo:hi]].  Go allows [hi] up to the capacity of [s]; the model takes the
    length for the capacity, so it panics at least where Go does
    ([child_calls_children]: the slices of this program never panic). *)
Definition slice {A : Type} (l : list A) (lo hi : Z) : outcome (list A) :=
  if (lo <? 0) || (hi <? lo) || (len l <? hi) then Panicked SliceBounds
  else Returned (sub l lo hi).

(** [make([]T, n)] with every element the zero value [z]. *)
Definition make {A : Type} (z : A) (n : Z) : outcome (list A) :=
  if n <? 0 then Panicked MakeSliceLen else Returned (repeat z (Z.to_nat n)).

(** ** math/big.Float

    A [Float] has a precision (in bits), a sign and a magnitude that is
    zero, infinite, or [mant * 2^exp] with [mant] odd.  The rounding mode is
    always the default, to nearest even.  There is no NaN: an operation that
    would produce one panics with [ErrNaN].  The exponent is not bounded
    (Go bounds it by 32 bits, a bound that keys of fewer than [2^29] bits
    stay away from). *)

Module Big.

Inductive Mag : Type :=
| MZero
| MFin (mant : positive) (exp : Z)
| MInf.

Record Float : Type := mkFloat { prec : Z; neg : bool; mag : Mag }.

(** [new(big.Float)]: precision 0, value +0. *)
Definition new : Float := mkFloat 0 false MZero.

Fixpoint strip (m : positive) (e : Z) : positive * Z :=
  match m with
  | xO m' => strip m' (e + 1)
  | _ => (m, e)
  end.

(** The magnitude [z * 2^e] for [z >= 0], exactly. *)
Definition mag_of (z : Z) (e : Z) : Mag :=
  match z with
  | Zpos m => let (m', e') := strip m e in MFin m' e'
  | _ => MZero
  end.

Definition bitlen (z : Z) : Z :=
  match z with
  | Z0 => 0
  | Zpos m | Zneg m => Z.log2 (Zpos m) + 1
  end.

(** [z * 2^e], [z >= 0], rounded to [p] bits, ties to even. *)
Definition round (p : Z) (z : Z) (e : Z) : Mag :=
  let s := bitlen z in
  if s <=? p then mag_of z e
  else
    let sh := s - p in
    let q := Z.shiftr z sh in
    let r := Z.land z (Z.ones sh) in
    let half := Z.shiftl 1 (sh - 1) in
    let q' := if (half <? r) || ((r =? half) && Z.odd q) then q + 1 else q in
    mag_of q' (e + sh).

Definition round_mag (p : Z) (m : Mag) : Mag :=
  match m with
  | MFin mant e => round p (Zpos mant) e
  | _ => m
  end.

(** The precision of the result: the receiver's, or, when that is 0, the
    larger of the operands'. *)
Definition rprec (z x y : Float) : Z :=
  if prec z =? 0 then Z.max (prec x) (prec y) else prec z.

(** [z.Set(x)] *)
Definition Set_ (z x : Float) : Float :=
  let p := if prec z =? 0 then prec x else prec z in
  mkFloat p (neg x) (round_mag p (mag x)).

(** [z.Neg(x)] *)
Definition Neg (z x : Float) : Float :=
  let r := Set_ z x in mkFloat (prec r) (negb (neg r)) (mag r).

Definition signed (n : bool) (m : positive) : Z := if n then Zneg m else Zpos m.

(** The sum of two finite non-zero numbers, rounded; an exact zero is +0. *)
Definition add_finite (p : Z) (nx : bool) (mx : positive) (ex : Z)
           (ny : bool) (my : positive) (ey : Z) : Float :=
  let e := Z.min ex ey in
  let s := signed nx mx * 2 ^ (ex - e) + signed ny my * 2 ^ (ey - e) in
  if s =? 0 then mkFloat p false MZero
  else mkFloat p (s <? 0) (round p (Z.abs s) e).

(** [z.Add(x, y)] *)
Definition Add (z x y : Float) : outcome Float :=
  let p := rprec z x y in
  match mag x, mag y with
  | MFin mx ex, MFin my ey =>
      Returned (add_finite p (neg x) mx ex (neg y) my ey)
  | MInf, MInf =>
      if xorb (neg x) (neg y) then Panicked ErrNaN
      else Returned (mkFloat p (neg x) MInf)
  | MZero, MZero => Returned (mkFloat p (neg x && neg y) MZero)
  | MInf, _ | _, MZero => Returned (mkFloat p (neg x) (round_mag p (mag x)))
  | _, _ => Returned (mkFloat p (neg y) (round_mag p (mag y)))
  end.

(** [z.Sub(x, y)]: Go's case table for [Sub] is that of [Add] with the sign
    of [y] flipped ([+Inf - +Inf] panics, [-0 - +0 = -0], ...). *)
Definition Sub (z x y : Float) : outcome Float :=
  Add z x (mkFloat (prec y) (negb (neg y)) (mag y)).

(** [z.Mul(x, y)] *)
Definition Mul (z x y : Float) : outcome Float :=
  let p := rprec z x y in
  let n := xorb (neg x) (neg y) in
  match mag x, mag y with
  | MFin mx ex, MFin my ey =>
      Returned (mkFloat p n (round p (Zpos mx * Zpos my) (ex + ey)))
  | MZero, MInf | MInf, MZero => Panicked ErrNaN
  | MInf, _ | _, MInf => Returned (mkFloat p n MInf)
  | _, _ => Returned (mkFloat p n MZero)
  end.

(** The quotient of two finite non-zero magnitudes, rounded: the integer
    quotient is taken with at least [p + 1] bits and a sticky bit is
    appended for a non-zero remainder. *)
Definition quo_finite (p : Z) (mx : positive) (ex : Z) (my : positive) (ey : Z) : Mag :=
  let k := Z.max 0 (p + 2 + bitlen (Zpos my) - bitlen (Zpos mx)) in
  let n := Zpos mx * 2 ^ k in
  let q := n / Zpos my in
  let sticky := if n mod Zpos my =? 0 then 0 else 1 in
  round p (2 * q + sticky) (ex - ey - k - 1).

(** [z.Quo(x, y)] *)
Definition Quo (z x y : Float) : outcome Float :=
  let p := rprec z x y in
  let n := xorb (neg x) (neg y) in
  match mag x, mag y with
  | MFin mx ex, MFin my ey => Returned (mkFloat p n (quo_finite p mx ex my ey))
  | MZero, MZero | MInf, MInf => Panicked ErrNaN
  | MZero, _ | _, MInf => Returned (mkFloat p n MZero)
  | _, _ => Returned (mkFloat p n MInf)
  end.

(** [new(big.Float).SetInt(x)]: precision [max(x.BitLen(), 64)], exact. *)
Definition SetInt (x : Z) : Float :=
  mkFloat (Z.max (bitlen x) 64) (x <? 0) (mag_of (Z.abs x) 0).

(** [big.NewFloat(float64(n))] for a Go [int] [n]: the conversion to
    [float64] rounds to 53 bits, and [NewFloat] gives precision 53. *)
Definition NewFloat_int (n : Z) : Float :=
  mkFloat 53 (n <? 0) (round 53 (Z.abs n) 0).

(** [big.NewFloat(0)] *)
Definition NewFloat_0 : Float := mkFloat 53 false MZero.

(** [x.Int64()]: the value truncated toward zero, saturated to the 64-bit
    range (the accuracy result is dropped by every caller). *)
Definition Int64 (x : Float) : Z :=
  match mag x with
  | MZero => 0
  | MInf => if neg x then min_int else max_int
  | MFin m e =>
      let a := if 0 <=? e then Zpos m * 2 ^ e else Zpos m / 2 ^ (- e) in
      if neg x then Z.max min_int (- a) else Z.min max_int a
  end.

Definition is_zero (x : Float) : bool :=
  match mag x with MZero => true | _ => false end.

Definition is_inf (x : Float) : bool :=
  match mag x with MInf => true | _ => false end.

End Big.

Import Big.

(** ** sort.SliceIsSorted

    Go's library loop: [for i := n - 1; i > 0; i-- { if less(i, i-1) { return
    false } }; return true], with the comparison [NewRMI] passes:
    [values[i].Cmp(values[j]) == -1]. *)

Definition less (values : list Z) (i j : nat) : bool :=
  nth i values 0 <? nth j values 0.

Fixpoint sorted_down (values : list Z) (i : nat) : bool :=
  match i with
  | O => true
  | S j => if less values (S j) j then false else sorted_down values j
  end.

Definition SliceIsSorted (values : list Z) : bool :=
  sorted_down values (length values - 1).

(** ** regression.go *)

Fixpoint mean_loop (values : list Z) (mean : Float) : outcome Float :=
  match values with
  | [] => Returned mean
  | v :: rest =>
      mean <- Add mean mean (SetInt v) ;;
      mean_loop rest mean
  end.

Definition mean (values : list Z) : outcome Float :=
  mean <- mean_loop values NewFloat_0 ;;
  Quo mean mean (NewFloat_int (len values)).

(** The loop runs over the indices of [x] and reads [y[i]]: a shorter [y]
    panics with an index out of range. *)
Fixpoint covariance_loop (x y : list Z) (meanX meanY covar : Float) : outcome Float :=
  match x with
  | [] => Returned covar
  | xi :: x' =>
      let termX := SetInt xi in
      termX <- Sub termX termX meanX ;;
      match y with
      | [] => Panicked IndexOutOfRange
      | yi :: y' =>
          let termY := SetInt yi in
          termY <- Sub termY termY meanY ;;
          termXY <- Mul new termX termY ;;
          covar <- Add covar covar termXY ;;
          covariance_loop x' y' meanX meanY covar
      end
  end.

Definition covariance (x y : list Z) (meanX meanY : Float) : outcome Float :=
  covariance_loop x y meanX meanY NewFloat_0.

Fixpoint variance_loop (values : list Z) (meanValue variance : Float) : outcome Float :=
  match values with
  | [] => Returned variance
  | v :: rest =>
      let abs := SetInt v in
      abs <- Sub abs abs meanValue ;;
      abs <- Mul abs abs abs ;;
      variance <- Add variance variance abs ;;
      variance_loop rest meanValue variance
  end.

Definition variance (values : list Z) (meanValue : Float) : outcome Float :=
  variance_loop values meanValue NewFloat_0.

(** Returns [(b0, b1, w)]: intercept, slope, x intercept. *)
Definition coefficients (predVars target : list Z) : outcome (Float * Float * Float) :=
  meanX <- mean predVars ;;
  meanY <- mean target ;;
  b1 <- covariance predVars target meanX meanY ;;
  v <- variance predVars meanX ;;
  b1 <- Quo b1 b1 v ;;
  meanX <- Mul meanX meanX b1 ;;
  b0 <- Sub new meanY meanX ;;
  let w := Neg new b0 in
  w <- Quo w w b1 ;;
  Returned (b0, b1, w).

(** ** rmi.go: the data model *)

Record Node : Type := mkNode { m : Float; b : Float; w : Float }.

Definition Layers : Type := list (list (option Node)).

Record RMI : Type := mkRMI {
  width : Z;
  depth : Z;
  root : option Node;
  nodes : Layers;
  maxIndex : Z
}.

Inductive error : Type := ErrNotSorted.   (* "values must be in sorted order" *)

(** [l[i] = x] on a list. *)
Definition update {A : Type} (l : list A) (i : nat) (x : A) : list A :=
  firstn i l ++ x :: skipn (S i) l.

(** [rmi.nodes[layer][position] = node] *)
Definition store (nodes : Layers) (layer position : Z) (node : Node) : outcome Layers :=
  row <- index nodes layer ;;
  _ <- index row position ;;
  Returned (update nodes (Z.to_nat layer) (update row (Z.to_nat position) (Some node))).

(** [int(float64(n) / float64(w))] for a slice length [n]: both conversions
    are exact below [2^53] and the rounded quotient then truncates to the
    integer quotient.  A zero [w] gives an infinity or a NaN, whose
    conversion to [int] is implementation-defined (amd64: the least int). *)
Definition float_quo (n w : Z) : Z :=
  if w =? 0 then min_int else Z.quot n w.

(** ** rmi.go: construction *)

(** The node's model (lines 149-160): a regression over two or more points,
    or slope 0 and the offset as intercept. *)
Definition fit (values indices : list Z) (offset : Z) : outcome Node :=
  if 2 <=? len indices then
    '(b, m, w) <- coefficients values indices ;;
    Returned (mkNode m b w)
  else
    Returned (mkNode NewFloat_0 (SetInt offset) NewFloat_0).

(** The bounds check of lines 183-188. *)
Definition clamp_bounds (n leftIndex rightIndex : Z) : Z * Z :=
  if rightIndex <=? 0 then (0, 0)
  else if rightIndex >=? n then (leftIndex, n - 1)
  else (leftIndex, rightIndex).

(** The right bound of the next child (line 205). *)
Definition next_right (n rangeSize rightIndex : Z) : Z :=
  Z.max 0 (Z.min (rightIndex + rangeSize) n - 1).

Section ChildrenLoop.

(** The state the recursive calls thread through the loop: the layers of
    the tree for [buildRecursive]. *)
Variable S_ : Type.

(** The recursive call: values, indices, offset, location in layer. *)
Variable call : list Z -> list Z -> Z -> Z -> S_ -> outcome S_.

Variables (values indices : list Z) (rmi_width locationInLayer rangeSize : Z).

(** The loop of lines 177-206, [todo] iterations from child [i] on. *)
Fixpoint children_loop (todo : nat) (i leftIndex rightIndex offset : Z) (s : S_)
  : outcome S_ :=
  match todo with
  | O => Returned s
  | S todo' =>
      let '(leftIndex, rightIndex) := clamp_bounds (len indices) leftIndex rightIndex in
      '(subIndices, offset) <-
        (if leftIndex =? rightIndex then Returned ([], offset)
         else
           subIndices <- slice indices leftIndex rightIndex ;;
           offset <- index subIndices 0 ;;
           Returned (subIndices, offset)) ;;
      subValues <- slice values leftIndex rightIndex ;;
      s <- call subValues subIndices offset
                (wrap64 (wrap64 (locationInLayer * rmi_width) + i)) s ;;
      children_loop todo' (i + 1) rightIndex
                    (next_right (len indices) rangeSize rightIndex) offset s
  end.

End ChildrenLoop.

Arguments children_loop {S_} call values indices rmi_width locationInLayer rangeSize
  todo i leftIndex rightIndex offset s.

Section Build.

Variables rmi_width rmi_depth : Z.

(** [buildRecursive]; [fuel] is the number of layers below and including
    [currentDepth], so that no fuel is the index panic of line 143.  The
    assignment of line 143 stores the pointer to the node whose fields lines
    162-164 fill in: the model checks the two indices first, fits, and stores
    the node.  The pointer that is returned is the one that was stored, at
    [nodes[currentDepth][locationInLayer]]; the model returns the layers. *)
Fixpoint buildRecursive (fuel : nat) (values indices : list Z) (offset : Z)
         (currentDepth locationInLayer : Z) (nodes : Layers) : outcome Layers :=
  match fuel with
  | O => Panicked IndexOutOfRange
  | S fuel' =>
      row <- index nodes currentDepth ;;
      _ <- index row locationInLayer ;;
      node <- fit values indices offset ;;
      nodes <- store nodes currentDepth locationInLayer node ;;
      if currentDepth =? rmi_depth - 1 then Returned nodes
      else
        let currentDepth := currentDepth + 1 in
        let rangeSize := float_quo (len values) rmi_width in
        let leftIndex := 0 in
        let rightIndex := Z.max 0 rangeSize in
        children_loop
          (fun v ix off loc nodes => buildRecursive fuel' v ix off currentDepth loc nodes)
          values indices rmi_width locationInLayer rangeSize
          (Z.to_nat rmi_width) 0 leftIndex rightIndex offset nodes
  end.

End Build.

(** The allocation loop of lines 60-65. *)
Fixpoint make_layers (rmi_width : Z) (todo : nat) (layerSize : Z) : outcome Layers :=
  match todo with
  | O => Returned []
  | S todo' =>
      row <- make (@None Node) layerSize ;;
      rest <- make_layers rmi_width todo' (wrap64 (layerSize * rmi_width)) ;;
      Returned (row :: rest)
  end.

Definition iota (n : nat) : list Z := map Z.of_nat (seq 0 n).

(** [NewRMI] returns a pair, the tree and the error.  [rmi.root] is the
    node [buildRecursive] returns, which it has stored at [nodes[0][0]]. *)
Definition NewRMI (values : list Z) (width depth : Z)
  : outcome (option RMI * option error) :=
  if negb (SliceIsSorted values) then Returned (None, Some ErrNotSorted)
  else
    let indices := iota (length values) in
    _ <- make (@nil (option Node)) depth ;;
    nodes <- make_layers width (Z.to_nat depth) 1 ;;
    let maxIndex := len values - 1 in
    nodes <- buildRecursive width depth (length nodes) values indices 0 0 0 nodes ;;
    root <- (row <- index nodes 0 ;; index row 0) ;;
    Returned (Some (mkRMI width depth root nodes maxIndex), None).

(** ** rmi.go: the query *)

(** [res.Mul(m, new(big.Float).SetInt(value)).Add(res, b)] with [res] a
    fresh [big.NewFloat(0)] (lines 100 and 113). *)
Definition predict (node : Node) (value : Z) : outcome Float :=
  res <- Mul NewFloat_0 (m node) (SetInt value) ;;
  Add res res (b node).

(** The leaf's clamp (lines 102-108). *)
Definition clamp_leaf (maxIndex nextIndex : Z) : Z :=
  if nextIndex >? maxIndex then maxIndex
  else if nextIndex <? 0 then 0
  else nextIndex.

(** The child's clamp (lines 120-124). *)
Definition clamp_child (size nextIndex : Z) : Z :=
  if nextIndex <? 0 then 0
  else if nextIndex >=? size then size - 1
  else nextIndex.

Section Query.

Variable rmi : RMI.
Variable value : Z.

(** The slot of the child in [layer = rmi.nodes[nextLayer]]
    (lines 113-124). *)
Definition child_slot (node : Node) (scale : Float) (layer : list (option Node))
  : outcome Z :=
  res <- predict node value ;;
  res <- Quo res res (NewFloat_int (maxIndex rmi)) ;;
  res <- Mul res res scale ;;
  Returned (clamp_child (len layer) (Int64 res)).

(** What an inner iteration hands to the next one (lines 113-128): the
    child and the scale. *)
Definition descend (node : Node) (scale : Float) (layer : list (option Node))
  : outcome (option Node * Float) :=
  nextIndex <- child_slot node scale layer ;;
  child <- index layer nextIndex ;;
  scale <- Mul scale scale (NewFloat_int (width rmi)) ;;
  Returned (child, scale).

(** The loop of lines 92-129.  [rest] holds the layers
    [rmi.nodes[nextLayer:]]: [rmi.nodes[nextLayer]] is its head, and an
    index panic when it is empty.  [evals] counts the iterations begun, one
    node model each; it is returned with the outcome. *)
Fixpoint GetIndex_loop (rest : Layers) (currentNode : option Node)
         (nextLayer : Z) (scale : Float) (evals : nat) : nat * outcome Z :=
  match currentNode with
  | None => (evals, Panicked NilDeref)
  | Some node =>
      let evals := S evals in
      if nextLayer =? depth rmi then
        (evals,
         res <- predict node value ;;
         Returned (clamp_leaf (maxIndex rmi) (Int64 res)))
      else
        match rest with
        | [] => (evals, _ <- child_slot node scale [] ;; Panicked IndexOutOfRange)
        | layer :: rest' =>
            match descend node scale layer with
            | Panicked p => (evals, Panicked p)
            | Returned (child, scale) =>
                GetIndex_loop rest' child (nextLayer + 1) scale evals
            end
        end
  end.

Definition GetIndex_counted : nat * outcome Z :=
  GetIndex_loop (skipn 1 (nodes rmi)) (root rmi) 1 (NewFloat_int (width rmi)) 0.

Definition GetIndex : outcome Z := snd GetIndex_counted.

(** The number of node models one call evaluates. *)
Definition evaluations : nat := fst GetIndex_counted.

End Query.

(** ** The calls of the children loop, in closed form

    The loop of [buildRecursive] threads the layers through its recursive
    calls, and its bounds, offset and locations do not depend on them.  The
    definitions below give the sequence of bounds and the arguments of the
    calls by themselves; [children_loop_run] shows that the loop is the
    sequence of these calls. *)

Record ChildCall : Type := mkCall {
  cc_values : list Z;
  cc_indices : list Z;
  cc_offset : Z;
  cc_location : Z
}.

(** The call that only records its arguments. *)
Definition log_call (v ix : list Z) (off loc : Z) (s : list ChildCall)
  : outcome (list ChildCall) :=
  Returned (s ++ [mkCall v ix off loc]).

(** The calls one node makes for its children (lines 171-206). *)
Definition child_calls (values indices : list Z) (rmi_width locationInLayer offset : Z)
  : outcome (list ChildCall) :=
  let rangeSize := float_quo (len values) rmi_width in
  children_loop log_call values indices rmi_width locationInLayer rangeSize
                (Z.to_nat rmi_width) 0 0 (Z.max 0 rangeSize) offset [].

(** The bounds [[leftIndex, rightIndex)] of the children, after the check of
    lines 183-188, for a node of [n] points. *)
Fixpoint child_bounds (n rangeSize : Z) (todo : nat) (leftIndex rightIndex : Z)
  : list (Z * Z) :=
  match todo with
  | O => []
  | S todo' =>
      let '(l, r) := clamp_bounds n leftIndex rightIndex in
      (l, r) :: child_bounds n rangeSize todo' r (next_right n rangeSize r)
  end.

Definition node_bounds (n rmi_width : Z) : list (Z * Z) :=
  let rangeSize := float_quo n rmi_width in
  child_bounds n rangeSize (Z.to_nat rmi_width) 0 (Z.max 0 rangeSize).

(** The arguments of the calls, from the bounds. *)
Fixpoint calls_of (values indices : list Z) (base i offset : Z) (bounds : list (Z * Z))
  : list ChildCall :=
  match bounds with
  | [] => []
  | (l, r) :: rest =>
      let offset := if l =? r then offset else nth (Z.to_nat l) indices 0 in
      mkCall (sub values l r) (sub indices l r) offset (wrap64 (base + i))
      :: calls_of values indices base (i + 1) offset rest
  end.

Definition children (values indices : list Z) (rmi_width locationInLayer offset : Z)
  : list ChildCall :=
  calls_of values indices (wrap64 (locationInLayer * rmi_width)) 0 offset
           (node_bounds (len indices) rmi_width).

Fixpoint run_calls {S_ : Type} (call : list Z -> list Z -> Z -> Z -> S_ -> outcome S_)
         (calls : list ChildCall) (s : S_) : outcome S_ :=
  match calls with
  | [] => Returned s
  | c :: rest =>
      s <- call (cc_values c) (cc_indices c) (cc_offset c) (cc_location c) s ;;
      run_calls call rest s
  end.

(** The sub-ranges cover the range [[0, n)]: they are contiguous from 0 and
    the last one ends at [n]. *)
Fixpoint contiguous (start : Z) (bounds : list (Z * Z)) : Prop :=
  match bounds with
  | [] => True
  | (l, r) :: rest => l = start /\ l <= r /\ contiguous r rest
  end.

Definition covers (n : Z) (bounds : list (Z * Z)) : Prop :=
  contiguous 0 bounds /\ snd (last bounds (0, 0)) = n.

(** What holds of the bounds at the head of every iteration of the children
    loop of a node of [n] points. *)
Definition head_inv (n rangeSize leftIndex rightIndex : Z) : Prop :=
  rightIndex - leftIndex <= Z.max 0 rangeSize /\
  ((rightIndex <= 0 /\ leftIndex = 0) \/
   (0 < rightIndex /\ 1 <= rangeSize /\ 0 <= leftIndex <= rightIndex /\ leftIndex <= n - 1)).

(** What holds of the bounds a child is cut with. *)
Definition good_bounds (n rangeSize : Z) (lr : Z * Z) : Prop :=
  0 <= fst lr /\ fst lr <= snd lr /\ snd lr <= Z.max 0 (n - 1) /\
  snd lr - fst lr <= Z.max 0 rangeSize.

(** ** Reading the layers *)

(** The slot [nodes[layer][position]], [None] when it is nil or out of
    range; the size of a layer; the sizes of all of them. *)
Definition get (nodes : Layers) (layer position : Z) : option Node :=
  match nth_error nodes (Z.to_nat layer) with
  | Some row =>
      match nth_error row (Z.to_nat position) with
      | Some slot => slot
      | None => None
      end
  | None => None
  end.

Definition row_len (nodes : Layers) (layer : Z) : Z :=
  match nth_error nodes (Z.to_nat layer) with
  | Some row => len row
  | None => 0
  end.

Definition shape (nodes : Layers) : list Z := map (@len (option Node)) nodes.

(** ** What a call of [buildRecursive] that returns has done

    The call is for the node of layer [d] whose position is [q] before
    wrapping.  It leaves the sizes of the layers, the layers above [d] and
    the other slots of layer [d] as they were, stores the node it fitted,
    empties no slot, and has found in range and filled every slot
    of its subtree: the positions [[q * w^k, (q + 1) * w^k)] of the layers
    [d + k] down to the leaves. *)
Definition build_post (w depth : Z) (vals idx : list Z) (off d q : Z)
           (nodes nodes' : Layers) : Prop :=
  shape nodes' = shape nodes
  /\ (forall k j, 0 <= k < d -> 0 <= j -> get nodes' k j = get nodes k j)
  /\ (forall j, 0 <= j -> j <> wrap64 q -> get nodes' d j = get nodes d j)
  /\ (exists nd, fit vals idx off = Returned nd /\ get nodes' d (wrap64 q) = Some nd)
  /\ (forall k j, 0 <= k -> 0 <= j -> get nodes k j <> None -> get nodes' k j <> None)
  /\ (forall k q', 0 <= k -> d + k <= depth - 1 ->
        q * w ^ k <= q' < (q + 1) * w ^ k ->
        0 <= wrap64 q' < row_len nodes (d + k) /\ get nodes' (d + k) (wrap64 q') <> None).

(** What holds of the offset at the head of every iteration of the children
    loop, [todo] children to go, for a node of [n] points that was given the
    offset [off0]: either every child to come gets a rank of its own, or the
    running offset is still [off0]. *)
Definition offset_inv (n rangeSize off0 : Z) (todo : nat)
           (leftIndex rightIndex offset : Z) : Prop :=
  todo = 0%nat
  \/ (2 <= rangeSize /\ 0 <= leftIndex < rightIndex
      /\ rightIndex + (Z.of_nat todo - 1) * (rangeSize - 1) <= n - 1)
  \/ (offset = off0
      /\ ((leftIndex = 0 /\ (rangeSize <= 1 \/ todo = 1%nat))
          \/ (rangeSize <= 1 /\ leftIndex = rightIndex))).

(** The node of fewer than two points. *)
Definition small_node (offset : Z) : Node :=
  mkNode NewFloat_0 (SetInt offset) NewFloat_0.

(** Every node the layers hold satisfies [Q]. *)
Definition all_nodes (Q : Node -> Prop) (nodes : Layers) : Prop :=
  forall k j nd, 0 <= k -> 0 <= j -> get nodes k j = Some nd -> Q nd.

(** ** The node of a path

    The call that builds the node reached from the node of the call [c] by
    the child numbers of [path], and the call that builds the root. *)
Fixpoint descendant (wid : Z) (path : list nat) (c : ChildCall) : option ChildCall :=
  match path with
  | [] => Some c
  | k :: rest =>
      match nth_error (children (cc_values c) (cc_indices c) wid
                                (cc_location c) (cc_offset c)) k with
      | Some c' => descendant wid rest c'
      | None => None
      end
  end.

Definition root_call (values : list Z) : ChildCall :=
  mkCall values (iota (length values)) 0 0.

(** Every node under the node of [call], which is at position [q] of layer
    [d], is in the slot of its location, which lies in the subtree of [q],
    and is the model fitted to the points of its call. *)
Definition holds_subtree (wid dep : Z) (s : Layers) (d q : Z) (call : ChildCall) : Prop :=
  forall path c,
    d + len path <= dep - 1 ->
    descendant wid path call = Some c ->
    q * wid ^ len path <= cc_location c < (q + 1) * wid ^ len path
    /\ exists nd, fit (cc_values c) (cc_indices c) (cc_offset c) = Returned nd
                  /\ get s (d + len path) (cc_location c) = Some nd.

(** No slot has changed but those under the positions [[lo, hi)] of layer
    [d]. *)
Definition untouched_outside (wid : Z) (nodes nodes' : Layers) (d lo hi : Z) : Prop :=
  forall k j,
    0 <= k -> 0 <= j ->
    ~ (d <= k /\ lo * wid ^ (k - d) <= j < hi * wid ^ (k - d)) ->
    get nodes' k j = get nodes k j.

(** ** The traversal, in the words of the specification

    Section 4.3 of the specification, over the arithmetic of the code: start
    at the root with the scale [width]; at a layer that is not the leaf
    layer evaluate [p = m * key + b], normalise [p / maxIndex], multiply by
    the scale, take the floor as the child's slot, clamp it into
    [[0, width^(layer+1) - 1]], descend, and multiply the scale by the
    width; at the leaf layer evaluate [p] and clamp it into [[0, maxIndex]]. *)

(** The greatest integer that is not above [x]; the greatest or the least
    [int] for an infinity. *)
Definition floor (x : Float) : Z :=
  match mag x with
  | MZero => 0
  | MInf => if neg x then min_int else max_int
  | MFin m e =>
      let v := signed (neg x) m in
      if 0 <=? e then v * 2 ^ e else v / 2 ^ (- e)
  end.

Definition clamp (lo hi x : Z) : Z := Z.max lo (Z.min hi x).

Fixpoint spec_traverse (rmi : RMI) (key : Z) (layers_below : nat) (layer : Z)
         (node : Node) (scale : Float) : outcome Z :=
  match layers_below with
  | O =>
      p <- predict node key ;;
      Returned (clamp 0 (maxIndex rmi) (floor p))
  | S layers_below' =>
      p <- predict node key ;;
      fraction <- Quo p p (NewFloat_int (maxIndex rmi)) ;;
      scaled <- Mul fraction fraction scale ;;
      let childIndex := clamp 0 (width rmi ^ (layer + 1) - 1) (floor scaled) in
      match get (nodes rmi) (layer + 1) childIndex with
      | None => Panicked NilDeref
      | Some child =>
          scale <- Mul scale scale (NewFloat_int (width rmi)) ;;
          spec_traverse rmi key layers_below' (layer + 1) child scale
      end
  end.

Definition spec_GetIndex (rmi : RMI) (key : Z) : outcome Z :=
  match get (nodes rmi) 0 0 with
  | None => Panicked NilDeref
  | Some node =>
      spec_traverse rmi key (Z.to_nat (depth rmi - 1)) 0 node (NewFloat_int (width rmi))
  end.

(** ** rmi_test.go: the distance from a predicted index to a value

    [distanceToValueFromIndex] walks from [index] to the right and to the
    left until it meets [value], counting the steps; a step over a key on
    the wrong side of [value] resets the count to [math.MaxInt32] first.  It
    returns the smaller count.  The counts stay far below [2^53], where the
    conversions to [float64] around [math.Min] are exact. *)

Definition MaxInt32 : Z := 2 ^ 31 - 1.

(** [x.Cmp(y)] *)
Definition Cmp (x y : Z) : Z :=
  match x ?= y with
  | Lt => -1
  | Eq => 0
  | Gt => 1
  end.

(** [for i := index; i < len(values); i++], [todo] iterations to go. *)
Fixpoint distance_right (values : list Z) (value : Z) (todo : nat)
         (i distanceRight : Z) : outcome Z :=
  match todo with
  | O => Returned distanceRight
  | S todo' =>
      vi <- index values i ;;
      let cmpRes := Cmp vi value in
      if cmpRes =? 0 then Returned distanceRight
      else
        let distanceRight := if cmpRes =? 1 then MaxInt32 else distanceRight in
        distance_right values value todo' (i + 1) (distanceRight + 1)
  end.

(** [for i := index; i >= 0; i--], [todo] iterations to go. *)
Fixpoint distance_left (values : list Z) (value : Z) (todo : nat)
         (i distanceLeft : Z) : outcome Z :=
  match todo with
  | O => Returned distanceLeft
  | S todo' =>
      vi <- index values i ;;
      let cmpRes := Cmp vi value in
      if cmpRes =? 0 then Returned distanceLeft
      else
        let distanceLeft := if cmpRes =? -1 then MaxInt32 else distanceLeft in
        distance_left values value todo' (i - 1) (distanceLeft + 1)
  end.

Definition distanceToValueFromIndex (values : list Z) (value : Z) (index : Z)
  : outcome Z :=
  distanceRight <-
    distance_right values value (Z.to_nat (len values - index)) index 0 ;;
  distanceLeft <- distance_left values value (Z.to_nat (index + 1)) index 0 ;;
  Returned (Z.min distanceLeft distanceRight).

(** ** Auxiliary definitions of the further properties *)

(** Where the range of child [k] starts when every child gets a key: child 0
    gets [rangeSize] keys and each later child one fewer. *)
Definition child_start (rangeSize : Z) (k : nat) : Z :=
  match k with
  | O => 0
  | S _ => Z.of_nat k * (rangeSize - 1) + 1
  end.

(** The tree with the x intercept of every node replaced by [z]. *)
Definition set_w (z : Float) (node : Node) : Node := mkNode (m node) (b node) z.

Definition with_w (z : Float) (rmi : RMI) : RMI :=
  mkRMI (width rmi) (depth rmi) (option_map (set_w z) (root rmi))
        (map (map (option_map (set_w z))) (nodes rmi)) (maxIndex rmi).

(** What every call of [buildRecursive] under the root satisfies: its keys
    and its ranks are the same range of the key array and of its positions,
    and its offset is its first rank when it has one. *)
Definition in_range (values : list Z) (c : ChildCall) : Prop :=
  len (cc_values c) = len (cc_indices c)
  /\ (0 < len (cc_indices c) -> cc_offset c = nth 0 (cc_indices c) 0)
  /\ exists lo hi,
       0 <= lo /\ lo <= hi /\ hi <= len values
       /\ cc_values c = sub values lo hi
       /\ cc_indices c = sub (iota (length values)) lo hi.

(** * Properties *)

(** ** Outcomes *)

Lemma bind_returned {A B : Type} (c : outcome A) (k : A -> outcome B) (r : B) :
  bind c k = Returned r -> exists a, c = Returned a /\ k a = Returned r.
Proof.
  destruct c as [a|p]; simpl; intros H; [eauto | discriminate].
Qed.

Lemma bind_panicked {A B : Type} (c : outcome A) (k : A -> outcome B) (p : panic) :
  bind c k = Panicked p ->
  c = Panicked p \/ exists a, c = Returned a /\ k a = Panicked p.
Proof.
  destruct c as [a|q]; simpl; intros H; [right; eauto | left; congruence].
Qed.

(** Splits a hypothesis [bind c k = Returned r] into its two halves. *)
Tactic Notation "bind_inv" hyp(H) "as" ident(a) ident(Ha) :=
  apply bind_returned in H; destruct H as (a & Ha & H).

(** ** The sortedness check *)

Lemma sorted_down_true (values : list Z) (i : nat) :
  sorted_down values i = true <->
  forall j, (j < i)%nat -> nth j values 0 <= nth (S j) values 0.
Proof.
  induction i as [|i IH]; simpl.
  - split; [intros _ j Hj; lia | reflexivity].
  - unfold less. destruct (nth (S i) values 0 <? nth i values 0) eqn:E.
    + apply Z.ltb_lt in E. split; [discriminate|].
      intros H. specialize (H i ltac:(lia)). lia.
    + apply Z.ltb_ge in E. rewrite IH. split; intros H j Hj.
      * destruct (Nat.eq_dec j i) as [->|]; [exact E | apply H; lia].
      * apply H; lia.
Qed.

Lemma SliceIsSorted_true (values : list Z) :
  SliceIsSorted values = true <->
  forall i, (S i < length values)%nat -> nth i values 0 <= nth (S i) values 0.
Proof.
  unfold SliceIsSorted. rewrite sorted_down_true.
  split; intros H i Hi; apply H; lia.
Qed.

(** C2.  An input with an adjacent pair out of order makes [NewRMI] return
    the error and no tree, whatever the width and the depth (the check comes
    before any allocation or recursion, which could panic for some of them);
    a non-decreasing input, duplicates included, never gets the error. *)
Theorem NewRMI_sortedness (values : list Z) (width depth : Z) :
  ((exists i, (S i < length values)%nat /\ nth (S i) values 0 < nth i values 0) ->
   NewRMI values width depth = Returned (None, Some ErrNotSorted))
  /\
  ((forall i, (S i < length values)%nat -> nth i values 0 <= nth (S i) values 0) ->
   forall r e, NewRMI values width depth <> Returned (r, Some e)).
Proof.
  split.
  - intros (i & Hi & Hlt). unfold NewRMI.
    destruct (SliceIsSorted values) eqn:E; [|reflexivity].
    apply SliceIsSorted_true with (i := i) in E; [lia | exact Hi].
  - intros Hs r e. apply SliceIsSorted_true in Hs. unfold NewRMI. rewrite Hs. simpl.
    intros H.
    repeat (let a := fresh "a" in let Ha := fresh "Ha" in
            apply bind_returned in H; destruct H as (a & Ha & H)).
    discriminate.
Qed.

Lemma NewRMI_sortedness_witness :
  NewRMI [3; 1; 2] 2 2 = Returned (None, Some ErrNotSorted)
  /\ (forall r e, NewRMI [1; 1; 2] 2 2 <> Returned (r, Some e)).
Proof.
  split.
  - apply (proj1 (NewRMI_sortedness [3; 1; 2] 2 2)).
    exists 0%nat. simpl. lia.
  - apply (proj2 (NewRMI_sortedness [1; 1; 2] 2 2)).
    intros i Hi. simpl in Hi.
    destruct i as [|[|i]]; simpl; lia.
Defined.

(** ** Slices *)

Lemma len_nonneg {A : Type} (l : list A) : 0 <= len l.
Proof. unfold len. lia. Qed.

Lemma len_sub {A : Type} (l : list A) (lo hi : Z) :
  0 <= lo -> lo <= hi -> hi <= len l -> len (sub l lo hi) = hi - lo.
Proof.
  unfold sub, len. intros H0 H1 H2.
  rewrite length_firstn, length_skipn. lia.
Qed.

Lemma sub_empty {A : Type} (l : list A) (lo : Z) : sub l lo lo = [].
Proof. unfold sub. now rewrite Z.sub_diag. Qed.

Lemma slice_returns {A : Type} (l : list A) (lo hi : Z) :
  0 <= lo -> lo <= hi -> hi <= len l -> slice l lo hi = Returned (sub l lo hi).
Proof.
  intros H0 H1 H2. unfold slice.
  destruct (lo <? 0) eqn:E1; [apply Z.ltb_lt in E1; lia|].
  destruct (hi <? lo) eqn:E2; [apply Z.ltb_lt in E2; lia|].
  destruct (len l <? hi) eqn:E3; [apply Z.ltb_lt in E3; lia|].
  reflexivity.
Qed.

Lemma index_returns {A : Type} (l : list A) (i : Z) (d : A) :
  0 <= i -> i < len l -> index l i = Returned (nth (Z.to_nat i) l d).
Proof.
  intros H0 H1. unfold index.
  destruct (i <? 0) eqn:E1; [apply Z.ltb_lt in E1; lia|].
  destruct (len l <=? i) eqn:E2; [apply Z.leb_le in E2; lia|].
  simpl. unfold len in H1.
  destruct (nth_error l (Z.to_nat i)) eqn:E.
  - now rewrite (nth_error_nth _ _ d E).
  - apply nth_error_None in E. lia.
Qed.

Lemma index_inv {A : Type} (l : list A) (i : Z) (a : A) :
  index l i = Returned a ->
  0 <= i /\ i < len l /\ nth_error l (Z.to_nat i) = Some a.
Proof.
  unfold index.
  destruct (i <? 0) eqn:E1; [discriminate|].
  destruct (len l <=? i) eqn:E2; [discriminate|]. simpl.
  apply Z.ltb_ge in E1. apply Z.leb_gt in E2.
  destruct (nth_error l (Z.to_nat i)); [|discriminate].
  intros H; inversion H; subst. auto.
Qed.

Lemma nth_sub_0 (l : list Z) (lo hi : Z) :
  0 <= lo -> lo < hi -> hi <= len l ->
  nth 0 (sub l lo hi) 0 = nth (Z.to_nat lo) l 0.
Proof.
  intros H0 H1 H2. unfold sub.
  replace (Z.to_nat (hi - lo)) with (S (Z.to_nat (hi - lo - 1))) by lia.
  unfold len in H2.
  rewrite <- (firstn_skipn (Z.to_nat lo) l) at 2.
  rewrite app_nth2; rewrite length_firstn; [|lia].
  replace (Z.to_nat lo - Nat.min (Z.to_nat lo) (length l))%nat with 0%nat by lia.
  destruct (skipn (Z.to_nat lo) l) eqn:E; [|reflexivity].
  apply (f_equal (@length Z)) in E. rewrite length_skipn in E. simpl in E. lia.
Qed.

(** ** The bounds of the children *)

Section Bounds.

Variables n rangeSize : Z.
Hypothesis n_nonneg : 0 <= n.

Lemma clamp_bounds_good (leftIndex rightIndex : Z) :
  head_inv n rangeSize leftIndex rightIndex ->
  good_bounds n rangeSize (clamp_bounds n leftIndex rightIndex) /\
  fst (clamp_bounds n leftIndex rightIndex) = leftIndex /\
  head_inv n rangeSize (snd (clamp_bounds n leftIndex rightIndex))
           (next_right n rangeSize (snd (clamp_bounds n leftIndex rightIndex))).
Proof.
  unfold head_inv, good_bounds, clamp_bounds, next_right.
  intros (Hlen & [(Hr & Hl) | (Hr & Hrs & Hl & Hn)]).
  - destruct (rightIndex <=? 0) eqn:E; [|apply Z.leb_gt in E; lia].
    simpl. lia.
  - destruct (rightIndex <=? 0) eqn:E; [apply Z.leb_le in E; lia|].
    destruct (rightIndex >=? n) eqn:E2; simpl.
    + apply Z.geb_le in E2. lia.
    + rewrite Z.geb_leb in E2. apply Z.leb_gt in E2. lia.
Qed.

Lemma child_bounds_good (todo : nat) (leftIndex rightIndex : Z) :
  head_inv n rangeSize leftIndex rightIndex ->
  Forall (good_bounds n rangeSize) (child_bounds n rangeSize todo leftIndex rightIndex).
Proof.
  revert leftIndex rightIndex.
  induction todo as [|todo IH]; intros l r H; simpl; [constructor|].
  destruct (clamp_bounds_good _ _ H) as (Hg & _ & Hnext).
  destruct (clamp_bounds n l r) as [l' r']. simpl in *.
  constructor; [exact Hg | apply IH, Hnext].
Qed.

Lemma child_bounds_contiguous (todo : nat) (leftIndex rightIndex : Z) :
  head_inv n rangeSize leftIndex rightIndex ->
  contiguous leftIndex (child_bounds n rangeSize todo leftIndex rightIndex).
Proof.
  revert leftIndex rightIndex.
  induction todo as [|todo IH]; intros l r H; simpl; [exact I|].
  destruct (clamp_bounds_good _ _ H) as (Hg & Hfst & Hnext).
  destruct (clamp_bounds n l r) as [l' r']. simpl in *.
  unfold good_bounds in Hg. simpl in Hg.
  repeat split; [exact Hfst | lia | apply IH, Hnext].
Qed.

Lemma length_child_bounds (todo : nat) (leftIndex rightIndex : Z) :
  length (child_bounds n rangeSize todo leftIndex rightIndex) = todo.
Proof.
  revert leftIndex rightIndex.
  induction todo as [|todo IH]; intros l r; simpl; [reflexivity|].
  destruct (clamp_bounds n l r) as [l' r']. simpl. now rewrite IH.
Qed.

End Bounds.

Lemma float_quo_div (n w : Z) : 0 <= n -> 1 <= w -> float_quo n w = n / w.
Proof.
  intros Hn Hw. unfold float_quo.
  destruct (w =? 0) eqn:E; [apply Z.eqb_eq in E; lia|].
  apply Z.quot_div_nonneg; lia.
Qed.

Lemma head_inv_start (n w : Z) :
  0 <= n -> head_inv n (float_quo n w) 0 (Z.max 0 (float_quo n w)).
Proof.
  intros Hn. unfold head_inv.
  split; [lia|].
  destruct (Z_le_gt_dec (float_quo n w) 0) as [H|H]; [left; lia|right].
  unfold float_quo in *. destruct (w =? 0) eqn:E; [unfold min_int in H; lia|].
  apply Z.eqb_neq in E.
  assert (0 < n).
  { destruct (Z.eq_dec n 0) as [->|]; [|lia]. rewrite Z.quot_0_l in H; lia. }
  lia.
Qed.

Lemma node_bounds_good (n w : Z) :
  0 <= n -> Forall (good_bounds n (float_quo n w)) (node_bounds n w).
Proof.
  intros Hn. apply child_bounds_good, head_inv_start, Hn.
Qed.

(** ** The children loop is the sequence of its calls *)

Lemma children_loop_run {S_ : Type}
      (call : list Z -> list Z -> Z -> Z -> S_ -> outcome S_)
      (values indices : list Z) (w loc rs : Z) (todo : nat) :
  len values = len indices ->
  forall (i leftIndex rightIndex offset : Z) (s : S_),
    head_inv (len indices) rs leftIndex rightIndex ->
    children_loop call values indices w loc rs todo i leftIndex rightIndex offset s
    = run_calls call
        (calls_of values indices (wrap64 (loc * w)) i offset
                  (child_bounds (len indices) rs todo leftIndex rightIndex)) s.
Proof.
  intros Hlen. induction todo as [|todo IH]; intros i l r off s H; simpl; [reflexivity|].
  destruct (clamp_bounds_good _ _ _ _ H) as (Hg & _ & Hnext).
  destruct (clamp_bounds (len indices) l r) as [l' r'].
  unfold good_bounds in Hg. simpl in Hg, Hnext. simpl.
  pose proof (len_nonneg indices) as Hn.
  destruct (l' =? r') eqn:E.
  - apply Z.eqb_eq in E. subst r'. simpl.
    rewrite slice_returns by lia. simpl. rewrite (sub_empty indices).
    destruct (call (sub values l' l') [] off (wrap64 (wrap64 (loc * w) + i)) s); simpl;
      [apply IH, Hnext | reflexivity].
  - apply Z.eqb_neq in E.
    rewrite (slice_returns indices) by lia. simpl.
    rewrite (index_returns (sub indices l' r') 0 0) by (rewrite ?len_sub; lia). simpl.
    rewrite slice_returns by lia. simpl.
    rewrite nth_sub_0 by lia.
    destruct (call _ _ _ _ s); simpl; [apply IH, Hnext | reflexivity].
Qed.

Lemma run_calls_log (calls acc : list ChildCall) :
  run_calls log_call calls acc = Returned (acc ++ calls).
Proof.
  revert acc. induction calls as [|c calls IH]; intros acc; simpl.
  - now rewrite app_nil_r.
  - rewrite IH, <- app_assoc. now destruct c.
Qed.

(** The calls a node makes for its children, when it was given as many
    ranks as keys: no slice is out of bounds, and the calls are [children]. *)
Lemma child_calls_children (values indices : list Z) (w loc offset : Z) :
  len values = len indices ->
  child_calls values indices w loc offset
  = Returned (children values indices w loc offset).
Proof.
  intros Hlen. unfold child_calls, children, node_bounds.
  rewrite children_loop_run, run_calls_log; rewrite ?Hlen; try reflexivity.
  apply head_inv_start, len_nonneg.
Qed.

Lemma length_calls_of (values indices : list Z) (base : Z) (bounds : list (Z * Z)) :
  forall i offset, length (calls_of values indices base i offset bounds) = length bounds.
Proof.
  induction bounds as [|[l r] bounds IH]; intros i off; simpl; [reflexivity|].
  now rewrite IH.
Qed.

Lemma length_children (values indices : list Z) (w loc offset : Z) :
  length (children values indices w loc offset) = Z.to_nat w.
Proof.
  unfold children, node_bounds. now rewrite length_calls_of, length_child_bounds.
Qed.

Lemma calls_of_bounds (values indices : list Z) (base : Z) (bounds : list (Z * Z)) :
  forall i offset,
    Forall2 (fun c lr => cc_values c = sub values (fst lr) (snd lr)
                         /\ cc_indices c = sub indices (fst lr) (snd lr))
            (calls_of values indices base i offset bounds) bounds.
Proof.
  induction bounds as [|[l r] bounds IH]; intros i off; simpl; constructor; auto.
Qed.

(** C3, as the code has it.  A node that is not a leaf and was given [n]
    keys and [n] ranks makes exactly [width] calls for its children; the
    calls get the sub-ranges [[l, r)] of the keys and of the ranks, cut left
    to right: the first starts at 0, each starts where the one before ends,
    every bound lies in [[0, n]] and no sub-range is longer than
    [floor(n / width)].  (Nothing is said about the last sub-range reaching
    [n].) *)
Theorem children_partition (values indices : list Z) (w loc offset : Z) :
  len values = len indices ->
  1 <= w ->
  exists calls,
    child_calls values indices w loc offset = Returned calls
    /\ len calls = w
    /\ Forall2 (fun c lr => cc_values c = sub values (fst lr) (snd lr)
                            /\ cc_indices c = sub indices (fst lr) (snd lr))
               calls (node_bounds (len values) w)
    /\ contiguous 0 (node_bounds (len values) w)
    /\ Forall (fun lr => 0 <= fst lr /\ fst lr <= snd lr /\ snd lr <= len values
                         /\ snd lr - fst lr <= len values / w)
              (node_bounds (len values) w).
Proof.
  intros Hlen Hw. exists (children values indices w loc offset).
  pose proof (len_nonneg values) as Hn.
  split; [apply child_calls_children, Hlen|].
  split; [unfold len; rewrite length_children; lia|].
  split; [unfold children; rewrite <- Hlen; apply calls_of_bounds|].
  split.
  - apply child_bounds_contiguous, head_inv_start, Hn.
  - pose proof (node_bounds_good _ w Hn) as Hg.
    rewrite float_quo_div in Hg by lia.
    assert (0 <= len values / w) by (apply Z.div_pos; lia).
    revert Hg. apply Forall_impl. intros [l r]. unfold good_bounds. simpl. lia.
Qed.

Lemma children_partition_witness :
  exists calls,
    child_calls [10; 20; 30; 40] [0; 1; 2; 3] 2 0 0 = Returned calls
    /\ len calls = 2
    /\ Forall2 (fun c lr => cc_values c = sub [10; 20; 30; 40] (fst lr) (snd lr)
                            /\ cc_indices c = sub [0; 1; 2; 3] (fst lr) (snd lr))
               calls (node_bounds 4 2)
    /\ contiguous 0 (node_bounds 4 2)
    /\ Forall (fun lr => 0 <= fst lr /\ fst lr <= snd lr /\ snd lr <= 4
                         /\ snd lr - fst lr <= 4 / 2)
              (node_bounds 4 2).
Proof.
  apply (children_partition [10; 20; 30; 40] [0; 1; 2; 3] 2 0 0).
  - reflexivity.
  - lia.
Defined.

(** C3, as stated, fails: of four keys and width 2 the children get the keys
    at [[0, 2)] and [[2, 3)]; the last key is in no child's range, no
    sub-range absorbs it. *)
Lemma children_partition_counterexample :
  child_calls [10; 20; 30; 40] [0; 1; 2; 3] 2 0 0
  = Returned [mkCall [10; 20] [0; 1] 0 0; mkCall [30] [2] 2 1]
  /\ node_bounds 4 2 = [(0, 2); (2, 3)]
  /\ ~ covers 4 (node_bounds 4 2).
Proof.
  split; [reflexivity|]. split; [reflexivity|].
  unfold covers. simpl. intros (_ & H). discriminate.
Qed.

(** ** Storing a node *)

Lemma length_update {A : Type} (l : list A) (i : nat) (x : A) :
  (i < length l)%nat -> length (update l i x) = length l.
Proof.
  intros H. unfold update.
  rewrite length_app, length_firstn. cbn [length]. rewrite length_skipn. lia.
Qed.

Lemma nth_error_update {A : Type} (l : list A) (i j : nat) (x : A) :
  (i < length l)%nat ->
  nth_error (update l i x) j = if Nat.eqb j i then Some x else nth_error l j.
Proof.
  intros H. unfold update.
  destruct (Nat.eqb_spec j i) as [->|Hne].
  - rewrite nth_error_app2; rewrite length_firstn; [|lia].
    replace (i - Nat.min i (length l))%nat with 0%nat by lia. reflexivity.
  - destruct (Nat.lt_ge_cases j i) as [Hlt|Hge].
    + rewrite nth_error_app1 by (rewrite length_firstn; lia).
      now rewrite nth_error_firstn, (proj2 (Nat.ltb_lt j i) Hlt).
    + rewrite nth_error_app2; rewrite length_firstn; [|lia].
      replace (Nat.min i (length l)) with i by lia.
      destruct (j - i)%nat as [|d] eqn:E; [lia|]. cbn [nth_error].
      rewrite nth_error_skipn. f_equal. lia.
Qed.

Lemma store_inv (nodes nodes' : Layers) (k j : Z) (nd : Node) :
  store nodes k j nd = Returned nodes' ->
  0 <= k /\ 0 <= j /\ j < row_len nodes k
  /\ shape nodes' = shape nodes
  /\ (forall k' j', 0 <= k' -> 0 <= j' ->
        get nodes' k' j' = if (k' =? k) && (j' =? j) then Some nd else get nodes k' j').
Proof.
  unfold store. intros H.
  bind_inv H as row Hrow. apply index_inv in Hrow as (Hk0 & Hk1 & Hrow).
  bind_inv H as slot Hslot. apply index_inv in Hslot as (Hj0 & Hj1 & Hslot).
  inversion H; subst nodes'; clear H.
  unfold len in *.
  assert (Hrl : row_len nodes k = len row) by (unfold row_len; now rewrite Hrow).
  split; [exact Hk0|]. split; [exact Hj0|]. split; [unfold len in *; lia|].
  split.
  - unfold shape. apply nth_error_ext. intros i.
    rewrite !nth_error_map, nth_error_update by lia.
    destruct (Nat.eqb_spec i (Z.to_nat k)) as [->|]; [|reflexivity].
    rewrite Hrow. simpl. unfold len. f_equal. rewrite length_update; lia.
  - intros k' j' Hk' Hj'. unfold get.
    rewrite nth_error_update by lia.
    destruct (Z.eqb_spec k' k) as [->|Hne].
    + rewrite Nat.eqb_refl, Hrow, nth_error_update by lia. simpl.
      destruct (Z.eqb_spec j' j) as [->|Hne'].
      * now rewrite Nat.eqb_refl.
      * destruct (Nat.eqb_spec (Z.to_nat j') (Z.to_nat j)); [lia | reflexivity].
    + destruct (Nat.eqb_spec (Z.to_nat k') (Z.to_nat k)); [lia | reflexivity].
Qed.

Lemma store_returns (nodes : Layers) (k j : Z) (nd : Node) :
  0 <= k -> 0 <= j -> j < row_len nodes k ->
  exists nodes', store nodes k j nd = Returned nodes'.
Proof.
  intros Hk Hj Hlt. unfold store, row_len in *.
  destruct (nth_error nodes (Z.to_nat k)) as [row|] eqn:E; [|lia].
  assert (Z.to_nat k < length nodes)%nat by (apply nth_error_Some; congruence).
  rewrite (index_returns nodes k row) by (unfold len; lia).
  rewrite (nth_error_nth _ _ row E). simpl.
  rewrite (index_returns row j None) by lia. simpl. eauto.
Qed.

Lemma shape_row_len (nodes nodes' : Layers) (k : Z) :
  shape nodes' = shape nodes -> row_len nodes' k = row_len nodes k.
Proof.
  unfold shape, row_len. intros H.
  apply (f_equal (fun l => nth_error l (Z.to_nat k))) in H.
  rewrite !nth_error_map in H.
  destruct (nth_error nodes' (Z.to_nat k)), (nth_error nodes (Z.to_nat k));
    simpl in H; congruence.
Qed.

Lemma shape_length (nodes nodes' : Layers) :
  shape nodes' = shape nodes -> length nodes' = length nodes.
Proof.
  unfold shape. intros H. apply (f_equal (@length Z)) in H.
  now rewrite !length_map in H.
Qed.

Lemma index_row (nodes : Layers) (k : Z) (row : list (option Node)) :
  index nodes k = Returned row -> 0 <= k /\ row_len nodes k = len row.
Proof.
  intros H. apply index_inv in H as (H0 & _ & H). unfold row_len. now rewrite H.
Qed.

(** ** Wrap-around *)

Lemma wrap64_small (z : Z) : min_int <= z <= max_int -> wrap64 z = z.
Proof.
  unfold wrap64, min_int, max_int. intros H.
  rewrite Z.mod_small; lia.
Qed.

Lemma wrap64_range (z : Z) : min_int <= wrap64 z <= max_int.
Proof.
  unfold wrap64, min_int, max_int.
  pose proof (Z.mod_pos_bound (z + 2 ^ 63) (2 ^ 64) ltac:(lia)). lia.
Qed.

Lemma wrap64_eqm (a b : Z) : a mod 2 ^ 64 = b mod 2 ^ 64 -> wrap64 a = wrap64 b.
Proof.
  intros H. unfold wrap64.
  rewrite <- (Z.add_mod_idemp_l a), H, Z.add_mod_idemp_l by lia. reflexivity.
Qed.

Lemma wrap64_mod (z : Z) : wrap64 z mod 2 ^ 64 = z mod 2 ^ 64.
Proof.
  unfold wrap64.
  rewrite <- Zminus_mod_idemp_l, Z.mod_mod by lia.
  rewrite Zminus_mod_idemp_l. f_equal. lia.
Qed.

Lemma wrap64_child (q w c : Z) :
  wrap64 (wrap64 (wrap64 q * w) + c) = wrap64 (q * w + c).
Proof.
  apply wrap64_eqm.
  rewrite <- Z.add_mod_idemp_l, wrap64_mod by lia.
  rewrite <- Z.mul_mod_idemp_l, wrap64_mod by lia.
  rewrite Z.mul_mod_idemp_l, Z.add_mod_idemp_l by lia. reflexivity.
Qed.

(** ** Sequences of calls *)

Lemma run_calls_inv {S_ : Type} (call : list Z -> list Z -> Z -> Z -> S_ -> outcome S_)
      (calls : list ChildCall) :
  forall (P : nat -> S_ -> Prop) (s s' : S_),
    run_calls call calls s = Returned s' ->
    P 0%nat s ->
    (forall k c s1 s2,
        nth_error calls k = Some c -> P k s1 ->
        call (cc_values c) (cc_indices c) (cc_offset c) (cc_location c) s1 = Returned s2 ->
        P (S k) s2) ->
    P (length calls) s'.
Proof.
  induction calls as [|c calls IH]; intros P s s' H H0 Hstep; simpl in *.
  - inversion H; subst. exact H0.
  - bind_inv H as s1 Hs1.
    apply (IH (fun k => P (S k)) s1 s' H).
    + apply (Hstep 0%nat c s s1); auto.
    + intros k c' t1 t2 Hk Ht Hc. apply (Hstep (S k) c' t1 t2); auto.
Qed.

Lemma run_calls_total {S_ : Type} (call : list Z -> list Z -> Z -> Z -> S_ -> outcome S_)
      (calls : list ChildCall) :
  forall (P : nat -> S_ -> Prop) (s : S_),
    P 0%nat s ->
    (forall k c s1,
        nth_error calls k = Some c -> P k s1 ->
        exists s2,
          call (cc_values c) (cc_indices c) (cc_offset c) (cc_location c) s1 = Returned s2
          /\ P (S k) s2) ->
    exists s', run_calls call calls s = Returned s' /\ P (length calls) s'.
Proof.
  induction calls as [|c calls IH]; intros P s H0 Hstep; simpl in *.
  - eauto.
  - destruct (Hstep 0%nat c s eq_refl H0) as (s1 & Hs1 & H1).
    rewrite Hs1. simpl.
    apply (IH (fun k => P (S k)) s1 H1).
    intros k c' t1 Hk Ht. apply (Hstep (S k) c' t1); auto.
Qed.

Lemma nth_error_calls_of (values indices : list Z) (base : Z) (bounds : list (Z * Z)) :
  forall (i offset : Z) (k : nat) (c : ChildCall),
    nth_error (calls_of values indices base i offset bounds) k = Some c ->
    cc_location c = wrap64 (base + (i + Z.of_nat k))
    /\ exists lr, nth_error bounds k = Some lr
                  /\ cc_values c = sub values (fst lr) (snd lr)
                  /\ cc_indices c = sub indices (fst lr) (snd lr).
Proof.
  induction bounds as [|[l r] bounds IH]; intros i off k c H; simpl in *.
  - destruct k; discriminate.
  - destruct k as [|k]; simpl in H.
    + inversion H; subst; simpl. split; [f_equal; lia|].
      exists (l, r). auto.
    + apply IH in H as (Hloc & lr & Hlr & Hv & Hi).
      split; [rewrite Hloc; f_equal; lia|]. exists lr. auto.
Qed.

(** A child of a node with as many ranks as keys gets as many ranks as
    keys, and is built at the wrapped position [q * w + k]. *)
Lemma nth_error_children (values indices : list Z) (w q offset : Z) (k : nat) (c : ChildCall) :
  len values = len indices ->
  nth_error (children values indices w (wrap64 q) offset) k = Some c ->
  cc_location c = wrap64 (q * w + Z.of_nat k)
  /\ len (cc_values c) = len (cc_indices c)
  /\ (k < Z.to_nat w)%nat.
Proof.
  intros Hlen H.
  assert (Hk : (k < Z.to_nat w)%nat).
  { rewrite <- (length_children values indices w (wrap64 q) offset).
    apply nth_error_Some. congruence. }
  unfold children in H.
  apply nth_error_calls_of in H as (Hloc & lr & Hlr & Hv & Hi).
  split.
  - rewrite Hloc, Z.add_0_l. apply wrap64_child.
  - split; [|exact Hk].
    pose proof (node_bounds_good _ w (len_nonneg indices)) as Hg.
    rewrite Forall_forall in Hg. specialize (Hg lr (nth_error_In _ _ Hlr)).
    unfold good_bounds in Hg. pose proof (len_nonneg indices).
    rewrite Hv, Hi, !len_sub; lia.
Qed.

Lemma subtree_split (q w k q' : Z) :
  0 <= q -> 1 <= k -> 0 <= w ->
  q * w ^ k <= q' < (q + 1) * w ^ k ->
  exists c, 0 <= c < w
            /\ (q * w + c) * w ^ (k - 1) <= q' < (q * w + c + 1) * w ^ (k - 1).
Proof.
  intros Hq Hk Hw H.
  replace k with (Z.succ (k - 1)) in H by lia.
  rewrite Z.pow_succ_r in H by lia.
  set (p := w ^ (k - 1)) in *.
  assert (Hp : 0 <= p) by (apply Z.pow_nonneg; lia).
  destruct (Z.eq_dec p 0) as [Hz|Hnz]; [rewrite Hz in H; lia|].
  exists (q' / p - q * w).
  pose proof (Z.div_mod q' p Hnz) as Hdm.
  pose proof (Z.mod_pos_bound q' p ltac:(lia)) as Hmod.
  split; nia.
Qed.

(** ** What construction does to the layers *)

Lemma buildRecursive_unfold (w depth : Z) (fuel : nat) (values indices : list Z)
      (offset d loc : Z) (nodes : Layers) :
  len values = len indices ->
  buildRecursive w depth (S fuel) values indices offset d loc nodes
  = (row <- index nodes d ;;
     _ <- index row loc ;;
     node <- fit values indices offset ;;
     nodes <- store nodes d loc node ;;
     if d =? depth - 1 then Returned nodes
     else run_calls (fun v ix off loc nodes =>
                       buildRecursive w depth fuel v ix off (d + 1) loc nodes)
                    (children values indices w loc offset) nodes).
Proof.
  intros Hlen. cbn [buildRecursive].
  destruct (index nodes d) as [row|]; simpl; [|reflexivity].
  destruct (index row loc); simpl; [|reflexivity].
  destruct (fit values indices offset) as [node|]; simpl; [|reflexivity].
  destruct (store nodes d loc node) as [nodes1|]; simpl; [|reflexivity].
  destruct (d =? depth - 1); [reflexivity|].
  rewrite children_loop_run by (rewrite <- ?Hlen; auto using head_inv_start, len_nonneg).
  unfold children, node_bounds. now rewrite Hlen.
Qed.

Section BuildFacts.

Variables w depth : Z.
Hypothesis w_nonneg : 0 <= w.

Lemma buildRecursive_post (fuel : nat) :
  forall (vals idx : list Z) (off d q : Z) (nodes nodes' : Layers),
    0 <= d -> 0 <= q -> len vals = len idx ->
    buildRecursive w depth fuel vals idx off d (wrap64 q) nodes = Returned nodes' ->
    build_post w depth vals idx off d q nodes nodes'.
Proof.
  induction fuel as [|fuel IH]; intros vals idx off d q nodes nodes' Hd Hq Hlen H;
    [discriminate|].
  rewrite buildRecursive_unfold in H by exact Hlen.
  bind_inv H as row Hrow. apply index_row in Hrow as (_ & Hrow).
  bind_inv H as slot Hslot. apply index_inv in Hslot as (Hq0 & Hq1 & _).
  rewrite <- Hrow in Hq1.
  bind_inv H as node Hfit.
  bind_inv H as nodes1 Hstore.
  apply store_inv in Hstore as (_ & _ & _ & Hshape1 & Hget1).
  assert (Hmono1 : forall k j, 0 <= k -> 0 <= j ->
                               get nodes k j <> None -> get nodes1 k j <> None).
  { intros k j Hk Hj Hne. rewrite Hget1 by assumption.
    destruct ((k =? d) && (j =? wrap64 q)); [discriminate | exact Hne]. }
  destruct (d =? depth - 1) eqn:Eleaf.
  - (* a leaf *)
    apply Z.eqb_eq in Eleaf. inversion H; subst nodes'; clear H.
    unfold build_post. repeat split.
    + exact Hshape1.
    + intros k j Hk Hj. rewrite Hget1 by lia.
      destruct (Z.eqb_spec k d); [lia | reflexivity].
    + intros j Hj Hne. rewrite Hget1 by lia.
      rewrite Z.eqb_refl. destruct (Z.eqb_spec j (wrap64 q)); [contradiction | reflexivity].
    + exists node. split; [exact Hfit|]. rewrite Hget1 by lia. now rewrite !Z.eqb_refl.
    + exact Hmono1.
    + assert (k = 0) by lia. subst k. rewrite Z.pow_0_r in *.
      assert (q' = q) by lia. subst q'. lia.
    + assert (k = 0) by lia. subst k. rewrite Z.pow_0_r in *.
      assert (q' = q) by lia. subst q'. rewrite Z.add_0_r. lia.
    + assert (k = 0) by lia. subst k. rewrite Z.pow_0_r in *.
      assert (q' = q) by lia. subst q'.
      rewrite Z.add_0_r, Hget1 by lia. now rewrite !Z.eqb_refl.
  - (* an inner node: the children, one after the other *)
    apply Z.eqb_neq in Eleaf.
    pose (P := fun (c : nat) (s : Layers) =>
      shape s = shape nodes1
      /\ (forall k j, 0 <= k < d + 1 -> 0 <= j -> get s k j = get nodes1 k j)
      /\ (forall k j, 0 <= k -> 0 <= j -> get nodes1 k j <> None -> get s k j <> None)
      /\ (forall c' k q', 0 <= c' < Z.of_nat c -> 0 <= k -> d + 1 + k <= depth - 1 ->
            (q * w + c') * w ^ k <= q' < (q * w + c' + 1) * w ^ k ->
            0 <= wrap64 q' < row_len nodes1 (d + 1 + k)
            /\ get s (d + 1 + k) (wrap64 q') <> None)).
    apply (run_calls_inv _ _ P) in H.
    + destruct H as (Hshape & Hframe & Hmono & Hsub).
      rewrite length_children in Hsub.
      unfold build_post. split; [congruence|].
      split.
      { intros k j Hk Hj. rewrite Hframe, Hget1 by lia.
        destruct (Z.eqb_spec k d); [lia | reflexivity]. }
      split.
      { intros j Hj Hne. rewrite Hframe, Hget1 by lia.
        rewrite Z.eqb_refl. destruct (Z.eqb_spec j (wrap64 q)); [contradiction | reflexivity]. }
      split.
      { exists node. split; [exact Hfit|].
        rewrite Hframe, Hget1 by lia. now rewrite !Z.eqb_refl. }
      split; [auto|].
      intros k q' Hk Hdk Hq'.
      destruct (Z.eq_dec k 0) as [->|Hk0].
      * rewrite Z.pow_0_r in Hq'. assert (q' = q) by lia. subst q'.
        rewrite Z.add_0_r. split; [lia|].
        apply Hmono; try lia. rewrite Hget1 by lia. now rewrite !Z.eqb_refl.
      * destruct (subtree_split q w k q') as (c & Hc & Hrange); try lia.
        specialize (Hsub c (k - 1) q' ltac:(lia) ltac:(lia) ltac:(lia) Hrange).
        replace (d + 1 + (k - 1)) with (d + k) in Hsub by lia.
        rewrite (shape_row_len _ _ _ Hshape1) in Hsub. exact Hsub.
    + unfold P. repeat split; auto; lia.
    + intros c call s1 s2 Hcall (Hshape & Hframe & Hmono & Hsub) Hbuild.
      apply nth_error_children in Hcall as (Hloc & Hlenc & Hc); [|exact Hlen].
      rewrite Hloc in Hbuild.
      apply IH in Hbuild; [|lia|lia|exact Hlenc].
      destruct Hbuild as (Hshape' & Hframe' & _ & _ & Hmono' & Hsub').
      unfold P. split; [congruence|].
      split; [intros k j Hk Hj; rewrite Hframe', Hframe by lia; reflexivity|].
      split; [auto|].
      intros c' k q' Hc' Hk Hdk Hq'.
      destruct (Z.eq_dec c' (Z.of_nat c)) as [->|Hne].
      * specialize (Hsub' k q' Hk Hdk Hq').
        rewrite (shape_row_len _ _ _ Hshape) in Hsub'. exact Hsub'.
      * destruct (Hsub c' k q' ltac:(lia) Hk Hdk Hq') as (Hin & Hpop).
        split; [exact Hin|]. apply Hmono'; try lia. exact Hpop.
Qed.

End BuildFacts.

(** ** Allocation *)

Lemma nth_error_repeat_None (n j : nat) (slot : option Node) :
  nth_error (repeat (@None Node) n) j = Some slot -> slot = None.
Proof.
  intros H. apply nth_error_In, repeat_spec in H. exact H.
Qed.

Lemma make_layers_spec (w : Z) (todo : nat) :
  forall (s : Z) (L : Layers),
    min_int <= s <= max_int ->
    make_layers w todo s = Returned L ->
    length L = todo
    /\ (forall k, 0 <= k < Z.of_nat todo ->
          row_len L k = wrap64 (s * w ^ k) /\ 0 <= wrap64 (s * w ^ k))
    /\ (forall k j, get L k j = None).
Proof.
  induction todo as [|todo IH]; intros s L Hs H; simpl in H.
  - inversion H; subst. repeat split; try lia.
    intros k j. unfold get. now destruct (Z.to_nat k).
  - bind_inv H as row Hrow. bind_inv H as rest Hrest. inversion H; subst L; clear H.
    unfold make in Hrow. destruct (s <? 0) eqn:E; [discriminate|].
    apply Z.ltb_ge in E. inversion Hrow; subst row; clear Hrow.
    apply IH in Hrest as (Hlen & Hrows & Hnone); [|apply wrap64_range].
    split; [simpl; lia|]. split.
    + intros k Hk. destruct (Z.eq_dec k 0) as [->|Hk0].
      * rewrite Z.pow_0_r, Z.mul_1_r, wrap64_small by lia.
        unfold row_len, len. simpl. rewrite repeat_length. lia.
      * specialize (Hrows (k - 1) ltac:(lia)).
        assert (Heq : wrap64 (wrap64 (s * w) * w ^ (k - 1)) = wrap64 (s * w ^ k)).
        { apply wrap64_eqm.
          rewrite <- Z.mul_mod_idemp_l, wrap64_mod, Z.mul_mod_idemp_l by lia.
          f_equal. replace k with (Z.succ (k - 1)) at 2 by lia.
          rewrite Z.pow_succ_r by lia. ring. }
        rewrite Heq in Hrows. unfold row_len in *.
        replace (Z.to_nat k) with (S (Z.to_nat (k - 1))) by lia. exact Hrows.
    + intros k j. unfold get in *.
      destruct (Z.to_nat k) as [|k'] eqn:Ek; simpl.
      * destruct (nth_error (repeat None (Z.to_nat s)) (Z.to_nat j)) eqn:En; [|reflexivity].
        now apply nth_error_repeat_None in En.
      * specialize (Hnone (Z.of_nat k') j). now rewrite Nat2Z.id in Hnone.
Qed.

Lemma len_iota (n : nat) : len (iota n) = Z.of_nat n.
Proof. unfold len, iota. now rewrite length_map, length_seq. Qed.

(** ** What [NewRMI] returns *)

Lemma NewRMI_inv (values : list Z) (w dep : Z) (rmi : RMI) :
  NewRMI values w dep = Returned (Some rmi, None) ->
  exists nodes0,
    0 <= dep
    /\ make_layers w (Z.to_nat dep) 1 = Returned nodes0
    /\ buildRecursive w dep (Z.to_nat dep) values (iota (length values)) 0 0 0 nodes0
       = Returned (nodes rmi)
    /\ width rmi = w /\ depth rmi = dep /\ maxIndex rmi = len values - 1
    /\ root rmi = get (nodes rmi) 0 0.
Proof.
  unfold NewRMI. destruct (SliceIsSorted values); simpl; [|discriminate].
  intros H.
  bind_inv H as tmp Hdepthth. unfold make in Hdepthth.
  destruct (dep <? 0) eqn:E; [discriminate|]. apply Z.ltb_ge in E. clear Hdepthth tmp.
  bind_inv H as nodes0 Hmake.
  bind_inv H as nodes1 Hbuild.
  bind_inv H as root0 Hroot.
  inversion H; subst rmi; clear H. simpl.
  exists nodes0.
  pose proof (make_layers_spec w (Z.to_nat dep) 1 nodes0 ltac:(unfold min_int, max_int; lia) Hmake)
    as (Hlen & _).
  rewrite Hlen in Hbuild.
  repeat split; auto.
  bind_inv Hroot as row Hrow.
  apply index_inv in Hrow as (_ & _ & Hrow). apply index_inv in Hroot as (_ & _ & Hroot).
  unfold get. simpl in *. now rewrite Hrow, Hroot.
Qed.

(** The layers of a tree [NewRMI] returns: layer [i] has [w^i] slots, a
    number that fits an [int], and each of them holds a node. *)
Lemma NewRMI_layers (values : list Z) (w dep : Z) (rmi : RMI) :
  0 <= w ->
  NewRMI values w dep = Returned (Some rmi, None) ->
  1 <= dep
  /\ len (nodes rmi) = dep
  /\ (forall i, 0 <= i < dep -> row_len (nodes rmi) i = w ^ i /\ w ^ i <= max_int)
  /\ (forall i pos, 0 <= i < dep -> 0 <= pos < w ^ i ->
        exists nd, get (nodes rmi) i pos = Some nd).
Proof.
  intros Hw H.
  apply NewRMI_inv in H as (nodes0 & Hdepthth & Hmake & Hbuild & _).
  assert (H1 : 1 <= dep).
  { destruct (Z.to_nat dep) eqn:E; [discriminate Hbuild | lia]. }
  apply make_layers_spec in Hmake as (Hlen0 & Hrows0 & _);
    [|unfold min_int, max_int; lia].
  change 0 with (wrap64 0) in Hbuild at 3.
  apply buildRecursive_post in Hbuild; try lia; [|now rewrite len_iota].
  destruct Hbuild as (Hshape & _ & _ & _ & _ & Hsub).
  assert (Hfit : forall i, 0 <= i < dep -> w ^ i <= max_int).
  { intros i Hi.
    destruct (Z_le_gt_dec (w ^ i) max_int) as [Hle|Hgt]; [exact Hle|exfalso].
    destruct (Hrows0 i ltac:(lia)) as (Hrl & Hnn). rewrite Z.mul_1_l in Hrl, Hnn.
    pose proof (wrap64_range (w ^ i)) as Hr.
    destruct (Hsub i (wrap64 (w ^ i)) ltac:(lia) ltac:(lia) ltac:(lia)) as (Hin & _).
    rewrite Z.add_0_l, Hrl, (wrap64_small (wrap64 (w ^ i))) in Hin; unfold min_int in *; lia. }
  assert (Hrows : forall i, 0 <= i < dep -> row_len (nodes rmi) i = w ^ i).
  { intros i Hi. rewrite (shape_row_len _ _ _ Hshape).
    destruct (Hrows0 i ltac:(lia)) as (Hrl & _). rewrite Hrl, Z.mul_1_l.
    apply wrap64_small. pose proof (Hfit i Hi).
    assert (0 <= w ^ i) by (apply Z.pow_nonneg; lia). unfold min_int; lia. }
  split; [exact H1|].
  split; [unfold len; rewrite (shape_length _ _ Hshape); lia|].
  split; [intros i Hi; split; auto|].
  intros i pos Hi Hpos.
  destruct (Hsub i pos ltac:(lia) ltac:(lia) ltac:(lia)) as (_ & Hpop).
  rewrite Z.add_0_l, wrap64_small in Hpop.
  - destruct (get (nodes rmi) i pos) as [nd|]; [eauto | contradiction].
  - pose proof (Hfit i Hi). unfold min_int. lia.
Qed.

(** ** big.Float: where an infinity can come from *)

Lemma mag_of_not_inf (z e : Z) : mag_of z e <> MInf.
Proof.
  unfold mag_of. destruct z; try discriminate.
  destruct (strip p e). discriminate.
Qed.

Lemma mag_of_pos (z e : Z) : 0 < z -> exists m' e', mag_of z e = MFin m' e'.
Proof.
  intros H. destruct z as [|p|p]; try lia. simpl.
  destruct (strip p e) as [m' e']. eauto.
Qed.

Lemma round_not_inf (p z e : Z) : round p z e <> MInf.
Proof.
  unfold round. destruct (bitlen z <=? p); apply mag_of_not_inf.
Qed.

Lemma bitlen_shiftr (z sh : Z) :
  0 < z -> 0 <= sh -> sh < bitlen z -> 0 < Z.shiftr z sh.
Proof.
  intros Hz Hsh Hlt. destruct z as [|p|p]; try lia.
  unfold bitlen in Hlt.
  rewrite Z.shiftr_div_pow2 by lia.
  apply Z.div_str_pos. split; [apply Z.pow_pos_nonneg; lia|].
  apply Z.log2_le_pow2; lia.
Qed.

(** Rounding a positive number gives a finite non-zero one: there is no
    underflow. *)
Lemma round_pos (p z e : Z) : 0 < p -> 0 < z -> exists m' e', round p z e = MFin m' e'.
Proof.
  intros Hp Hz. unfold round.
  destruct (bitlen z <=? p) eqn:E; [apply mag_of_pos, Hz|].
  apply Z.leb_gt in E.
  assert (0 < Z.shiftr z (bitlen z - p)) by (apply bitlen_shiftr; lia).
  apply mag_of_pos.
  destruct ((_ <? _) || _); lia.
Qed.

Lemma is_inf_false (x : Float) : is_inf x = false <-> mag x <> MInf.
Proof. unfold is_inf. destruct (mag x); split; congruence. Qed.

Lemma Add_noninf (z x y : Float) :
  is_inf x = false -> is_inf y = false ->
  exists r, Add z x y = Returned r /\ is_inf r = false.
Proof.
  unfold is_inf, Add. intros Hx Hy.
  destruct (mag x) eqn:Ex, (mag y) eqn:Ey; try discriminate;
    eexists; (split; [reflexivity|]); simpl; try reflexivity.
  - pose proof (round_not_inf (rprec z x y) (Z.pos mant) exp).
    destruct (round _ _ _); congruence.
  - pose proof (round_not_inf (rprec z x y) (Z.pos mant) exp).
    destruct (round _ _ _); congruence.
  - unfold add_finite. destruct (_ =? 0); simpl; [reflexivity|].
    match goal with |- context [round ?p ?a ?b] =>
      pose proof (round_not_inf p a b); destruct (round p a b); congruence end.
Qed.

Lemma Sub_noninf (z x y : Float) :
  is_inf x = false -> is_inf y = false ->
  exists r, Sub z x y = Returned r /\ is_inf r = false.
Proof.
  intros Hx Hy. unfold Sub. apply Add_noninf; [exact Hx | exact Hy].
Qed.

Lemma Mul_noninf (z x y : Float) :
  is_inf x = false -> is_inf y = false ->
  exists r, Mul z x y = Returned r /\ is_inf r = false.
Proof.
  unfold is_inf, Mul. intros Hx Hy.
  destruct (mag x) eqn:Ex, (mag y) eqn:Ey; try discriminate;
    eexists; (split; [reflexivity|]); simpl; try reflexivity.
  match goal with |- context [round ?p ?a ?b] =>
    pose proof (round_not_inf p a b); destruct (round p a b); congruence end.
Qed.

Lemma Quo_noninf (z x y : Float) :
  is_inf x = false -> is_inf y = false -> is_zero y = false ->
  exists r, Quo z x y = Returned r /\ is_inf r = false.
Proof.
  unfold is_inf, is_zero, Quo. intros Hx Hy Hz.
  destruct (mag x) eqn:Ex, (mag y) eqn:Ey; try discriminate;
    eexists; (split; [reflexivity|]); simpl; try reflexivity.
  unfold quo_finite.
  match goal with |- context [round ?p ?a ?b] =>
    pose proof (round_not_inf p a b); destruct (round p a b); congruence end.
Qed.

Lemma SetInt_noninf (x : Z) : is_inf (SetInt x) = false.
Proof.
  apply is_inf_false. unfold SetInt. simpl. apply mag_of_not_inf.
Qed.

Lemma NewFloat_int_noninf (n : Z) : is_inf (NewFloat_int n) = false.
Proof.
  apply is_inf_false. unfold NewFloat_int. simpl. apply round_not_inf.
Qed.

Lemma NewFloat_int_nonzero (n : Z) : n <> 0 -> is_zero (NewFloat_int n) = false.
Proof.
  intros H. unfold is_zero, NewFloat_int. simpl.
  destruct (round_pos 53 (Z.abs n) 0) as (m' & e' & ->); [lia | lia | reflexivity].
Qed.

Lemma Neg_noninf (z x : Float) : is_inf x = false -> is_inf (Neg z x) = false.
Proof.
  intros H. apply is_inf_false in H. apply is_inf_false.
  unfold Neg, Set_. simpl. destruct (mag x); simpl; try congruence.
  apply round_not_inf.
Qed.

(** ** The regression never meets an infinity before its divisions *)

Lemma mean_loop_noninf (values : list Z) :
  forall acc, is_inf acc = false ->
              exists r, mean_loop values acc = Returned r /\ is_inf r = false.
Proof.
  induction values as [|v values IH]; intros acc Hacc; simpl; [eauto|].
  destruct (Add_noninf acc acc (SetInt v) Hacc (SetInt_noninf v)) as (r & -> & Hr).
  simpl. apply IH, Hr.
Qed.

Lemma mean_noninf (values : list Z) :
  values <> [] -> exists r, mean values = Returned r /\ is_inf r = false.
Proof.
  intros Hne. unfold mean.
  destruct (mean_loop_noninf values NewFloat_0 eq_refl) as (s & -> & Hs). simpl.
  apply Quo_noninf; [exact Hs | apply NewFloat_int_noninf |].
  apply NewFloat_int_nonzero. unfold len. destruct values; [congruence | simpl; lia].
Qed.

Lemma covariance_loop_noninf (x : list Z) (meanX meanY : Float) :
  is_inf meanX = false -> is_inf meanY = false ->
  forall (y : list Z) (covar : Float),
    length x = length y -> is_inf covar = false ->
    exists r, covariance_loop x y meanX meanY covar = Returned r /\ is_inf r = false.
Proof.
  intros HX HY. induction x as [|xi x IH]; intros y covar Hlen Hc; simpl; [eauto|].
  destruct y as [|yi y]; [discriminate|]. simpl in Hlen.
  destruct (Sub_noninf (SetInt xi) (SetInt xi) meanX (SetInt_noninf xi) HX) as (tx & -> & Htx).
  simpl.
  destruct (Sub_noninf (SetInt yi) (SetInt yi) meanY (SetInt_noninf yi) HY) as (ty & -> & Hty).
  simpl.
  destruct (Mul_noninf new tx ty Htx Hty) as (txy & -> & Htxy). simpl.
  destruct (Add_noninf covar covar txy Hc Htxy) as (c' & -> & Hc'). simpl.
  apply IH; [lia | exact Hc'].
Qed.

Lemma variance_loop_noninf (values : list Z) (meanValue : Float) :
  is_inf meanValue = false ->
  forall acc, is_inf acc = false ->
              exists r, variance_loop values meanValue acc = Returned r /\ is_inf r = false.
Proof.
  intros HM. induction values as [|v values IH]; intros acc Hacc; simpl; [eauto|].
  destruct (Sub_noninf (SetInt v) (SetInt v) meanValue (SetInt_noninf v) HM) as (a & -> & Ha).
  simpl.
  destruct (Mul_noninf a a a Ha Ha) as (a2 & -> & Ha2). simpl.
  destruct (Add_noninf acc acc a2 Hacc Ha2) as (acc' & -> & Hacc'). simpl.
  apply IH, Hacc'.
Qed.

(** The last division, [-b0 / b1] with neither infinite, panics exactly when
    both are zero. *)
Lemma Quo_neg_returns (b0 b1 : Float) :
  0 < prec b0 -> is_inf b0 = false -> is_inf b1 = false ->
  (is_zero b1 && is_zero b0 = false ->
   exists zc, Quo (Neg new b0) (Neg new b0) b1 = Returned zc)
  /\ (is_zero b1 && is_zero b0 = true ->
      Quo (Neg new b0) (Neg new b0) b1 = Panicked ErrNaN).
Proof.
  unfold is_inf, is_zero, Quo, Neg, Set_. simpl.
  intros Hp H0 H1.
  destruct (mag b1) eqn:E1, (mag b0) eqn:E0; try discriminate; simpl;
    (split; intros H; try discriminate; eauto);
    destruct (round_pos (prec b0) (Z.pos mant0) exp0 Hp eq_refl) as (m' & e' & ->) ||
    destruct (round_pos (prec b0) (Z.pos mant) exp Hp eq_refl) as (m' & e' & ->);
    eauto.
Qed.

(** ** big.Float: the precision of a result *)

Lemma prec_Add (z x y r : Float) : Add z x y = Returned r -> prec r = rprec z x y.
Proof.
  unfold Add. destruct (mag x), (mag y); try destruct (xorb _ _);
    intros H; inversion H; subst; try reflexivity.
  unfold add_finite. now destruct (_ =? 0).
Qed.

Lemma prec_Sub (z x y r : Float) : Sub z x y = Returned r -> prec r = rprec z x y.
Proof. unfold Sub. intros H. apply prec_Add in H. exact H. Qed.

Lemma prec_Mul (z x y r : Float) : Mul z x y = Returned r -> prec r = rprec z x y.
Proof.
  unfold Mul. destruct (mag x), (mag y); intros H; inversion H; subst; reflexivity.
Qed.

Lemma prec_Quo (z x y r : Float) : Quo z x y = Returned r -> prec r = rprec z x y.
Proof.
  unfold Quo. destruct (mag x), (mag y); intros H; inversion H; subst; reflexivity.
Qed.

Lemma rprec_self (z y : Float) : prec z <> 0 -> rprec z z y = prec z.
Proof.
  intros H. unfold rprec. destruct (prec z =? 0) eqn:E; [apply Z.eqb_eq in E; lia | reflexivity].
Qed.

Lemma prec_mean_loop (values : list Z) :
  forall acc r, prec acc = 53 -> mean_loop values acc = Returned r -> prec r = 53.
Proof.
  induction values as [|v values IH]; intros acc r Hacc H; simpl in H.
  - inversion H; subst. exact Hacc.
  - bind_inv H as acc' Hacc'. apply prec_Add in Hacc'.
    rewrite rprec_self in Hacc' by lia. apply (IH acc' r); [lia | exact H].
Qed.

Lemma prec_mean (values : list Z) (r : Float) : mean values = Returned r -> prec r = 53.
Proof.
  unfold mean. intros H. bind_inv H as s Hs.
  apply prec_mean_loop in Hs; [|reflexivity].
  apply prec_Quo in H. rewrite rprec_self in H by lia. lia.
Qed.

Lemma prec_covariance_loop (x : list Z) (meanX meanY : Float) :
  forall y covar r, prec covar = 53 ->
                    covariance_loop x y meanX meanY covar = Returned r -> prec r = 53.
Proof.
  induction x as [|xi x IH]; intros y covar r Hc H; simpl in H.
  - inversion H; subst. exact Hc.
  - bind_inv H as tx Htx. destruct y as [|yi y]; [discriminate|].
    bind_inv H as ty Hty. bind_inv H as txy Htxy. bind_inv H as c' Hc'.
    apply prec_Add in Hc'. rewrite rprec_self in Hc' by lia.
    apply (IH y c' r); [lia | exact H].
Qed.

(** C7, as the code has it.  For keys and ranks of one length, two or more:
    the means, the covariance and the variance are computed without a
    panic; when the variance is not zero, so are the slope
    [covariance / variance] and the intercept [meanY - meanX * slope]; and
    when the slope and the intercept are not both zero, the fit returns them
    with the x intercept [-intercept / slope].  (When both are zero that last
    division is 0/0, and the fit panics.) *)
Theorem coefficients_formula (keys ranks : list Z) :
  len keys = len ranks ->
  2 <= len keys ->
  exists meanX meanY cov var,
    mean keys = Returned meanX
    /\ mean ranks = Returned meanY
    /\ covariance keys ranks meanX meanY = Returned cov
    /\ variance keys meanX = Returned var
    /\ (is_zero var = false ->
        exists slope prod icpt,
          Quo cov cov var = Returned slope
          /\ Mul meanX meanX slope = Returned prod
          /\ Sub new meanY prod = Returned icpt
          /\ (is_zero slope && is_zero icpt = false ->
              exists zc,
                Quo (Neg new icpt) (Neg new icpt) slope = Returned zc
                /\ coefficients keys ranks = Returned (icpt, slope, zc))
          /\ (is_zero slope && is_zero icpt = true ->
              coefficients keys ranks = Panicked ErrNaN)).
Proof.
  intros Hlen H2.
  assert (Hk : keys <> []) by (intros ->; unfold len in H2; simpl in H2; lia).
  assert (Hr : ranks <> []) by (intros ->; unfold len in Hlen, H2; simpl in Hlen; lia).
  destruct (mean_noninf keys Hk) as (meanX & HmX & HiX).
  destruct (mean_noninf ranks Hr) as (meanY & HmY & HiY).
  destruct (covariance_loop_noninf keys meanX meanY HiX HiY ranks NewFloat_0
              ltac:(unfold len in Hlen; lia) eq_refl) as (cov & Hcov & Hicov).
  destruct (variance_loop_noninf keys meanX HiX NewFloat_0 eq_refl) as (var & Hvar & Hivar).
  exists meanX, meanY, cov, var. repeat (split; [assumption|]).
  intros Hz.
  destruct (Quo_noninf cov cov var Hicov Hivar Hz) as (slope & Hslope & Hislope).
  destruct (Mul_noninf meanX meanX slope HiX Hislope) as (prod & Hprod & Hiprod).
  destruct (Sub_noninf new meanY prod HiY Hiprod) as (icpt & Hicpt & Hiicpt).
  exists slope, prod, icpt. repeat (split; [assumption|]).
  assert (Hp : 0 < prec icpt).
  { apply prec_Sub in Hicpt. apply prec_Mul in Hprod. apply prec_mean in HmX, HmY.
    rewrite rprec_self in Hprod by lia. unfold rprec in Hicpt. simpl in Hicpt. lia. }
  destruct (Quo_neg_returns icpt slope Hp Hiicpt Hislope) as (Hret & Hpan).
  unfold coefficients, covariance, variance.
  rewrite HmX, HmY. simpl. rewrite Hcov. simpl. rewrite Hvar. simpl.
  rewrite Hslope. simpl. rewrite Hprod. simpl. rewrite Hicpt. simpl.
  split.
  - intros Hnz. destruct (Hret Hnz) as (zc & Hzc). exists zc. now rewrite Hzc.
  - intros Hzz. now rewrite (Hpan Hzz).
Qed.

Lemma coefficients_formula_witness :
  exists icpt slope zc,
    coefficients [0; 10; 20; 30] [0; 1; 2; 3] = Returned (icpt, slope, zc).
Proof.
  destruct (coefficients_formula [0; 10; 20; 30] [0; 1; 2; 3] eq_refl
              ltac:(unfold len; simpl; lia))
    as (meanX & meanY & cov & var & HmX & HmY & Hcov & Hvar & H).
  vm_compute in HmX. inversion HmX; subst meanX; clear HmX.
  vm_compute in HmY. inversion HmY; subst meanY; clear HmY.
  vm_compute in Hcov. inversion Hcov; subst cov; clear Hcov.
  vm_compute in Hvar. inversion Hvar; subst var; clear Hvar.
  destruct (H eq_refl) as (slope & prod & icpt & Hslope & Hprod & Hicpt & Hret & _).
  vm_compute in Hslope. inversion Hslope; subst slope; clear Hslope.
  vm_compute in Hprod. inversion Hprod; subst prod; clear Hprod.
  vm_compute in Hicpt. inversion Hicpt; subst icpt; clear Hicpt.
  destruct (Hret eq_refl) as (zc & _ & Hc).
  eexists _, _, zc. exact Hc.
Defined.

(** C7, as stated, fails: the keys [0, 1] have a variance that is not zero,
    yet with the ranks [0, 0] the slope and the intercept are both zero and
    the fit panics in its last division instead of returning. *)
Lemma coefficients_formula_counterexample :
  len [0; 1] = len [0; 0]
  /\ 2 <= len [0; 1]
  /\ (exists meanX var,
         mean [0; 1] = Returned meanX
         /\ variance [0; 1] meanX = Returned var
         /\ is_zero var = false)
  /\ coefficients [0; 1] [0; 0] = Panicked ErrNaN.
Proof.
  split; [reflexivity|]. split; [unfold len; simpl; lia|]. split.
  - eexists _, _. split; [vm_compute; reflexivity|].
    split; [vm_compute; reflexivity | reflexivity].
  - vm_compute. reflexivity.
Qed.

(** ** A variance of zero *)

Lemma add_finite_pos (p : Z) (mx : positive) (ex : Z) (my : positive) (ey : Z) :
  0 < p ->
  exists m' e', add_finite p false mx ex false my ey = mkFloat p false (MFin m' e').
Proof.
  intros Hp. unfold add_finite, signed.
  set (s := Z.pos mx * 2 ^ (ex - Z.min ex ey) + Z.pos my * 2 ^ (ey - Z.min ex ey)).
  assert (Hs : 0 < s).
  { assert (0 < 2 ^ (ex - Z.min ex ey)) by (apply Z.pow_pos_nonneg; lia).
    assert (0 < 2 ^ (ey - Z.min ex ey)) by (apply Z.pow_pos_nonneg; lia).
    subst s. nia. }
  destruct (s =? 0) eqn:E; [apply Z.eqb_eq in E; lia|].
  destruct (s <? 0) eqn:E2; [apply Z.ltb_lt in E2; lia|].
  destruct (round_pos p (Z.abs s) (Z.min ex ey) Hp ltac:(lia)) as (m' & e' & ->).
  eauto.
Qed.

Lemma Add_nonneg (z x y r : Float) :
  0 < rprec z x y ->
  neg x = false -> neg y = false -> is_inf x = false -> is_inf y = false ->
  Add z x y = Returned r ->
  neg r = false /\ (is_zero r = true -> is_zero x = true /\ is_zero y = true).
Proof.
  unfold Add, is_inf, is_zero. intros Hp Hx Hy Hix Hiy.
  destruct (mag x) eqn:Ex, (mag y) eqn:Ey; try discriminate;
    intros H; inversion H; subst r; clear H; rewrite ?Hx, ?Hy.
  - simpl. auto.
  - simpl. destruct (round_pos (rprec z x y) (Z.pos mant) exp Hp eq_refl) as (m' & e' & ->).
    split; [reflexivity | discriminate].
  - simpl. destruct (round_pos (rprec z x y) (Z.pos mant) exp Hp eq_refl) as (m' & e' & ->).
    split; [reflexivity | discriminate].
  - destruct (add_finite_pos (rprec z x y) mant exp mant0 exp0 Hp) as (m' & e' & ->).
    simpl. split; [reflexivity | discriminate].
Qed.

Lemma Mul_self_nonneg (a r : Float) :
  0 < prec a -> Mul a a a = Returned r ->
  neg r = false /\ (is_zero r = true -> is_zero a = true).
Proof.
  unfold Mul, is_zero. intros Hp.
  assert (Hrp : rprec a a a = prec a) by (apply rprec_self; lia).
  rewrite Hrp, xorb_nilpotent.
  destruct (mag a) eqn:Ea; intros H; injection H as <-.
  - simpl. auto.
  - match goal with |- context [round ?p ?z ?e] =>
      destruct (round_pos p z e Hp eq_refl) as (m' & e' & ->) end.
    simpl. split; [reflexivity | discriminate].
  - simpl. split; [reflexivity | discriminate].
Qed.

Lemma prec_SetInt_pos (v : Z) : 0 < prec (SetInt v).
Proof. unfold SetInt. simpl. lia. Qed.

(** The deviation [x - mean] of a key, as [covariance] and [variance]
    compute it. *)
Lemma variance_loop_zero (meanValue : Float) (values : list Z) :
  is_inf meanValue = false ->
  forall acc r,
    prec acc = 53 -> neg acc = false -> is_inf acc = false ->
    variance_loop values meanValue acc = Returned r ->
    is_zero r = true ->
    is_zero acc = true
    /\ Forall (fun v => exists t, Sub (SetInt v) (SetInt v) meanValue = Returned t
                                  /\ is_zero t = true) values.
Proof.
  intros HM. induction values as [|v values IH]; intros acc r Hp Hn Hi H Hz; simpl in H.
  - inversion H; subst. auto.
  - destruct (Sub_noninf (SetInt v) (SetInt v) meanValue (SetInt_noninf v) HM)
      as (a & Ha & Hia).
    rewrite Ha in H. simpl in H.
    assert (Hpa : 0 < prec a).
    { apply prec_Sub in Ha. pose proof (prec_SetInt_pos v).
      rewrite rprec_self in Ha; lia. }
    destruct (Mul_noninf a a a Hia Hia) as (a2 & Ha2 & Hia2).
    rewrite Ha2 in H. simpl in H.
    destruct (Mul_self_nonneg a a2 Hpa Ha2) as (Hna2 & Hza2).
    destruct (Add_noninf acc acc a2 Hi Hia2) as (acc' & Hacc' & Hiacc').
    rewrite Hacc' in H. simpl in H.
    assert (Hrp : rprec acc acc a2 = 53) by (rewrite rprec_self; lia).
    destruct (Add_nonneg acc acc a2 acc' ltac:(lia) Hn Hna2 Hi Hia2 Hacc') as (Hnacc' & Hzacc').
    apply prec_Add in Hacc' as Hpacc'. rewrite Hrp in Hpacc'.
    destruct (IH acc' r Hpacc' Hnacc' Hiacc' H Hz) as (Hz' & Hall).
    destruct (Hzacc' Hz') as (Hzacc & Hz2).
    split; [exact Hzacc|]. constructor; [|exact Hall].
    exists a. auto.
Qed.

Lemma covariance_loop_zero (meanX meanY : Float) (x : list Z) :
  is_inf meanY = false ->
  Forall (fun v => exists t, Sub (SetInt v) (SetInt v) meanX = Returned t
                             /\ is_zero t = true) x ->
  forall y covar,
    length x = length y -> is_zero covar = true ->
    exists r, covariance_loop x y meanX meanY covar = Returned r /\ is_zero r = true.
Proof.
  intros HY Hall. induction Hall as [|xi x (t & Ht & Hzt) Hall IH];
    intros y covar Hlen Hc; simpl; [eauto|].
  destruct y as [|yi y]; [discriminate|]. simpl in Hlen.
  rewrite Ht. simpl.
  destruct (Sub_noninf (SetInt yi) (SetInt yi) meanY (SetInt_noninf yi) HY) as (ty & -> & Hty).
  simpl.
  assert (exists txy, Mul new t ty = Returned txy /\ is_zero txy = true) as (txy & -> & Hzxy).
  { unfold Mul, is_zero, is_inf in *.
    destruct (mag t); try discriminate. destruct (mag ty); try discriminate; eauto. }
  simpl.
  assert (exists c', Add covar covar txy = Returned c' /\ is_zero c' = true) as (c' & -> & Hc').
  { unfold Add, is_zero in *.
    destruct (mag covar); try discriminate. destruct (mag txy); try discriminate. eauto. }
  simpl. apply IH; [lia | exact Hc'].
Qed.

(** With a variance of zero the covariance is zero as well, and the slope
    is 0/0: the fit panics. *)
Lemma coefficients_zero_variance (keys ranks : list Z) (meanX var : Float) :
  len keys = len ranks -> 2 <= len keys ->
  mean keys = Returned meanX ->
  variance keys meanX = Returned var ->
  is_zero var = true ->
  coefficients keys ranks = Panicked ErrNaN.
Proof.
  intros Hlen H2 HmX Hvar Hz.
  assert (Hk : keys <> []) by (intros ->; unfold len in H2; simpl in H2; lia).
  assert (Hr : ranks <> []) by (intros ->; unfold len in Hlen, H2; simpl in Hlen; lia).
  destruct (mean_noninf keys Hk) as (meanX' & HmX' & HiX).
  rewrite HmX in HmX'. inversion HmX'; subst meanX'; clear HmX'.
  destruct (mean_noninf ranks Hr) as (meanY & HmY & HiY).
  destruct (variance_loop_zero meanX keys HiX NewFloat_0 var eq_refl eq_refl eq_refl Hvar Hz)
    as (_ & Hall).
  destruct (covariance_loop_zero meanX meanY keys HiY Hall ranks NewFloat_0
              ltac:(unfold len in Hlen; lia) eq_refl) as (cov & Hcov & Hzc).
  unfold coefficients, covariance. rewrite HmX, HmY. simpl. rewrite Hcov. simpl.
  rewrite Hvar. simpl.
  unfold Quo, is_zero in *.
  destruct (mag cov); try discriminate. destruct (mag var); try discriminate. reflexivity.
Qed.

(** ** The offset a child is given *)

Lemma nth_sub_first (l : list Z) (lo hi d : Z) :
  0 <= lo -> lo < hi -> hi <= len l ->
  nth 0 (sub l lo hi) d = nth (Z.to_nat lo) l 0.
Proof.
  intros H0 H1 H2. rewrite <- (nth_sub_0 l lo hi) by assumption.
  apply nth_indep.
  assert (len (sub l lo hi) = hi - lo) by (apply len_sub; lia).
  unfold len in *. lia.
Qed.

Lemma calls_of_offsets (values indices : list Z) (base rs off0 : Z) (todo : nat) :
  (0 < len indices -> off0 = nth 0 indices 0) ->
  forall i leftIndex rightIndex offset,
    head_inv (len indices) rs leftIndex rightIndex ->
    offset_inv (len indices) rs off0 todo leftIndex rightIndex offset ->
    Forall (fun c => cc_offset c = nth 0 (cc_indices c) off0)
           (calls_of values indices base i offset
                     (child_bounds (len indices) rs todo leftIndex rightIndex)).
Proof.
  intros Hoff.
  induction todo as [|todo IH]; intros i left right off Hhead Hinv; simpl; [constructor|].
  destruct (clamp_bounds_good _ _ _ _ Hhead) as (Hg & Hfst & Hnext).
  pose proof (len_nonneg indices) as Hn.
  assert (Hcl : clamp_bounds (len indices) left right
                = if right <=? 0 then (0, 0)
                  else if right >=? len indices then (left, len indices - 1)
                       else (left, right)) by reflexivity.
  destruct (clamp_bounds (len indices) left right) as [l r].
  unfold good_bounds in Hg. simpl in Hg, Hfst, Hnext. subst l. simpl.
  assert (Hr : r = if right <=? 0 then 0
                   else if right >=? len indices then len indices - 1 else right).
  { destruct (right <=? 0); [congruence|]. destruct (right >=? len indices); congruence. }
  clear Hcl.
  assert (Hright : (right <= 0 /\ r = 0) \/ (0 < right /\ len indices <= right /\ r = len indices - 1)
                   \/ (0 < right < len indices /\ r = right)).
  { destruct (Z.leb_spec right 0); [left; lia|].
    rewrite Z.geb_leb in Hr. destruct (Z.leb_spec (len indices) right); lia. }
  clear Hr.
  unfold head_inv in Hhead.
  assert (Hcur : (if left =? r then off else nth (Z.to_nat left) indices 0)
                 = nth 0 (sub indices left r) off0).
  { destruct (Z.eqb_spec left r) as [->|Hne].
    - rewrite sub_empty. simpl.
      destruct Hinv as [Ht | [HB | (HC & _)]]; [discriminate | nia | exact HC].
    - rewrite nth_sub_first by lia. reflexivity. }
  constructor; [exact Hcur|].
  apply IH; [exact Hnext|].
  unfold offset_inv, next_right.
  destruct todo as [|todo']; [left; reflexivity | right].
  destruct Hinv as [Ht | [HB | (HC & HC')]]; [discriminate | left | right].
  - rewrite Nat2Z.inj_succ in *. nia.
  - assert (Hoff' : (if left =? r then off else nth (Z.to_nat left) indices 0) = off0).
    { destruct (Z.eqb_spec left r); [exact HC|].
      destruct HC' as [(Hl0 & _) | (_ & Hlr)]; [|lia].
      subst left. symmetry. apply Hoff. lia. }
    split; [exact Hoff'|].
    destruct HC' as [(Hl0 & [Hrs | Ht]) | (Hrs & Hlr)]; [|discriminate|]; lia.
Qed.

Lemma offset_inv_start (n w off0 : Z) :
  0 <= n ->
  offset_inv n (float_quo n w) off0 (Z.to_nat w) 0 (Z.max 0 (float_quo n w)) off0.
Proof.
  intros Hn. unfold offset_inv.
  destruct (Z_le_gt_dec w 0) as [Hw|Hw]; [left; lia | right].
  rewrite float_quo_div by lia.
  destruct (Z_le_gt_dec (n / w) 1) as [Hrs|Hrs]; [right; auto|].
  destruct (Z.eq_dec w 1) as [->|Hw1]; [right; split; auto; left; split; auto; right; reflexivity|].
  left.
  pose proof (Z.mul_div_le n w ltac:(lia)).
  rewrite Z2Nat.id by lia. nia.
Qed.

(** A child is given the first of its ranks as its offset, and when it has
    none, the offset of its parent; the offset a node is given is the first
    of its ranks when it has one. *)
Lemma children_offsets (values indices : list Z) (w loc offset : Z) :
  len values = len indices ->
  (0 < len indices -> offset = nth 0 indices 0) ->
  Forall (fun c => cc_offset c = nth 0 (cc_indices c) offset)
         (children values indices w loc offset).
Proof.
  intros Hlen Hoff. unfold children, node_bounds.
  apply calls_of_offsets; [exact Hoff | |].
  - apply head_inv_start, len_nonneg.
  - apply offset_inv_start, len_nonneg.
Qed.

(** ** Nodes of fewer than two points *)

Lemma fit_small (values indices : list Z) (offset : Z) :
  len indices < 2 -> fit values indices offset = Returned (small_node offset).
Proof.
  intros H. unfold fit.
  destruct (2 <=? len indices) eqn:E; [apply Z.leb_le in E; lia | reflexivity].
Qed.

Lemma calls_of_empty (values indices : list Z) (base : Z) (bounds : list (Z * Z)) :
  Forall (fun lr => lr = (0, 0)) bounds ->
  forall i offset,
    Forall (fun c => cc_values c = [] /\ cc_indices c = [] /\ cc_offset c = offset)
           (calls_of values indices base i offset bounds).
Proof.
  induction 1 as [|lr bounds -> _ IH]; intros i off; simpl; constructor.
  - simpl. rewrite !sub_empty. auto.
  - apply IH.
Qed.

(** The children of a node of fewer than two points have no point at all,
    and are given the offset of the node. *)
Lemma children_small (values indices : list Z) (w loc offset : Z) :
  len indices < 2 ->
  Forall (fun c => cc_values c = [] /\ cc_indices c = [] /\ cc_offset c = offset)
         (children values indices w loc offset).
Proof.
  intros H. unfold children. apply calls_of_empty.
  pose proof (node_bounds_good _ w (len_nonneg indices)) as Hg.
  revert Hg. apply Forall_impl. intros [l r]. unfold good_bounds. simpl.
  intros Hg. f_equal; lia.
Qed.

Lemma run_calls_panicked {S_ : Type} (call : list Z -> list Z -> Z -> Z -> S_ -> outcome S_)
      (calls : list ChildCall) (p : panic) :
  forall s, run_calls call calls s = Panicked p ->
            exists c s1, In c calls
                         /\ call (cc_values c) (cc_indices c) (cc_offset c) (cc_location c) s1
                            = Panicked p.
Proof.
  induction calls as [|c calls IH]; intros s H; simpl in H; [discriminate|].
  apply bind_panicked in H as [H | (s1 & _ & H)].
  - exists c, s. split; [now left | exact H].
  - destruct (IH s1 H) as (c' & s' & Hin & Hc). exists c', s'. split; [now right | exact Hc].
Qed.

Lemma index_not_NaN {A : Type} (l : list A) (i : Z) : index l i <> Panicked ErrNaN.
Proof.
  unfold index. destruct (_ || _); [discriminate|].
  destruct (nth_error l (Z.to_nat i)); discriminate.
Qed.

Lemma store_not_NaN (nodes : Layers) (k j : Z) (nd : Node) :
  store nodes k j nd <> Panicked ErrNaN.
Proof.
  unfold store. intros H.
  apply bind_panicked in H as [H | (row & _ & H)]; [now apply index_not_NaN in H|].
  apply bind_panicked in H as [H | (slot & _ & H)]; [now apply index_not_NaN in H|].
  discriminate.
Qed.

Lemma buildRecursive_small_not_NaN (w dep : Z) (fuel : nat) :
  forall (vals idx : list Z) (off d loc : Z) (nodes : Layers),
    len vals = len idx -> len idx < 2 ->
    buildRecursive w dep fuel vals idx off d loc nodes <> Panicked ErrNaN.
Proof.
  induction fuel as [|fuel IH]; intros vals idx off d loc nodes Hlen Hsmall H;
    [discriminate|].
  rewrite buildRecursive_unfold in H by exact Hlen.
  apply bind_panicked in H as [H | (row & _ & H)]; [now apply index_not_NaN in H|].
  apply bind_panicked in H as [H | (slot & _ & H)]; [now apply index_not_NaN in H|].
  rewrite fit_small in H by exact Hsmall. simpl in H.
  apply bind_panicked in H as [H | (nodes1 & _ & H)]; [now apply store_not_NaN in H|].
  destruct (d =? dep - 1); [discriminate|].
  apply run_calls_panicked in H as (c & s1 & Hin & H).
  pose proof (children_small vals idx w loc off Hsmall) as Hall.
  rewrite Forall_forall in Hall. destruct (Hall c Hin) as (Hv & Hi & _).
  apply IH in H; [exact H | now rewrite Hv, Hi | rewrite Hi; unfold len; simpl; lia].
Qed.

Lemma buildRecursive_located (w dep : Z) (fuel : nat) (vals idx : list Z)
      (off d loc : Z) (nodes nodes' : Layers) :
  buildRecursive w dep fuel vals idx off d loc nodes = Returned nodes' ->
  0 <= d /\ 0 <= loc < row_len nodes d.
Proof.
  destruct fuel as [|fuel]; [discriminate|]. cbn [buildRecursive]. intros H.
  bind_inv H as row Hrow. apply index_row in Hrow as (Hd & Hrow).
  bind_inv H as slot Hslot. apply index_inv in Hslot as (Hq0 & Hq1 & _).
  rewrite Hrow. lia.
Qed.

(** C5.  A node that is built from fewer than two points gets the slope 0,
    the offset it was given as its intercept and the x intercept 0; no
    division happens for it or below it, so its construction never panics
    with [ErrNaN]; and when the construction returns, that node is what slot
    [nodes[currentDepth][locationInLayer]] holds.  The offset is the one
    carried forward: every child is given the first of its ranks, and a
    child without a rank the offset of its parent, which is the first rank of
    the parent when it has one. *)
Theorem small_node_model (wid dep : Z) (fuel : nat) (vals idx : list Z)
        (off d loc : Z) (nodes : Layers) :
  0 <= wid -> loc <= max_int ->
  len vals = len idx ->
  len idx < 2 ->
  fit vals idx off = Returned (small_node off)
  /\ m (small_node off) = NewFloat_0
  /\ b (small_node off) = SetInt off
  /\ w (small_node off) = NewFloat_0
  /\ buildRecursive wid dep fuel vals idx off d loc nodes <> Panicked ErrNaN
  /\ (forall nodes',
        buildRecursive wid dep fuel vals idx off d loc nodes = Returned nodes' ->
        get nodes' d loc = Some (small_node off))
  /\ (forall pvals pidx poff ploc,
        len pvals = len pidx ->
        (0 < len pidx -> poff = nth 0 pidx 0) ->
        Forall (fun c => cc_offset c = nth 0 (cc_indices c) poff)
               (children pvals pidx wid ploc poff)).
Proof.
  intros Hw Hloc Hlen Hsmall.
  split; [apply fit_small, Hsmall|].
  do 3 (split; [reflexivity|]).
  split; [apply buildRecursive_small_not_NaN; assumption|].
  split; [|intros; apply children_offsets; assumption].
  intros nodes' H.
  pose proof (buildRecursive_located _ _ _ _ _ _ _ _ _ _ H) as (Hd & Hl0 & _).
  rewrite <- (wrap64_small loc) in H by (unfold min_int; lia).
  apply buildRecursive_post in H; try assumption.
  destruct H as (_ & _ & _ & (nd & Hfit & Hget) & _).
  rewrite fit_small in Hfit by exact Hsmall. inversion Hfit; subst nd.
  rewrite wrap64_small in Hget by (unfold min_int; lia). exact Hget.
Qed.

Lemma small_node_model_witness :
  fit [5] [0] 0 = Returned (small_node 0)
  /\ m (small_node 0) = NewFloat_0
  /\ b (small_node 0) = SetInt 0
  /\ w (small_node 0) = NewFloat_0
  /\ buildRecursive 2 2 2 [5] [0] 0 0 0 [[None]; [None; None]] <> Panicked ErrNaN
  /\ (forall nodes',
        buildRecursive 2 2 2 [5] [0] 0 0 0 [[None]; [None; None]] = Returned nodes' ->
        get nodes' 0 0 = Some (small_node 0))
  /\ (forall pvals pidx poff ploc,
        len pvals = len pidx ->
        (0 < len pidx -> poff = nth 0 pidx 0) ->
        Forall (fun c => cc_offset c = nth 0 (cc_indices c) poff)
               (children pvals pidx 2 ploc poff)).
Proof.
  apply (small_node_model 2 2 2 [5] [0] 0 0 0 [[None]; [None; None]]).
  - lia.
  - unfold max_int. lia.
  - reflexivity.
  - unfold len. simpl. lia.
Defined.

(** ** Identical keys *)

Lemma index_slot (nodes : Layers) (d loc : Z) :
  0 <= d -> 0 <= loc < row_len nodes d ->
  exists row slot, index nodes d = Returned row /\ index row loc = Returned slot.
Proof.
  intros Hd Hloc. unfold row_len in Hloc.
  destruct (nth_error nodes (Z.to_nat d)) as [row|] eqn:E; [|lia].
  assert (Z.to_nat d < length nodes)%nat by (apply nth_error_Some; congruence).
  exists row, (nth (Z.to_nat loc) row None). split.
  - rewrite (index_returns nodes d row) by (unfold len; lia).
    now rewrite (nth_error_nth _ _ row E).
  - apply index_returns; lia.
Qed.

(** C4: what the code does.  A node of two or more points whose keys have
    the variance zero is fitted with the slope 0/0: the construction of the
    node panics with [ErrNaN], nothing detects the case. *)
Theorem zero_variance_panics (wid dep : Z) (fuel : nat) (values indices : list Z)
        (offset d loc : Z) (nodes : Layers) (meanX var : Float) :
  len values = len indices ->
  2 <= len values ->
  mean values = Returned meanX ->
  variance values meanX = Returned var ->
  is_zero var = true ->
  0 <= d -> 0 <= loc < row_len nodes d ->
  fit values indices offset = Panicked ErrNaN
  /\ buildRecursive wid dep (S fuel) values indices offset d loc nodes = Panicked ErrNaN.
Proof.
  intros Hlen H2 HmX Hvar Hz Hd Hloc.
  assert (Hfit : fit values indices offset = Panicked ErrNaN).
  { unfold fit. destruct (2 <=? len indices) eqn:E; [|apply Z.leb_gt in E; lia].
    now rewrite (coefficients_zero_variance values indices meanX var). }
  split; [exact Hfit|].
  destruct (index_slot nodes d loc Hd Hloc) as (row & slot & Hrow & Hslot).
  cbn [buildRecursive]. rewrite Hrow. simpl. rewrite Hslot. simpl.
  now rewrite Hfit.
Qed.

Lemma zero_variance_panics_witness :
  (fit [7; 7] [0; 1] 0 = Panicked ErrNaN
   /\ buildRecursive 2 1 1 [7; 7] [0; 1] 0 0 0 [[None]] = Panicked ErrNaN)
  /\ NewRMI [7; 7] 2 1 = Panicked ErrNaN.
Proof.
  split.
  - apply (zero_variance_panics 2 1 0 [7; 7] [0; 1] 0 0 0 [[None]]
             (mkFloat 53 false (MFin 7 0)) (mkFloat 53 false MZero)).
    + reflexivity.
    + unfold len. simpl. lia.
    + vm_compute. reflexivity.
    + vm_compute. reflexivity.
    + reflexivity.
    + lia.
    + unfold row_len, len. simpl. lia.
  - vm_compute. reflexivity.
Defined.

(** ** Invariants of the nodes of a tree *)

Section BuildInvariant.

Variables wid dep : Z.

(** A property of the arguments of a call that its children inherit, and
    a property of the nodes fitted under it. *)
Variable A : list Z -> list Z -> Z -> Prop.
Variable Q : Node -> Prop.

Hypothesis A_len : forall v ix off, A v ix off -> len v = len ix.
Hypothesis A_children :
  forall v ix off loc c,
    A v ix off -> In c (children v ix wid loc off) ->
    A (cc_values c) (cc_indices c) (cc_offset c).
Hypothesis A_fit :
  forall v ix off nd, A v ix off -> fit v ix off = Returned nd -> Q nd.

Lemma buildRecursive_all_nodes (fuel : nat) :
  forall (vals idx : list Z) (off d loc : Z) (nodes nodes' : Layers),
    A vals idx off ->
    all_nodes Q nodes ->
    buildRecursive wid dep fuel vals idx off d loc nodes = Returned nodes' ->
    all_nodes Q nodes'.
Proof.
  induction fuel as [|fuel IH]; intros vals idx off d loc nodes nodes' HA Hall H;
    [discriminate|].
  rewrite buildRecursive_unfold in H by (apply A_len with off; exact HA).
  bind_inv H as row Hrow. bind_inv H as slot Hslot.
  bind_inv H as node Hfit. bind_inv H as nodes1 Hstore.
  apply store_inv in Hstore as (_ & _ & _ & _ & Hget1).
  assert (Hall1 : all_nodes Q nodes1).
  { intros k j nd Hk Hj Hg. rewrite Hget1 in Hg by assumption.
    destruct ((k =? d) && (j =? loc)).
    - inversion Hg; subst nd. apply (A_fit vals idx off); assumption.
    - apply (Hall k j); assumption. }
  destruct (d =? dep - 1); [inversion H; subst; exact Hall1|].
  apply (run_calls_inv _ _ (fun _ s => all_nodes Q s)) in H; [exact H | exact Hall1|].
  intros k c s1 s2 Hc Hs1 Hb.
  apply (IH _ _ _ _ _ _ _ (A_children vals idx off loc c HA (nth_error_In _ _ Hc)) Hs1 Hb).
Qed.

End BuildInvariant.

(** ** Construction over no key returns *)

Lemma make_layers_returns (wid : Z) (todo : nat) :
  forall s,
    (forall k, 0 <= k < Z.of_nat todo -> 0 <= wrap64 (s * wid ^ k)) ->
    min_int <= s <= max_int ->
    exists L, make_layers wid todo s = Returned L.
Proof.
  induction todo as [|todo IH]; intros s Hpos Hs; simpl; [eauto|].
  assert (H0 : 0 <= s).
  { specialize (Hpos 0 ltac:(lia)).
    rewrite Z.pow_0_r, Z.mul_1_r, wrap64_small in Hpos; lia. }
  unfold make. destruct (s <? 0) eqn:E; [apply Z.ltb_lt in E; lia|]. simpl.
  destruct (IH (wrap64 (s * wid))) as (L & ->); [|apply wrap64_range|simpl; eauto].
  intros k Hk. specialize (Hpos (k + 1) ltac:(lia)).
  replace (wrap64 (wrap64 (s * wid) * wid ^ k)) with (wrap64 (s * wid ^ (k + 1)));
    [exact Hpos|].
  apply wrap64_eqm. symmetry.
  rewrite <- Z.mul_mod_idemp_l, wrap64_mod, Z.mul_mod_idemp_l by lia.
  f_equal. rewrite Z.pow_add_r by lia. ring.
Qed.

Lemma pow_le_last (wid k n : Z) : 1 <= wid -> 0 <= k <= n -> 1 <= wid ^ k <= wid ^ n.
Proof.
  intros Hw Hk. split.
  - pose proof (Z.pow_le_mono_r wid 0 k ltac:(lia) ltac:(lia)) as H1.
    now rewrite Z.pow_0_r in H1.
  - apply Z.pow_le_mono_r; lia.
Qed.

Section SmallReturns.

Variables wid dep : Z.
Hypothesis wid_nonneg : 0 <= wid.

Lemma buildRecursive_small_returns (fuel : nat) :
  forall (vals idx : list Z) (off d q : Z) (nodes : Layers),
    len vals = len idx -> len idx < 2 ->
    0 <= d -> 0 <= q -> d <= dep - 1 -> fuel = Z.to_nat (dep - d) ->
    (forall k q', 0 <= k -> d + k <= dep - 1 ->
                  q * wid ^ k <= q' < (q + 1) * wid ^ k ->
                  0 <= wrap64 q' < row_len nodes (d + k)) ->
    exists nodes', buildRecursive wid dep fuel vals idx off d (wrap64 q) nodes
                   = Returned nodes'.
Proof.
  induction fuel as [|fuel IH]; intros vals idx off d q nodes Hlen Hsmall Hd Hq Hdd Hfuel Hin;
    [lia|].
  rewrite buildRecursive_unfold by exact Hlen.
  assert (Hloc : 0 <= wrap64 q < row_len nodes d).
  { specialize (Hin 0 q ltac:(lia) ltac:(lia)).
    rewrite Z.pow_0_r, Z.add_0_r in Hin. apply Hin. lia. }
  destruct (index_slot nodes d (wrap64 q) Hd Hloc) as (row & slot & Hrow & Hslot).
  rewrite Hrow. simpl. rewrite Hslot. simpl.
  rewrite fit_small by exact Hsmall. simpl.
  destruct (store_returns nodes d (wrap64 q) (small_node off)) as (nodes1 & Hstore); try lia.
  rewrite Hstore. simpl.
  apply store_inv in Hstore as (_ & _ & _ & Hshape1 & _).
  destruct (d =? dep - 1) eqn:E; [eauto|]. apply Z.eqb_neq in E.
  destruct (run_calls_total
              (fun v ix off loc nodes => buildRecursive wid dep fuel v ix off (d + 1) loc nodes)
              (children vals idx wid (wrap64 q) off)
              (fun _ s => shape s = shape nodes1) nodes1 eq_refl) as (nodes' & Hrun & _);
    [|eauto].
  intros k c s1 Hc Hs1.
  pose proof (children_small vals idx wid (wrap64 q) off Hsmall) as Hall.
  rewrite Forall_forall in Hall.
  destruct (Hall c (nth_error_In _ _ Hc)) as (Hv & Hi & _).
  apply nth_error_children in Hc as (Hloc' & _ & Hk); [|exact Hlen].
  rewrite Hloc', Hv, Hi.
  assert (Hq' : 0 <= q * wid + Z.of_nat k) by nia.
  assert (Hin' : forall k' q', 0 <= k' -> d + 1 + k' <= dep - 1 ->
                   (q * wid + Z.of_nat k) * wid ^ k' <= q'
                   < (q * wid + Z.of_nat k + 1) * wid ^ k' ->
                   0 <= wrap64 q' < row_len s1 (d + 1 + k')).
  { intros k' q' Hk' Hdk Hq''.
    rewrite (shape_row_len _ _ _ Hs1), (shape_row_len _ _ _ Hshape1).
    replace (d + 1 + k') with (d + (k' + 1)) by lia.
    apply Hin; [lia | lia |].
    rewrite Z.pow_add_r, Z.pow_1_r by lia.
    assert (0 <= wid ^ k') by (apply Z.pow_nonneg; lia). nia. }
  destruct (IH [] [] (cc_offset c) (d + 1) (q * wid + Z.of_nat k) s1 eq_refl
               ltac:(unfold len; simpl; lia) ltac:(lia) Hq' ltac:(lia) ltac:(lia) Hin')
    as (s2 & Hs2).
  exists s2. split; [exact Hs2|].
  apply buildRecursive_post in Hs2; try lia; try reflexivity.
  destruct Hs2 as (Hsh & _). congruence.
Qed.

End SmallReturns.

Lemma NewRMI_small_returns (values : list Z) (wid dep : Z) :
  len values < 2 -> 1 <= wid -> 1 <= dep -> wid ^ (dep - 1) <= max_int ->
  exists rmi, NewRMI values wid dep = Returned (Some rmi, None).
Proof.
  intros Hsmall Hw Hd Hfit. unfold NewRMI.
  assert (Hsorted : SliceIsSorted values = true).
  { unfold SliceIsSorted. unfold len in Hsmall.
    replace (length values - 1)%nat with 0%nat by lia. reflexivity. }
  rewrite Hsorted. simpl.
  unfold make at 1. destruct (dep <? 0) eqn:E; [apply Z.ltb_lt in E; lia|]. simpl.
  assert (Hpow : forall k, 0 <= k < dep -> 1 <= wid ^ k <= max_int).
  { intros k Hk. pose proof (pow_le_last wid k (dep - 1) Hw ltac:(lia)). lia. }
  destruct (make_layers_returns wid (Z.to_nat dep) 1) as (L & HL).
  { intros k Hk. rewrite Z.mul_1_l, wrap64_small; specialize (Hpow k ltac:(lia));
      unfold min_int; lia. }
  { unfold min_int, max_int. lia. }
  rewrite HL. simpl.
  apply make_layers_spec in HL as (HlenL & HrowsL & _); [|unfold min_int, max_int; lia].
  rewrite HlenL.
  assert (Hin : forall k q', 0 <= k -> 0 + k <= dep - 1 ->
                  0 * wid ^ k <= q' < (0 + 1) * wid ^ k ->
                  0 <= wrap64 q' < row_len L (0 + k)).
  { intros k q' Hk Hdk Hq'. rewrite Z.add_0_l.
    destruct (HrowsL k ltac:(lia)) as (Hrl & _).
    specialize (Hpow k ltac:(lia)).
    rewrite Hrl, Z.mul_1_l, !wrap64_small by (unfold min_int; lia). lia. }
  destruct (buildRecursive_small_returns wid dep ltac:(lia) (Z.to_nat dep) values
              (iota (length values)) 0 0 0 L
              ltac:(now rewrite len_iota) ltac:(now rewrite len_iota)
              ltac:(lia) ltac:(lia) ltac:(lia) ltac:(f_equal; lia) Hin)
    as (nodes' & Hbuild).
  change (wrap64 0) with 0 in Hbuild. rewrite Hbuild. simpl.
  apply buildRecursive_post with (q := 0) in Hbuild as Hpost; try lia;
    [|now rewrite len_iota].
  destruct Hpost as (Hshape & _).
  destruct (index_slot nodes' 0 0) as (row & slot & Hrow & Hslot); [lia | |].
  { rewrite (shape_row_len _ _ _ Hshape).
    destruct (HrowsL 0 ltac:(lia)) as (Hrl & _). rewrite Hrl, Z.pow_0_r.
    change (wrap64 (1 * 1)) with 1. lia. }
  rewrite Hrow. simpl. rewrite Hslot. simpl. eauto.
Qed.

(** ** Queries on a tree of small nodes *)

Lemma skipn_cons {A : Type} (l : list A) (n : nat) :
  (n < length l)%nat ->
  exists x, nth_error l n = Some x /\ skipn n l = x :: skipn (S n) l.
Proof.
  revert l. induction n as [|n IH]; intros [|a l] H; simpl in *; try lia.
  - eauto.
  - destruct (IH l ltac:(lia)) as (x & Hx & Hs). exists x. split; [exact Hx|].
    rewrite Hs. reflexivity.
Qed.

Lemma get_nth_error (nodes : Layers) (k j : Z) (nd : Node) :
  get nodes k j = Some nd ->
  exists row, nth_error nodes (Z.to_nat k) = Some row
              /\ nth_error row (Z.to_nat j) = Some (Some nd).
Proof.
  unfold get. destruct (nth_error nodes (Z.to_nat k)) as [row|]; [|discriminate].
  destruct (nth_error row (Z.to_nat j)) as [slot|] eqn:E; [|discriminate].
  intros ->. exists row. split; [reflexivity | exact E].
Qed.

Lemma predict_small_zero (key : Z) : predict (small_node 0) key = Returned NewFloat_0.
Proof.
  unfold predict, small_node, Mul. simpl.
  pose proof (mag_of_not_inf (Z.abs key) 0) as Hni.
  destruct (mag_of (Z.abs key) 0); [| |congruence]; simpl; unfold Add; simpl;
    now rewrite andb_false_r.
Qed.

Lemma Mul_zero_l (z x y : Float) :
  is_zero x = true -> is_inf y = false ->
  exists r, Mul z x y = Returned r /\ is_zero r = true.
Proof.
  unfold is_zero, is_inf, Mul. intros Hx Hy.
  destruct (mag x); try discriminate. destruct (mag y); try discriminate; eauto.
Qed.

Section EmptyTree.

Variable rmi : RMI.
Variable key : Z.
Hypothesis no_key : maxIndex rmi = -1.
Hypothesis layers : len (nodes rmi) = depth rmi.
Hypothesis root_first : root rmi = get (nodes rmi) 0 0.
Hypothesis first_slots :
  forall i, 0 <= i < depth rmi -> get (nodes rmi) i 0 = Some (small_node 0).

Lemma child_slot_empty (scale : Float) (layer : list (option Node)) :
  is_inf scale = false ->
  0 < len layer ->
  child_slot rmi key (small_node 0) scale layer = Returned 0.
Proof.
  intros Hs Hl. unfold child_slot.
  rewrite predict_small_zero, no_key. cbn [bind].
  destruct (Mul_zero_l (mkFloat 53 true MZero) (mkFloat 53 true MZero) scale eq_refl Hs)
    as (r & Hr & Hz).
  change (Quo NewFloat_0 NewFloat_0 (NewFloat_int (-1)))
    with (Returned (mkFloat 53 true MZero)).
  cbn [bind]. rewrite Hr. cbn [bind].
  unfold Int64, is_zero in *. destruct (mag r); try discriminate.
  unfold clamp_child. simpl.
  destruct (0 >=? len layer) eqn:E; [|reflexivity].
  apply Z.geb_le in E. lia.
Qed.

Lemma GetIndex_loop_empty (n : nat) :
  forall (nextLayer : Z) (scale : Float) (evals : nat),
    1 <= nextLayer -> nextLayer + Z.of_nat n = depth rmi ->
    is_inf scale = false ->
    snd (GetIndex_loop rmi key (skipn (Z.to_nat nextLayer) (nodes rmi))
                       (Some (small_node 0)) nextLayer scale evals)
    = Returned (-1).
Proof.
  induction n as [|n IH]; intros nextLayer scale evals H1 Hn Hs.
  - rewrite skipn_all2 by (unfold len in layers; lia). simpl.
    replace (nextLayer =? depth rmi) with true by (symmetry; apply Z.eqb_eq; lia).
    simpl. rewrite predict_small_zero, no_key. reflexivity.
  - destruct (skipn_cons (nodes rmi) (Z.to_nat nextLayer)) as (layer & Hlayer & ->);
      [unfold len in layers; lia|].
    cbn [GetIndex_loop].
    replace (nextLayer =? depth rmi) with false by (symmetry; apply Z.eqb_neq; lia).
    destruct (get_nth_error _ _ _ _ (first_slots nextLayer ltac:(lia))) as (row & Hrow & Hslot).
    rewrite Hlayer in Hrow. inversion Hrow; subst row; clear Hrow.
    assert (Hlen : 0 < len layer).
    { destruct layer; [simpl in Hslot; discriminate | unfold len; simpl; lia]. }
    unfold descend. rewrite (child_slot_empty scale layer Hs Hlen). cbn [bind].
    rewrite (index_returns layer 0 None) by lia.
    rewrite (nth_error_nth _ _ None Hslot). cbn [bind].
    destruct (Mul_noninf scale scale (NewFloat_int (width rmi)) Hs (NewFloat_int_noninf _))
      as (scale' & -> & Hs').
    cbn [bind].
    replace (S (Z.to_nat nextLayer)) with (Z.to_nat (nextLayer + 1)) by lia.
    apply IH; [lia | lia | exact Hs'].
Qed.

Lemma GetIndex_empty : 1 <= depth rmi -> GetIndex rmi key = Returned (-1).
Proof.
  intros Hd. unfold GetIndex, GetIndex_counted.
  rewrite root_first, (first_slots 0) by lia.
  apply (GetIndex_loop_empty (Z.to_nat (depth rmi - 1)) 1 (NewFloat_int (width rmi)) 0%nat);
    [lia | lia | apply NewFloat_int_noninf].
Qed.

End EmptyTree.

(** Over no key every node of the tree is the small node of offset 0. *)
Lemma NewRMI_empty_nodes (wid dep : Z) (rmi : RMI) :
  NewRMI [] wid dep = Returned (Some rmi, None) ->
  all_nodes (fun nd => nd = small_node 0) (nodes rmi).
Proof.
  intros H. apply NewRMI_inv in H as (nodes0 & _ & Hmake & Hbuild & _).
  apply make_layers_spec in Hmake as (_ & _ & Hnone); [|unfold min_int, max_int; lia].
  apply (buildRecursive_all_nodes wid dep
           (fun v ix off => v = [] /\ ix = [] /\ off = 0)
           (fun nd => nd = small_node 0)) in Hbuild; auto.
  - intros v ix off (-> & -> & _). reflexivity.
  - intros v ix off loc c (-> & -> & ->) Hin.
    pose proof (children_small [] [] wid loc 0 ltac:(unfold len; simpl; lia)) as Hall.
    rewrite Forall_forall in Hall. exact (Hall c Hin).
  - intros v ix off nd (-> & -> & ->) Hfit.
    rewrite fit_small in Hfit by (unfold len; simpl; lia). congruence.
  - intros k j nd _ _ Hg. rewrite Hnone in Hg. discriminate.
Qed.

(** C10.  Over no key, a width of one or more, a depth of one or more and
    layers whose sizes fit an [int], [NewRMI] returns a tree; its [maxIndex]
    is -1, and [GetIndex] returns -1 for every key. *)
Theorem empty_keys (wid dep : Z) :
  1 <= wid -> 1 <= dep -> wid ^ (dep - 1) <= max_int ->
  exists rmi,
    NewRMI [] wid dep = Returned (Some rmi, None)
    /\ maxIndex rmi = -1
    /\ forall key, GetIndex rmi key = Returned (-1).
Proof.
  intros Hw Hd Hfit.
  destruct (NewRMI_small_returns [] wid dep) as (rmi & Hnew);
    [unfold len; simpl; lia | assumption..|].
  exists rmi. split; [exact Hnew|].
  pose proof (NewRMI_empty_nodes wid dep rmi Hnew) as Hall.
  pose proof (NewRMI_layers [] wid dep rmi ltac:(lia) Hnew) as (_ & Hlen & _ & Hpop).
  apply NewRMI_inv in Hnew as (_ & _ & _ & _ & _ & Hdep & Hmax & Hroot).
  split; [rewrite Hmax; reflexivity|].
  intros key. apply GetIndex_empty.
  - rewrite Hmax. reflexivity.
  - congruence.
  - exact Hroot.
  - intros i Hi. rewrite Hdep in Hi.
    destruct (Hpop i 0 Hi) as (nd & Hnd).
    { pose proof (pow_le_last wid i i Hw ltac:(lia)). lia. }
    rewrite Hnd. f_equal. apply (Hall i 0 nd); [lia | lia | exact Hnd].
  - lia.
Qed.

Lemma empty_keys_witness :
  exists rmi,
    NewRMI [] 3 2 = Returned (Some rmi, None)
    /\ maxIndex rmi = -1
    /\ forall key, GetIndex rmi key = Returned (-1).
Proof.
  apply (empty_keys 3 2).
  - lia.
  - lia.
  - unfold max_int. simpl. lia.
Defined.

(** ** Queries on a tree over one key *)

Lemma child_slot_single (rmi : RMI) (key : Z) (scale : Float) (layer : list (option Node)) :
  maxIndex rmi = 0 ->
  child_slot rmi key (small_node 0) scale layer = Panicked ErrNaN.
Proof.
  intros H. unfold child_slot. rewrite predict_small_zero, H. reflexivity.
Qed.

Lemma NewRMI_single_root (v wid dep : Z) (rmi : RMI) :
  0 <= wid ->
  NewRMI [v] wid dep = Returned (Some rmi, None) ->
  root rmi = Some (small_node 0) /\ maxIndex rmi = 0 /\ depth rmi = dep
  /\ len (nodes rmi) = dep /\ 1 <= dep.
Proof.
  intros Hw H.
  pose proof (NewRMI_layers [v] wid dep rmi Hw H) as (Hd & Hlen & _).
  apply NewRMI_inv in H as (nodes0 & _ & _ & Hbuild & _ & Hdep & Hmax & Hroot).
  change 0 with (wrap64 0) in Hbuild at 3.
  apply buildRecursive_post in Hbuild; try lia; [|reflexivity].
  destruct Hbuild as (_ & _ & _ & (nd & Hfit & Hget) & _).
  rewrite fit_small in Hfit by (unfold len; simpl; lia).
  inversion Hfit; subst nd.
  repeat split; try assumption.
  rewrite Hroot. exact Hget.
Qed.

(** On a tree built from a single key with a depth other than 1, a query
    evaluates the model of the root, which predicts 0, and panics in the
    division by [maxIndex = 0]. *)
Lemma GetIndex_counted_single (v wid dep key : Z) (rmi : RMI) :
  0 <= wid ->
  dep <> 1 ->
  NewRMI [v] wid dep = Returned (Some rmi, None) ->
  GetIndex_counted rmi key = (1%nat, Panicked ErrNaN).
Proof.
  intros Hw Hd H.
  apply NewRMI_single_root in H as (Hroot & Hmax & Hdep & _ & H1); [|exact Hw].
  unfold GetIndex_counted. rewrite Hroot.
  destruct (skipn 1 (nodes rmi)) as [|layer rest]; cbn [GetIndex_loop];
    (replace (1 =? depth rmi) with false by (symmetry; apply Z.eqb_neq; lia)).
  - now rewrite child_slot_single.
  - unfold descend. now rewrite child_slot_single.
Qed.

(** When [GetIndex] returns on a tree that holds a key, the index is a
    position of the key array. *)
Lemma GetIndex_loop_bounds (rmi : RMI) (key : Z) (rest : Layers) :
  0 <= maxIndex rmi ->
  forall node nextLayer scale evals r,
    snd (GetIndex_loop rmi key rest node nextLayer scale evals) = Returned r ->
    0 <= r <= maxIndex rmi.
Proof.
  intros Hmax. induction rest as [|layer rest IH];
    intros [node|] nextLayer scale evals r H; cbn [GetIndex_loop] in H;
    try discriminate.
  - destruct (nextLayer =? depth rmi); simpl in H.
    + bind_inv H as res Hres. inversion H; subst.
      unfold clamp_leaf.
      destruct (Z.gtb_spec (Int64 res) (maxIndex rmi)); [lia|].
      destruct (Z.ltb_spec (Int64 res) 0); lia.
    + bind_inv H as x Hx. discriminate.
  - destruct (nextLayer =? depth rmi); simpl in H.
    + bind_inv H as res Hres. inversion H; subst.
      unfold clamp_leaf.
      destruct (Z.gtb_spec (Int64 res) (maxIndex rmi)); [lia|].
      destruct (Z.ltb_spec (Int64 res) 0); lia.
    + destruct (descend rmi key node scale layer) as [[child scale']|]; [|discriminate].
      apply IH in H. exact H.
Qed.

(** ** The number of models a query evaluates *)

Lemma GetIndex_loop_evals (rmi : RMI) (key : Z) (rest : Layers) :
  forall node nextLayer scale evals,
    nextLayer + len rest = depth rmi ->
    (fst (GetIndex_loop rmi key rest node nextLayer scale evals)
     <= evals + length rest + 1)%nat
    /\ (forall r, snd (GetIndex_loop rmi key rest node nextLayer scale evals) = Returned r ->
                  fst (GetIndex_loop rmi key rest node nextLayer scale evals)
                  = (evals + length rest + 1)%nat).
Proof.
  induction rest as [|layer rest IH]; intros [node|] nextLayer scale evals Hn;
    cbn [GetIndex_loop]; try (split; [simpl; lia | intros r H; discriminate]).
  - unfold len in Hn. simpl in Hn.
    replace (nextLayer =? depth rmi) with true by (symmetry; apply Z.eqb_eq; lia).
    simpl. split; [lia | intros; lia].
  - unfold len in Hn. simpl length in Hn.
    replace (nextLayer =? depth rmi) with false by (symmetry; apply Z.eqb_neq; lia).
    destruct (descend rmi key node scale layer) as [[child scale']|].
    + destruct (IH child (nextLayer + 1) scale' (S evals)) as (Hle & Heq);
        [unfold len; lia|].
      split; [simpl length; lia|]. intros r H. rewrite (Heq r H). simpl length. lia.
    + split; [simpl; lia | intros r H; discriminate].
Qed.

(** ** Which node is in which slot *)

Section BuildContent.

Variables wid dep : Z.
Hypothesis wid_nonneg : 0 <= wid.

Lemma buildRecursive_content (fuel : nat) :
  forall (vals idx : list Z) (off d q : Z) (nodes nodes' : Layers),
    0 <= d <= dep - 1 -> 0 <= q -> len vals = len idx ->
    (forall k, 0 <= k -> d + k <= dep - 1 -> (q + 1) * wid ^ k <= max_int + 1) ->
    buildRecursive wid dep fuel vals idx off d q nodes = Returned nodes' ->
    untouched_outside wid nodes nodes' d q (q + 1)
    /\ holds_subtree wid dep nodes' d q (mkCall vals idx off q).
Proof.
  induction fuel as [|fuel IH]; intros vals idx off d q nodes nodes' Hd Hq Hlen Hfits H;
    [discriminate|].
  assert (Hqmax : q <= max_int).
  { specialize (Hfits 0 ltac:(lia) ltac:(lia)). rewrite Z.pow_0_r in Hfits. lia. }
  rewrite buildRecursive_unfold in H by exact Hlen.
  bind_inv H as row Hrow. bind_inv H as slot Hslot.
  bind_inv H as node Hfit. bind_inv H as nodes1 Hstore.
  apply store_inv in Hstore as (_ & _ & _ & _ & Hget1).
  destruct (d =? dep - 1) eqn:Eleaf.
  - (* a leaf *)
    apply Z.eqb_eq in Eleaf. inversion H; subst nodes'; clear H. split.
    + intros k j Hk Hj Hout. rewrite Hget1 by assumption.
      destruct (Z.eqb_spec k d) as [->|]; [|reflexivity].
      destruct (Z.eqb_spec j q) as [->|]; [|reflexivity].
      exfalso. apply Hout. rewrite Z.sub_diag, Z.pow_0_r. lia.
    + intros path c Hpath Hdesc.
      assert (path = []) as ->.
      { destruct path; [reflexivity|]. unfold len in Hpath. simpl in Hpath. lia. }
      simpl in Hdesc. inversion Hdesc; subst c; clear Hdesc. simpl.
      unfold len. simpl. rewrite Z.add_0_r. split; [lia|].
      exists node. split; [exact Hfit|]. rewrite Hget1 by lia. now rewrite !Z.eqb_refl.
  - (* an inner node *)
    apply Z.eqb_neq in Eleaf.
    pose (P := fun (c : nat) (s : Layers) =>
      untouched_outside wid nodes1 s (d + 1) (q * wid) (q * wid + Z.of_nat c)
      /\ (forall c' call, (c' < c)%nat ->
            nth_error (children vals idx wid q off) c' = Some call ->
            holds_subtree wid dep s (d + 1) (q * wid + Z.of_nat c') call)).
    apply (run_calls_inv _ _ P) in H.
    + destruct H as (Hframe & Hcontent). rewrite length_children in Hframe, Hcontent. split.
      * intros k j Hk Hj Hout.
        assert (Hout1 : ~ (d + 1 <= k /\
                           q * wid * wid ^ (k - (d + 1)) <= j
                           < (q * wid + Z.of_nat (Z.to_nat wid)) * wid ^ (k - (d + 1)))).
        { intros (Hk1 & Hr). apply Hout. split; [lia|].
          replace (k - d) with (Z.succ (k - (d + 1))) by lia.
          rewrite Z.pow_succ_r by lia. nia. }
        rewrite (Hframe k j Hk Hj Hout1).
        rewrite Hget1 by assumption.
        destruct (Z.eqb_spec k d) as [->|]; [|reflexivity].
        destruct (Z.eqb_spec j q) as [->|]; [|reflexivity].
        exfalso. apply Hout. rewrite Z.sub_diag, Z.pow_0_r. lia.
      * intros path c Hpath Hdesc. destruct path as [|k path].
        { simpl in Hdesc. inversion Hdesc; subst c; clear Hdesc. simpl.
          unfold len. simpl. rewrite Z.add_0_r. split; [lia|].
          exists node. split; [exact Hfit|].
          rewrite (Hframe d q ltac:(lia) Hq) by (intros (Hk1 & _); lia).
          rewrite Hget1 by lia. now rewrite !Z.eqb_refl. }
        { simpl in Hdesc.
          destruct (nth_error (children vals idx wid q off) k) as [call|] eqn:Ecall;
            [|discriminate].
          assert (Hk : (k < Z.to_nat wid)%nat).
          { rewrite <- (length_children vals idx wid q off).
            apply nth_error_Some. congruence. }
          assert (Hlp : len (k :: path) = len path + 1) by (unfold len; simpl; lia).
          destruct (Hcontent k call Hk Ecall path c ltac:(lia) Hdesc) as (Hrange & nd & Hnd & Hg).
          rewrite Hlp. replace (d + (len path + 1)) with (d + 1 + len path) by lia.
          split; [|eauto].
          rewrite Z.pow_add_r, Z.pow_1_r by (pose proof (len_nonneg path); lia).
          assert (0 <= wid ^ len path) by (apply Z.pow_nonneg; lia). nia. }
    + unfold P. split.
      * intros k j Hk Hj _. reflexivity.
      * intros c' call Hc'. lia.
    + intros c call s1 s2 Hcall (Hframe & Hcontent) Hbuild.
      pose proof Hcall as Hcall'.
      rewrite <- (wrap64_small q) in Hcall' by (unfold min_int; lia).
      apply nth_error_children in Hcall' as (Hloc & Hlenc & Hc); [|exact Hlen].
      assert (Hfits' : forall k, 0 <= k -> d + 1 + k <= dep - 1 ->
                                 (q * wid + Z.of_nat c + 1) * wid ^ k <= max_int + 1).
      { intros k Hk Hdk. specialize (Hfits (k + 1) ltac:(lia) ltac:(lia)).
        rewrite Z.pow_add_r, Z.pow_1_r in Hfits by lia.
        assert (0 <= wid ^ k) by (apply Z.pow_nonneg; lia). nia. }
      assert (Hlocq : cc_location call = q * wid + Z.of_nat c).
      { rewrite Hloc. apply wrap64_small.
        specialize (Hfits' 0 ltac:(lia) ltac:(lia)). rewrite Z.pow_0_r in Hfits'.
        unfold min_int. nia. }
      rewrite Hlocq in Hbuild.
      assert (Hd' : 0 <= d + 1 <= dep - 1) by lia.
      assert (Hq' : 0 <= q * wid + Z.of_nat c) by nia.
      apply (IH _ _ _ _ _ _ _ Hd' Hq' Hlenc Hfits') in Hbuild.
      destruct Hbuild as (Hframe' & Hcontent').
      unfold P. split.
      * intros k j Hk Hj Hout.
        rewrite (Hframe' k j Hk Hj), (Hframe k j Hk Hj); [reflexivity | |].
        { intros (Hk1 & Hr). apply Hout. split; [lia|].
          assert (0 <= wid ^ (k - (d + 1))) by (apply Z.pow_nonneg; lia). nia. }
        { intros (Hk1 & Hr). apply Hout. split; [lia|].
          assert (0 <= wid ^ (k - (d + 1))) by (apply Z.pow_nonneg; lia). nia. }
      * intros c' call' Hc' Hcall'' path cd Hpath Hdesc.
        destruct (Nat.eq_dec c' c) as [->|Hne].
        { rewrite Hcall in Hcall''. inversion Hcall''; subst call'.
          apply Hcontent'; [exact Hpath|].
          destruct call as [cv ci co cl]. simpl in Hlocq |- *.
          rewrite <- Hlocq. exact Hdesc. }
        { destruct (Hcontent c' call' ltac:(lia) Hcall'' path cd Hpath Hdesc)
            as (Hrange & nd & Hnd & Hg).
          split; [exact Hrange|]. exists nd. split; [exact Hnd|].
          pose proof (len_nonneg path) as Hlp.
          assert (Hp : 0 <= wid ^ len path) by (apply Z.pow_nonneg; lia).
          rewrite (Hframe' (d + 1 + len path) (cc_location cd)); [exact Hg | lia | nia |].
          intros (_ & Hr).
          replace (d + 1 + len path - (d + 1)) with (len path) in Hr by lia.
          nia. }
Qed.

End BuildContent.

Lemma children_len (values indices : list Z) (wid loc off : Z) (k : nat) (c : ChildCall) :
  len values = len indices ->
  nth_error (children values indices wid loc off) k = Some c ->
  len (cc_values c) = len (cc_indices c)
  /\ cc_location c = wrap64 (wrap64 (loc * wid) + Z.of_nat k)
  /\ 0 <= Z.of_nat k < wid.
Proof.
  intros Hlen H.
  assert (Hk : (k < Z.to_nat wid)%nat).
  { rewrite <- (length_children values indices wid loc off).
    apply nth_error_Some. congruence. }
  unfold children in H.
  apply nth_error_calls_of in H as (Hloc & lr & Hlr & Hv & Hi).
  pose proof (node_bounds_good _ wid (len_nonneg indices)) as Hg.
  rewrite Forall_forall in Hg. specialize (Hg lr (nth_error_In _ _ Hlr)).
  unfold good_bounds in Hg. pose proof (len_nonneg indices).
  split; [rewrite Hv, Hi, !len_sub; lia|].
  split; [rewrite Hloc; f_equal; lia | lia].
Qed.

Lemma descendant_len (wid : Z) (path : list nat) :
  forall c0 c,
    len (cc_values c0) = len (cc_indices c0) ->
    descendant wid path c0 = Some c ->
    len (cc_values c) = len (cc_indices c).
Proof.
  induction path as [|k path IH]; intros c0 c Hlen H; simpl in H.
  - inversion H; subst. exact Hlen.
  - destruct (nth_error _ k) as [c1|] eqn:E; [|discriminate].
    apply children_len in E as (Hlen1 & _); [|exact Hlen].
    apply (IH c1 c Hlen1 H).
Qed.

Lemma descendant_app (wid : Z) (p1 p2 : list nat) :
  forall c0,
    descendant wid (p1 ++ p2) c0
    = match descendant wid p1 c0 with
      | Some c1 => descendant wid p2 c1
      | None => None
      end.
Proof.
  induction p1 as [|k p1 IH]; intros c0; simpl; [reflexivity|].
  destruct (nth_error _ k); [apply IH | reflexivity].
Qed.

(** The nodes of a tree [NewRMI] returned, by their paths from the root:
    each is in the slot of its location and is the model fitted to its
    points, and the location of a child is that of its parent times the width
    plus the number of the child. *)
Lemma NewRMI_content (values : list Z) (wid dep : Z) (rmi : RMI) :
  1 <= wid ->
  NewRMI values wid dep = Returned (Some rmi, None) ->
  (forall path c,
      len path < dep ->
      descendant wid path (root_call values) = Some c ->
      0 <= cc_location c < wid ^ len path
      /\ exists nd, fit (cc_values c) (cc_indices c) (cc_offset c) = Returned nd
                    /\ get (nodes rmi) (len path) (cc_location c) = Some nd)
  /\ (forall path k c c',
         len path + 1 < dep ->
         descendant wid path (root_call values) = Some c ->
         nth_error (children (cc_values c) (cc_indices c) wid
                             (cc_location c) (cc_offset c)) k = Some c' ->
         cc_location c' = cc_location c * wid + Z.of_nat k).
Proof.
  intros Hw H.
  pose proof (NewRMI_layers values wid dep rmi ltac:(lia) H) as (Hd & _ & Hrows & _).
  apply NewRMI_inv in H as (nodes0 & _ & _ & Hbuild & _).
  apply buildRecursive_content in Hbuild; try lia; [|now rewrite len_iota|].
  2:{ intros k Hk Hdk. destruct (Hrows k ltac:(lia)) as (_ & Hfit). lia. }
  destruct Hbuild as (_ & Hsub).
  assert (Hnode : forall path c,
             len path < dep ->
             descendant wid path (root_call values) = Some c ->
             0 <= cc_location c < wid ^ len path
             /\ exists nd, fit (cc_values c) (cc_indices c) (cc_offset c) = Returned nd
                           /\ get (nodes rmi) (len path) (cc_location c) = Some nd).
  { intros path c Hpath Hdesc.
    destruct (Hsub path c ltac:(lia) Hdesc) as (Hrange & Hnd).
    rewrite Z.add_0_l in Hnd. split; [lia | exact Hnd]. }
  split; [exact Hnode|].
  intros path k c c' Hpath Hdesc Hchild.
  destruct (Hnode path c ltac:(lia) Hdesc) as (Hrange & _).
  assert (Hlenc : len (cc_values c) = len (cc_indices c)).
  { apply (descendant_len wid path (root_call values) c); [|exact Hdesc].
    simpl. now rewrite len_iota. }
  apply children_len in Hchild as (_ & Hloc & Hk); [|exact Hlenc].
  rewrite Hloc.
  pose proof (len_nonneg path) as Hlp.
  destruct (Hrows (len path + 1) ltac:(lia)) as (_ & Hfit).
  rewrite Z.pow_add_r, Z.pow_1_r in Hfit by lia.
  assert (Hin : 0 <= cc_location c * wid + Z.of_nat k <= max_int) by nia.
  rewrite (wrap64_small (cc_location c * wid)) by (unfold min_int; nia).
  apply wrap64_small. unfold min_int. lia.
Qed.

(** No two nodes of a layer share a slot. *)
Lemma NewRMI_locations_differ (values : list Z) (wid dep : Z) (rmi : RMI) :
  1 <= wid ->
  NewRMI values wid dep = Returned (Some rmi, None) ->
  forall path path' c c',
    length path = length path' ->
    len path < dep ->
    descendant wid path (root_call values) = Some c ->
    descendant wid path' (root_call values) = Some c' ->
    cc_location c = cc_location c' ->
    path = path'.
Proof.
  intros Hw H.
  destruct (NewRMI_content values wid dep rmi Hw H) as (Hnode & Hchild).
  induction path as [|k p IH] using rev_ind; intros path' c c' Hlen Hp Hd Hd' Hloc.
  - destruct path'; [reflexivity | discriminate].
  - destruct (exists_last (l := path')) as (p' & k' & ->).
    { intros ->. rewrite length_app in Hlen. simpl in Hlen. lia. }
    rewrite !length_app in Hlen. simpl in Hlen.
    assert (Hlp : len (p ++ [k]) = len p + 1) by (unfold len; rewrite length_app; simpl; lia).
    rewrite descendant_app in Hd, Hd'.
    destruct (descendant wid p (root_call values)) as [cp|] eqn:Ep; [|discriminate].
    destruct (descendant wid p' (root_call values)) as [cp'|] eqn:Ep'; [|discriminate].
    simpl in Hd, Hd'.
    destruct (nth_error _ k) as [ck|] eqn:Ek in Hd; [|discriminate].
    destruct (nth_error _ k') as [ck'|] eqn:Ek' in Hd'; [|discriminate].
    inversion Hd; subst ck. inversion Hd'; subst ck'. clear Hd Hd'.
    assert (Hlp' : len p' = len p) by (unfold len; lia).
    pose proof (Hchild p k cp c ltac:(lia) Ep Ek) as Hc.
    pose proof (Hchild p' k' cp' c' ltac:(lia) Ep' Ek') as Hc'.
    destruct (Hnode p cp ltac:(lia) Ep) as (Hr & _).
    destruct (Hnode p' cp' ltac:(lia) Ep') as (Hr' & _).
    assert (Hlenc : forall q cq, descendant wid q (root_call values) = Some cq ->
                                 len (cc_values cq) = len (cc_indices cq)).
    { intros q cq Hq. apply (descendant_len wid q (root_call values) cq); [|exact Hq].
      simpl. now rewrite len_iota. }
    apply children_len in Ek as (_ & _ & Hk); [|apply (Hlenc p), Ep].
    apply children_len in Ek' as (_ & _ & Hk'); [|apply (Hlenc p'), Ep'].
    assert (Heq1 : cc_location cp = cc_location cp').
    { rewrite (Z.div_unique (cc_location c) wid (cc_location cp) (Z.of_nat k));
        [|left; lia|lia].
      rewrite (Z.div_unique (cc_location c') wid (cc_location cp') (Z.of_nat k'));
        [|left; lia|lia].
      now rewrite Hloc. }
    assert (Heq2 : Z.of_nat k = Z.of_nat k') by (rewrite Heq1 in Hc; lia).
    assert (p = p') as ->.
    { apply (IH p' cp cp'); [lia | lia | reflexivity | exact Ep' | exact Heq1]. }
    f_equal. f_equal. lia.
Qed.

(** C8.  A tree [NewRMI] returns for a width of one or more has [depth]
    layers, one at least; layer [i] has [width^i] slots, every one of which
    holds a node; the root is the node of slot 0 of layer 0; the node of
    every path from the root is stored in the slot of its location and is the
    model fitted to its points; the location of a child is that of its parent
    times the width plus the number of the child; and two different nodes of a
    layer are in different slots. *)
Theorem tree_shape (values : list Z) (wid dep : Z) (rmi : RMI) :
  1 <= wid ->
  NewRMI values wid dep = Returned (Some rmi, None) ->
  1 <= dep
  /\ len (nodes rmi) = dep
  /\ (forall i, 0 <= i < dep -> row_len (nodes rmi) i = wid ^ i)
  /\ (forall i pos, 0 <= i < dep -> 0 <= pos < wid ^ i ->
        exists nd, get (nodes rmi) i pos = Some nd)
  /\ root rmi = get (nodes rmi) 0 0
  /\ (forall path c,
        len path < dep ->
        descendant wid path (root_call values) = Some c ->
        0 <= cc_location c < wid ^ len path
        /\ exists nd, fit (cc_values c) (cc_indices c) (cc_offset c) = Returned nd
                      /\ get (nodes rmi) (len path) (cc_location c) = Some nd)
  /\ (forall path k c c',
        len path + 1 < dep ->
        descendant wid path (root_call values) = Some c ->
        nth_error (children (cc_values c) (cc_indices c) wid
                            (cc_location c) (cc_offset c)) k = Some c' ->
        cc_location c' = cc_location c * wid + Z.of_nat k)
  /\ (forall path path' c c',
        length path = length path' ->
        len path < dep ->
        descendant wid path (root_call values) = Some c ->
        descendant wid path' (root_call values) = Some c' ->
        cc_location c = cc_location c' ->
        path = path').
Proof.
  intros Hw H.
  pose proof (NewRMI_layers values wid dep rmi ltac:(lia) H) as (Hd & Hlen & Hrows & Hpop).
  destruct (NewRMI_content values wid dep rmi Hw H) as (Hnode & Hchild).
  pose proof (NewRMI_locations_differ values wid dep rmi Hw H) as Hinj.
  apply NewRMI_inv in H as (_ & _ & _ & _ & _ & _ & _ & Hroot).
  split; [exact Hd|]. split; [exact Hlen|].
  split; [intros i Hi; apply Hrows, Hi|].
  split; [exact Hpop|]. split; [exact Hroot|].
  split; [exact Hnode|]. split; [exact Hchild | exact Hinj].
Qed.

Lemma tree_shape_witness :
  exists rmi,
    NewRMI [0; 10; 20; 30; 40; 50] 2 3 = Returned (Some rmi, None)
    /\ len (nodes rmi) = 3
    /\ (forall i, 0 <= i < 3 -> row_len (nodes rmi) i = 2 ^ i)
    /\ (forall i pos, 0 <= i < 3 -> 0 <= pos < 2 ^ i ->
          exists nd, get (nodes rmi) i pos = Some nd).
Proof.
  eexists. split; [vm_compute; reflexivity|].
  match goal with |- len (nodes ?r) = _ /\ _ =>
    destruct (tree_shape [0; 10; 20; 30; 40; 50] 2 3 r ltac:(lia)
                ltac:(vm_compute; reflexivity))
      as (_ & H2 & H3 & H4 & _) end.
  split; [exact H2|]. split; [exact H3 | exact H4].
Defined.

(** ** The query and the traversal of the specification *)

Lemma floor_Int64 (x : Float) :
  (0 <= floor x /\ Int64 x = Z.min max_int (floor x))
  \/ (floor x <= 0 /\ Int64 x <= 0).
Proof.
  unfold floor, Int64, signed.
  destruct (mag x) as [|m e|]; [left; unfold max_int; lia | |].
  - assert (Ha : 0 <= (if 0 <=? e then Z.pos m * 2 ^ e else Z.pos m / 2 ^ (- e))).
    { destruct (0 <=? e) eqn:E.
      - apply Z.leb_le in E. assert (0 < 2 ^ e) by (apply Z.pow_pos_nonneg; lia). nia.
      - apply Z.leb_gt in E. apply Z.div_pos; [lia | apply Z.pow_pos_nonneg; lia]. }
    destruct (neg x); [right | left; split; [exact Ha | reflexivity]].
    split; [|unfold min_int; lia].
    destruct (0 <=? e) eqn:E.
    + apply Z.leb_le in E. assert (0 < 2 ^ e) by (apply Z.pow_pos_nonneg; lia). nia.
    + apply Z.leb_gt in E.
      assert (Hp : 0 < 2 ^ (- e)) by (apply Z.pow_pos_nonneg; lia).
      apply Z.lt_succ_r, Z.div_lt_upper_bound; [exact Hp | lia].
  - destruct (neg x); [right; unfold min_int; lia | left; unfold max_int; lia].
Qed.

Lemma clamp_child_floor (size : Z) (x : Float) :
  1 <= size <= max_int ->
  clamp_child size (Int64 x) = clamp 0 (size - 1) (floor x).
Proof.
  intros Hs. unfold clamp_child, clamp.
  destruct (floor_Int64 x) as [(Hf & Hi) | (Hf & Hi)].
  - rewrite Hi.
    destruct (Z.ltb_spec (Z.min max_int (floor x)) 0); [lia|].
    rewrite Z.geb_leb. destruct (Z.leb_spec size (Z.min max_int (floor x))); lia.
  - destruct (Z.ltb_spec (Int64 x) 0); [lia|].
    rewrite Z.geb_leb. destruct (Z.leb_spec size (Int64 x)); lia.
Qed.

Lemma clamp_leaf_floor (maxIndex : Z) (x : Float) :
  0 <= maxIndex <= max_int ->
  clamp_leaf maxIndex (Int64 x) = clamp 0 maxIndex (floor x).
Proof.
  intros Hs. unfold clamp_leaf, clamp.
  destruct (floor_Int64 x) as [(Hf & Hi) | (Hf & Hi)].
  - rewrite Hi.
    destruct (Z.gtb_spec (Z.min max_int (floor x)) maxIndex); [lia|].
    destruct (Z.ltb_spec (Z.min max_int (floor x)) 0); lia.
  - destruct (Z.gtb_spec (Int64 x) maxIndex); [lia|].
    destruct (Z.ltb_spec (Int64 x) 0); lia.
Qed.

Section Refinement.

Variable rmi : RMI.
Variable key : Z.
Hypothesis max_index : 0 <= maxIndex rmi <= max_int.
Hypothesis layers : len (nodes rmi) = depth rmi.
Hypothesis rows :
  forall i, 0 <= i < depth rmi ->
            row_len (nodes rmi) i = width rmi ^ i /\ 1 <= width rmi ^ i <= max_int.
Hypothesis populated :
  forall i pos, 0 <= i < depth rmi -> 0 <= pos < width rmi ^ i ->
                exists nd, get (nodes rmi) i pos = Some nd.

Lemma GetIndex_loop_refines (n : nat) :
  forall (nextLayer : Z) (node : Node) (scale : Float) (evals : nat),
    1 <= nextLayer -> nextLayer + Z.of_nat n = depth rmi ->
    snd (GetIndex_loop rmi key (skipn (Z.to_nat nextLayer) (nodes rmi))
                       (Some node) nextLayer scale evals)
    = spec_traverse rmi key n (nextLayer - 1) node scale.
Proof.
  induction n as [|n IH]; intros nextLayer node scale evals H1 Hn.
  - rewrite skipn_all2 by (unfold len in layers; lia). cbn [GetIndex_loop spec_traverse].
    replace (nextLayer =? depth rmi) with true by (symmetry; apply Z.eqb_eq; lia).
    cbn [snd]. destruct (predict node key) as [p|]; [|reflexivity]. cbn [bind].
    now rewrite clamp_leaf_floor.
  - destruct (skipn_cons (nodes rmi) (Z.to_nat nextLayer)) as (layer & Hlayer & ->);
      [unfold len in layers; lia|].
    cbn [GetIndex_loop spec_traverse].
    replace (nextLayer =? depth rmi) with false by (symmetry; apply Z.eqb_neq; lia).
    replace (nextLayer - 1 + 1) with nextLayer by lia.
    destruct (rows nextLayer ltac:(lia)) as (Hrl & Hsize).
    assert (Hll : len layer = width rmi ^ nextLayer).
    { unfold row_len in Hrl. now rewrite Hlayer in Hrl. }
    unfold descend, child_slot.
    destruct (predict node key) as [p|]; [|reflexivity]. cbn [bind].
    destruct (Quo p p (NewFloat_int (maxIndex rmi))) as [fraction|]; [|reflexivity].
    cbn [bind].
    destruct (Mul fraction fraction scale) as [scaled|]; [|reflexivity]. cbn [bind].
    rewrite Hll, clamp_child_floor by exact Hsize.
    set (childIndex := clamp 0 (width rmi ^ nextLayer - 1) (floor scaled)).
    assert (Hci : 0 <= childIndex < width rmi ^ nextLayer) by (unfold childIndex, clamp; lia).
    destruct (populated nextLayer childIndex ltac:(lia) Hci) as (child & Hchild).
    rewrite Hchild.
    apply get_nth_error in Hchild as (row & Hrow & Hslot).
    rewrite Hlayer in Hrow. inversion Hrow; subst row; clear Hrow.
    rewrite (index_returns layer childIndex None) by lia.
    rewrite (nth_error_nth _ _ None Hslot). cbn [bind].
    destruct (Mul scale scale (NewFloat_int (width rmi))) as [scale'|]; [|reflexivity].
    cbn [bind].
    replace (S (Z.to_nat nextLayer)) with (Z.to_nat (nextLayer + 1)) by lia.
    rewrite IH by lia. f_equal. lia.
Qed.

Lemma GetIndex_spec_GetIndex :
  1 <= depth rmi -> root rmi = get (nodes rmi) 0 0 ->
  GetIndex rmi key = spec_GetIndex rmi key.
Proof.
  intros Hd Hroot. unfold GetIndex, GetIndex_counted, spec_GetIndex.
  rewrite Hroot.
  destruct (populated 0 0 ltac:(lia)) as (node & Hnode).
  { destruct (rows 0 ltac:(lia)) as (_ & Hr). rewrite Z.pow_0_r. lia. }
  rewrite Hnode.
  apply (GetIndex_loop_refines (Z.to_nat (depth rmi - 1)) 1 node); lia.
Qed.

End Refinement.

(** C6.  On a tree [NewRMI] returns over one key or more, [GetIndex] is the
    traversal of section 4.3 of the specification: the inner layers
    normalise the prediction by [maxIndex], scale it and clamp the slot into
    the layer; the leaf layer clamps the prediction itself into
    [[0, maxIndex]]; a panic of the arithmetic is a panic of both. *)
Theorem GetIndex_follows_traversal (values : list Z) (wid dep key : Z) (rmi : RMI) :
  1 <= wid ->
  1 <= len values <= max_int ->
  NewRMI values wid dep = Returned (Some rmi, None) ->
  GetIndex rmi key = spec_GetIndex rmi key.
Proof.
  intros Hw Hv H.
  pose proof (NewRMI_layers values wid dep rmi ltac:(lia) H) as (Hd & Hlen & Hrows & Hpop).
  apply NewRMI_inv in H as (_ & _ & _ & _ & Hwid & Hdep & Hmax & Hroot).
  apply GetIndex_spec_GetIndex; rewrite ?Hwid, ?Hdep, ?Hmax; try assumption; try lia.
  intros i Hi. destruct (Hrows i Hi) as (Hr & Hfit).
  pose proof (pow_le_last wid i i Hw ltac:(lia)). lia.
Qed.

Lemma GetIndex_follows_traversal_witness :
  exists rmi,
    NewRMI [0; 10; 20; 30; 40; 50] 2 2 = Returned (Some rmi, None)
    /\ GetIndex rmi 25 = spec_GetIndex rmi 25
    /\ GetIndex rmi 25 = Returned 2.
Proof.
  eexists. split; [vm_compute; reflexivity|].
  split; [|vm_compute; reflexivity].
  apply (GetIndex_follows_traversal [0; 10; 20; 30; 40; 50] 2 2 25).
  - lia.
  - unfold len, max_int. simpl. lia.
  - vm_compute. reflexivity.
Defined.

(** ** Where a query returns

    The coefficients of a tree are never infinite: a fit that would divide a
    covariance that is not zero by a variance of zero does not exist, since
    the covariance is zero with the variance; so a query can only panic in
    the division by [maxIndex], when that is 0. *)

Lemma coefficients_noninf (keys ranks : list Z) (b0 b1 zc : Float) :
  len keys = len ranks -> 2 <= len keys ->
  coefficients keys ranks = Returned (b0, b1, zc) ->
  is_inf b0 = false /\ is_inf b1 = false.
Proof.
  intros Hlen H2 H.
  assert (Hk : keys <> []) by (intros ->; unfold len in H2; simpl in H2; lia).
  assert (Hr : ranks <> []) by (intros ->; unfold len in Hlen, H2; simpl in Hlen; lia).
  destruct (mean_noninf keys Hk) as (meanX & HmX & HiX).
  destruct (mean_noninf ranks Hr) as (meanY & HmY & HiY).
  destruct (covariance_loop_noninf keys meanX meanY HiX HiY ranks NewFloat_0
              ltac:(unfold len in Hlen; lia) eq_refl) as (cov & Hcov & Hicov).
  destruct (variance_loop_noninf keys meanX HiX NewFloat_0 eq_refl) as (var & Hvar & Hivar).
  destruct (is_zero var) eqn:Hz.
  { rewrite (coefficients_zero_variance keys ranks meanX var) in H by assumption.
    discriminate. }
  destruct (Quo_noninf cov cov var Hicov Hivar Hz) as (slope & Hslope & Hislope).
  destruct (Mul_noninf meanX meanX slope HiX Hislope) as (prod & Hprod & Hiprod).
  destruct (Sub_noninf new meanY prod HiY Hiprod) as (icpt & Hicpt & Hiicpt).
  unfold coefficients, covariance, variance in H.
  rewrite HmX, HmY in H. simpl in H. rewrite Hcov in H. simpl in H.
  rewrite Hvar in H. simpl in H. rewrite Hslope in H. simpl in H.
  rewrite Hprod in H. simpl in H. rewrite Hicpt in H. simpl in H.
  bind_inv H as zc' Hzc. inversion H; subst. auto.
Qed.

Lemma fit_noninf (values indices : list Z) (offset : Z) (nd : Node) :
  len values = len indices ->
  fit values indices offset = Returned nd ->
  is_inf (m nd) = false /\ is_inf (b nd) = false.
Proof.
  intros Hlen H. unfold fit in H.
  destruct (2 <=? len indices) eqn:E.
  - apply Z.leb_le in E. bind_inv H as r Hr. destruct r as [[b0 b1] zc].
    inversion H; subst nd. simpl.
    apply coefficients_noninf in Hr as (H0 & H1); [auto | exact Hlen | lia].
  - inversion H; subst nd. simpl. split; [reflexivity | apply SetInt_noninf].
Qed.

Lemma NewRMI_nodes_noninf (values : list Z) (wid dep : Z) (rmi : RMI) :
  NewRMI values wid dep = Returned (Some rmi, None) ->
  all_nodes (fun nd => is_inf (m nd) = false /\ is_inf (b nd) = false) (nodes rmi).
Proof.
  intros H. apply NewRMI_inv in H as (nodes0 & _ & Hmake & Hbuild & _).
  apply make_layers_spec in Hmake as (_ & _ & Hnone); [|unfold min_int, max_int; lia].
  apply (buildRecursive_all_nodes wid dep
           (fun v ix _ => len v = len ix)
           (fun nd => is_inf (m nd) = false /\ is_inf (b nd) = false)) in Hbuild; auto.
  - intros v ix off loc c Hlen Hin.
    apply In_nth_error in Hin as (k & Hk).
    apply children_len in Hk as (Hl & _); [exact Hl | exact Hlen].
  - intros v ix off nd Hlen Hfit. apply (fit_noninf v ix off nd Hlen Hfit).
  - now rewrite len_iota.
  - intros k j nd _ _ Hg. rewrite Hnone in Hg. discriminate.
Qed.

Lemma predict_noninf (node : Node) (key : Z) :
  is_inf (m node) = false -> is_inf (b node) = false ->
  exists p, predict node key = Returned p /\ is_inf p = false.
Proof.
  intros Hm Hb. unfold predict.
  destruct (Mul_noninf NewFloat_0 (m node) (SetInt key) Hm (SetInt_noninf key))
    as (r & -> & Hr).
  simpl. apply Add_noninf; assumption.
Qed.

Lemma clamp_child_range (size x : Z) : 1 <= size -> 0 <= clamp_child size x < size.
Proof.
  intros H. unfold clamp_child.
  destruct (Z.ltb_spec x 0); [lia|].
  rewrite Z.geb_leb. destruct (Z.leb_spec size x); lia.
Qed.

Section Total.

Variable rmi : RMI.
Variable key : Z.
Hypothesis max_index : maxIndex rmi <> 0 \/ depth rmi = 1.
Hypothesis layers : len (nodes rmi) = depth rmi.
Hypothesis rows :
  forall i, 0 <= i < depth rmi -> 1 <= row_len (nodes rmi) i.
Hypothesis populated :
  forall i pos, 0 <= i < depth rmi -> 0 <= pos < row_len (nodes rmi) i ->
                exists nd, get (nodes rmi) i pos = Some nd.
Hypothesis noninf :
  all_nodes (fun nd => is_inf (m nd) = false /\ is_inf (b nd) = false) (nodes rmi).

Lemma GetIndex_loop_returns (n : nat) :
  forall (nextLayer : Z) (node : Node) (scale : Float) (evals : nat),
    1 <= nextLayer -> nextLayer + Z.of_nat n = depth rmi ->
    is_inf (m node) = false -> is_inf (b node) = false -> is_inf scale = false ->
    exists r, snd (GetIndex_loop rmi key (skipn (Z.to_nat nextLayer) (nodes rmi))
                                 (Some node) nextLayer scale evals) = Returned r.
Proof.
  induction n as [|n IH]; intros nextLayer node scale evals H1 Hn Hm Hb Hs.
  - rewrite skipn_all2 by (unfold len in layers; lia). cbn [GetIndex_loop].
    replace (nextLayer =? depth rmi) with true by (symmetry; apply Z.eqb_eq; lia).
    cbn [snd]. destruct (predict_noninf node key Hm Hb) as (p & -> & _). simpl. eauto.
  - destruct (skipn_cons (nodes rmi) (Z.to_nat nextLayer)) as (layer & Hlayer & ->);
      [unfold len in layers; lia|].
    cbn [GetIndex_loop].
    replace (nextLayer =? depth rmi) with false by (symmetry; apply Z.eqb_neq; lia).
    assert (Hrl : row_len (nodes rmi) nextLayer = len layer).
    { unfold row_len. now rewrite Hlayer. }
    pose proof (rows nextLayer ltac:(lia)) as Hsize. rewrite Hrl in Hsize.
    unfold descend, child_slot.
    destruct (predict_noninf node key Hm Hb) as (p & -> & Hp). cbn [bind].
    destruct (Quo_noninf p p (NewFloat_int (maxIndex rmi)) Hp (NewFloat_int_noninf _))
      as (fraction & -> & Hf).
    { apply NewFloat_int_nonzero. lia. }
    cbn [bind].
    destruct (Mul_noninf fraction fraction scale Hf Hs) as (scaled & -> & _). cbn [bind].
    pose proof (clamp_child_range (len layer) (Int64 scaled) Hsize) as Hci.
    set (childIndex := clamp_child (len layer) (Int64 scaled)) in *.
    destruct (populated nextLayer childIndex ltac:(lia) ltac:(lia)) as (child & Hchild).
    pose proof (noninf nextLayer childIndex child ltac:(lia) ltac:(lia) Hchild) as (Hcm & Hcb).
    apply get_nth_error in Hchild as (row & Hrow & Hslot).
    rewrite Hlayer in Hrow. inversion Hrow; subst row; clear Hrow.
    rewrite (index_returns layer childIndex None) by lia.
    rewrite (nth_error_nth _ _ None Hslot). cbn [bind].
    destruct (Mul_noninf scale scale (NewFloat_int (width rmi)) Hs (NewFloat_int_noninf _))
      as (scale' & -> & Hs').
    cbn [bind].
    replace (S (Z.to_nat nextLayer)) with (Z.to_nat (nextLayer + 1)) by lia.
    apply IH; try assumption; lia.
Qed.

End Total.

(** On a tree [NewRMI] returns for a width of one or more, over any number
    of keys but one, or of depth 1, [GetIndex] returns for every key, after
    evaluating [depth] models; the index is a position of the key array when
    there is a key. *)
Lemma GetIndex_returns (values : list Z) (wid dep key : Z) (rmi : RMI) :
  1 <= wid ->
  len values <> 1 \/ dep = 1 ->
  NewRMI values wid dep = Returned (Some rmi, None) ->
  exists r,
    GetIndex rmi key = Returned r
    /\ (1 <= len values -> 0 <= r <= len values - 1)
    /\ evaluations rmi key = Z.to_nat dep.
Proof.
  intros Hw Hv H.
  pose proof (NewRMI_layers values wid dep rmi ltac:(lia) H) as (Hd & Hlen & Hrows & Hpop).
  pose proof (NewRMI_nodes_noninf values wid dep rmi H) as Hall.
  pose proof H as Hinv.
  apply NewRMI_inv in Hinv as (_ & _ & _ & _ & Hwid & Hdep & Hmax & Hroot).
  assert (Hrows1 : forall i, 0 <= i < depth rmi -> 1 <= row_len (nodes rmi) i).
  { intros i Hi. rewrite Hdep in Hi. destruct (Hrows i Hi) as (-> & _).
    pose proof (pow_le_last wid i i Hw ltac:(lia)). lia. }
  assert (Hpop1 : forall i pos, 0 <= i < depth rmi -> 0 <= pos < row_len (nodes rmi) i ->
                                exists nd, get (nodes rmi) i pos = Some nd).
  { intros i pos Hi Hpos. rewrite Hdep in Hi. destruct (Hrows i Hi) as (Hr & _).
    rewrite Hr in Hpos. apply Hpop; assumption. }
  destruct (Hpop1 0 0 ltac:(lia) ltac:(specialize (Hrows1 0 ltac:(lia)); lia))
    as (rootnode & Hrootnode).
  destruct (Hall 0 0 rootnode ltac:(lia) ltac:(lia) Hrootnode) as (Hrm & Hrb).
  destruct (GetIndex_loop_returns rmi key ltac:(lia) ltac:(congruence) Hrows1 Hpop1 Hall
              (Z.to_nat (dep - 1)) 1 rootnode (NewFloat_int (width rmi)) 0%nat
              ltac:(lia) ltac:(lia) Hrm Hrb (NewFloat_int_noninf _)) as (r & Hr).
  assert (Hget : GetIndex rmi key = Returned r).
  { unfold GetIndex, GetIndex_counted. rewrite Hroot, Hrootnode. exact Hr. }
  exists r. split; [exact Hget|]. split.
  - intros H1. rewrite <- Hmax.
    apply (GetIndex_loop_bounds rmi key (skipn 1 (nodes rmi)) ltac:(lia)
             (root rmi) 1 (NewFloat_int (width rmi)) 0%nat r Hget).
  - assert (Hrest : 1 + len (skipn 1 (nodes rmi)) = depth rmi).
    { unfold len in *. rewrite length_skipn. lia. }
    destruct (GetIndex_loop_evals rmi key (skipn 1 (nodes rmi)) (root rmi) 1
                (NewFloat_int (width rmi)) 0%nat Hrest) as (_ & Heq).
    unfold evaluations, GetIndex_counted. rewrite (Heq r Hget).
    unfold len in *. rewrite length_skipn. lia.
Qed.

(** C1: what the code does.  On a tree [NewRMI] returns for a width of one
    or more: over a single key and with a depth other than 1, [GetIndex]
    panics for every query, the root predicting 0 and the normalisation
    dividing it by [maxIndex = 0]; over any other number of keys, or with
    depth 1, it returns for every query, and what it returns is a position of
    the key array when there is a key. *)
Theorem GetIndex_outcome (values : list Z) (wid dep key : Z) (rmi : RMI) :
  1 <= wid ->
  NewRMI values wid dep = Returned (Some rmi, None) ->
  (len values = 1 -> dep <> 1 -> GetIndex rmi key = Panicked ErrNaN)
  /\ (len values <> 1 \/ dep = 1 ->
      exists r, GetIndex rmi key = Returned r
                /\ (1 <= len values -> 0 <= r <= maxIndex rmi)).
Proof.
  intros Hw H. split.
  - intros Hone Hne.
    destruct values as [|v [|v' values]]; unfold len in Hone; simpl in Hone; try lia.
    unfold GetIndex. now rewrite (GetIndex_counted_single v wid dep key rmi) by (lia || exact H).
  - intros Hv.
    destruct (GetIndex_returns values wid dep key rmi Hw Hv H) as (r & Hr & Hb & _).
    apply NewRMI_inv in H as (_ & _ & _ & _ & _ & _ & Hmax & _).
    exists r. split; [exact Hr|]. rewrite Hmax. exact Hb.
Qed.

Lemma GetIndex_outcome_witness :
  exists rmi,
    NewRMI [5] 2 2 = Returned (Some rmi, None)
    /\ GetIndex rmi 5 = Panicked ErrNaN.
Proof.
  eexists. split; [vm_compute; reflexivity|].
  match goal with |- GetIndex ?r _ = _ =>
    destruct (GetIndex_outcome [5] 2 2 5 r ltac:(lia) ltac:(vm_compute; reflexivity))
      as (H1 & _) end.
  apply H1; [reflexivity | lia].
Defined.

(** C9: what the code does.  On a tree [NewRMI] returns for a width of one
    or more, a query evaluates at most [depth] node models, one per layer,
    and exactly [depth] of them whenever it returns, which it does over any
    number of keys but one and for depth 1, whatever the key.  On a tree over
    a single key with a depth other than 1 it evaluates the model of the
    root only, and panics. *)
Theorem evaluations_per_query (values : list Z) (wid dep key : Z) (rmi : RMI) :
  1 <= wid ->
  NewRMI values wid dep = Returned (Some rmi, None) ->
  (evaluations rmi key <= Z.to_nat dep)%nat
  /\ (forall r, GetIndex rmi key = Returned r -> evaluations rmi key = Z.to_nat dep)
  /\ (len values <> 1 \/ dep = 1 -> evaluations rmi key = Z.to_nat dep)
  /\ (len values = 1 -> dep <> 1 ->
      GetIndex_counted rmi key = (1%nat, Panicked ErrNaN)).
Proof.
  intros Hw H.
  pose proof (NewRMI_layers values wid dep rmi ltac:(lia) H) as (Hd & Hlen & _).
  pose proof H as Hinv.
  apply NewRMI_inv in Hinv as (_ & _ & _ & _ & _ & Hdep & _).
  assert (Hrest : 1 + len (skipn 1 (nodes rmi)) = depth rmi).
  { unfold len in *. rewrite length_skipn. lia. }
  destruct (GetIndex_loop_evals rmi key (skipn 1 (nodes rmi)) (root rmi) 1
              (NewFloat_int (width rmi)) 0%nat Hrest) as (Hle & Heq).
  assert (Hcount : (0 + length (skipn 1 (nodes rmi)) + 1)%nat = Z.to_nat dep).
  { unfold len in *. rewrite length_skipn. lia. }
  rewrite Hcount in Hle, Heq.
  split; [exact Hle|]. split; [exact Heq|]. split.
  - intros Hv.
    destruct (GetIndex_returns values wid dep key rmi Hw Hv H) as (r & _ & _ & He).
    exact He.
  - intros Hone Hne.
    destruct values as [|v [|v' values]]; unfold len in Hone; simpl in Hone; try lia.
    apply (GetIndex_counted_single v wid dep key rmi); [lia | exact Hne | exact H].
Qed.

Lemma evaluations_per_query_witness :
  exists rmi,
    NewRMI [5] 2 2 = Returned (Some rmi, None)
    /\ (evaluations rmi 5 <= 2)%nat
    /\ GetIndex_counted rmi 5 = (1%nat, Panicked ErrNaN).
Proof.
  eexists. split; [vm_compute; reflexivity|].
  match goal with |- (evaluations ?r _ <= _)%nat /\ _ =>
    destruct (evaluations_per_query [5] 2 2 5 r ltac:(lia) ltac:(vm_compute; reflexivity))
      as (H1 & _ & _ & H3) end.
  split; [exact H1|]. apply H3; [reflexivity | lia].
Defined.

(** ** The scenarios of the specification *)

(** A hundred evenly spaced keys, width 2, depth 2: the key 500 is
    predicted at position 50, and keys far outside the range at the ends. *)
Example scenario_even_keys :
  exists rmi,
    NewRMI (map (fun i => 10 * i) (iota 100)) 2 2 = Returned (Some rmi, None)
    /\ GetIndex rmi 500 = Returned 50
    /\ GetIndex rmi (-50) = Returned 0
    /\ GetIndex rmi 100000 = Returned 99.
Proof.
  eexists. split; [vm_compute; reflexivity|].
  repeat split; vm_compute; reflexivity.
Qed.

(** A single key and depth 1: the query of the key returns 0. *)
Example scenario_single_key :
  exists rmi,
    NewRMI [5] 3 1 = Returned (Some rmi, None) /\ GetIndex rmi 5 = Returned 0.
Proof.
  eexists. split; vm_compute; reflexivity.
Qed.

(** * Further properties of the code *)

(** ** regression.go *)

(** [mean] of no value is 0/0 and panics; of one value or more it returns a
    number that is not infinite, with 53 bits of precision whatever the
    values. *)
Theorem mean_edge :
  mean [] = Panicked ErrNaN
  /\ forall v values,
       exists r, mean (v :: values) = Returned r /\ prec r = 53 /\ is_inf r = false.
Proof.
  split; [reflexivity|].
  intros v values.
  destruct (mean_noninf (v :: values) ltac:(discriminate)) as (r & Hr & Hi).
  exists r. split; [exact Hr|]. split; [apply (prec_mean (v :: values)), Hr | exact Hi].
Qed.

Lemma covariance_loop_short (meanX meanY : Float) (x : list Z) :
  is_inf meanX = false -> is_inf meanY = false ->
  forall y covar,
    (length y < length x)%nat -> is_inf covar = false ->
    covariance_loop x y meanX meanY covar = Panicked IndexOutOfRange.
Proof.
  intros HX HY. induction x as [|xi x IH]; intros y covar Hlen Hc; simpl in *; [lia|].
  destruct (Sub_noninf (SetInt xi) (SetInt xi) meanX (SetInt_noninf xi) HX) as (tx & -> & Htx).
  simpl. destruct y as [|yi y]; [reflexivity|]. simpl in Hlen.
  destruct (Sub_noninf (SetInt yi) (SetInt yi) meanY (SetInt_noninf yi) HY) as (ty & -> & Hty).
  simpl.
  destruct (Mul_noninf new tx ty Htx Hty) as (txy & -> & Htxy). simpl.
  destruct (Add_noninf covar covar txy Hc Htxy) as (c' & -> & Hc'). simpl.
  apply IH; [lia | exact Hc'].
Qed.

Lemma covariance_loop_firstn (meanX meanY : Float) (x : list Z) :
  forall y covar,
    (length x <= length y)%nat ->
    covariance_loop x (firstn (length x) y) meanX meanY covar
    = covariance_loop x y meanX meanY covar.
Proof.
  induction x as [|xi x IH]; intros y covar Hlen; simpl; [reflexivity|].
  destruct (Sub (SetInt xi) (SetInt xi) meanX) as [tx|]; simpl; [|reflexivity].
  destruct y as [|yi y]; [simpl in Hlen; lia|]. simpl in Hlen. simpl.
  destruct (Sub (SetInt yi) (SetInt yi) meanY) as [ty|]; simpl; [|reflexivity].
  destruct (Mul new tx ty) as [txy|]; simpl; [|reflexivity].
  destruct (Add covar covar txy) as [c'|]; simpl; [|reflexivity].
  apply IH. lia.
Qed.

(** [covariance] reads one [y] for every [x]: with fewer [y] than [x] it
    panics with an index out of range; otherwise it returns a number that is
    not infinite, of 53 bits, and looks at no [y] beyond the length of [x]. *)
Theorem covariance_lengths (x y : list Z) (meanX meanY : Float) :
  is_inf meanX = false -> is_inf meanY = false ->
  ((length y < length x)%nat ->
   covariance x y meanX meanY = Panicked IndexOutOfRange)
  /\ ((length x <= length y)%nat ->
      exists r, covariance x y meanX meanY = Returned r
                /\ is_inf r = false /\ prec r = 53
                /\ covariance x (firstn (length x) y) meanX meanY = Returned r).
Proof.
  intros HX HY. unfold covariance. split.
  - intros Hlen. apply covariance_loop_short; auto.
  - intros Hlen.
    destruct (covariance_loop_noninf x meanX meanY HX HY (firstn (length x) y) NewFloat_0)
      as (r & Hr & Hi); [rewrite length_firstn; lia | reflexivity |].
    exists r. rewrite <- covariance_loop_firstn by exact Hlen.
    split; [exact Hr|]. split; [exact Hi|].
    split; [apply (prec_covariance_loop x meanX meanY _ NewFloat_0 r eq_refl Hr) | exact Hr].
Qed.

Lemma covariance_lengths_witness :
  covariance [1; 2; 3] [0; 1] (mkFloat 53 false (MFin 1 1)) (mkFloat 53 false (MFin 1 (-1)))
  = Panicked IndexOutOfRange
  /\ exists r, covariance [1; 2] [0; 1; 7] (mkFloat 53 false (MFin 3 (-1)))
                          (mkFloat 53 false (MFin 1 (-1))) = Returned r
               /\ covariance [1; 2] [0; 1] (mkFloat 53 false (MFin 3 (-1)))
                             (mkFloat 53 false (MFin 1 (-1))) = Returned r.
Proof.
  split.
  - apply (covariance_lengths [1; 2; 3] [0; 1] (mkFloat 53 false (MFin 1 1))
             (mkFloat 53 false (MFin 1 (-1))) eq_refl eq_refl).
    simpl. lia.
  - destruct (covariance_lengths [1; 2] [0; 1; 7] (mkFloat 53 false (MFin 3 (-1)))
                (mkFloat 53 false (MFin 1 (-1))) eq_refl eq_refl) as (_ & H).
    destruct (H ltac:(simpl; lia)) as (r & Hr & _ & _ & Hr').
    exists r. split; [exact Hr | exact Hr'].
Defined.

Lemma Add_zero_zero (z x y : Float) :
  is_zero x = true -> is_zero y = true ->
  exists r, Add z x y = Returned r /\ is_zero r = true.
Proof.
  unfold is_zero, Add. intros Hx Hy.
  destruct (mag x); try discriminate. destruct (mag y); try discriminate. eauto.
Qed.

Lemma variance_loop_sign (meanValue : Float) (values : list Z) :
  is_inf meanValue = false ->
  forall acc,
    prec acc = 53 -> neg acc = false -> is_inf acc = false ->
    exists r,
      variance_loop values meanValue acc = Returned r
      /\ prec r = 53 /\ neg r = false /\ is_inf r = false
      /\ (is_zero r = true <->
          is_zero acc = true
          /\ Forall (fun v => exists t, Sub (SetInt v) (SetInt v) meanValue = Returned t
                                        /\ is_zero t = true) values).
Proof.
  intros HM. induction values as [|v values IH]; intros acc Hp Hn Hi; simpl.
  - exists acc. repeat split; auto. intros (H & _). exact H.
  - destruct (Sub_noninf (SetInt v) (SetInt v) meanValue (SetInt_noninf v) HM)
      as (a & Ha & Hia).
    rewrite Ha. simpl.
    assert (Hpa : 0 < prec a).
    { apply prec_Sub in Ha. pose proof (prec_SetInt_pos v).
      rewrite rprec_self in Ha; lia. }
    destruct (Mul_noninf a a a Hia Hia) as (a2 & Ha2 & Hia2).
    rewrite Ha2. simpl.
    destruct (Mul_self_nonneg a a2 Hpa Ha2) as (Hna2 & Hza2).
    destruct (Add_noninf acc acc a2 Hi Hia2) as (acc' & Hacc' & Hiacc').
    rewrite Hacc'. simpl.
    assert (Hrp : rprec acc acc a2 = 53) by (rewrite rprec_self; lia).
    destruct (Add_nonneg acc acc a2 acc' ltac:(lia) Hn Hna2 Hi Hia2 Hacc') as (Hnacc' & Hzacc').
    apply prec_Add in Hacc' as Hpacc'. rewrite Hrp in Hpacc'.
    destruct (IH acc' Hpacc' Hnacc' Hiacc') as (r & Hr & Hpr & Hnr & Hir & Hzr).
    exists r. repeat (split; [assumption|]). split.
    + intros Hz. apply Hzr in Hz as (Hz' & Hall).
      destruct (Hzacc' Hz') as (Hzacc & Hz2).
      split; [exact Hzacc|]. constructor; [|exact Hall]. exists a. auto.
    + intros (Hzacc & Hall). inversion Hall as [|v' vs (t & Ht & Hzt) Hall']; subst.
      rewrite Ha in Ht. inversion Ht; subst t.
      apply Hzr. split; [|exact Hall'].
      destruct (Mul_zero_l a a a Hzt Hia) as (a2' & Ha2' & Hza2').
      rewrite Ha2 in Ha2'. inversion Ha2'; subst a2'.
      destruct (Add_zero_zero acc acc a2 Hzacc Hza2') as (acc'' & Hacc'' & Hzacc'').
      rewrite Hacc' in Hacc''. inversion Hacc''; subst acc''. exact Hzacc''.
Qed.

(** [variance] never panics when the mean is not infinite; what it returns
    is not negative, not infinite and of 53 bits, and is zero exactly when the
    deviation [v - meanValue] of every value is zero. *)
Theorem variance_sign (values : list Z) (meanValue : Float) :
  is_inf meanValue = false ->
  exists r,
    variance values meanValue = Returned r
    /\ prec r = 53 /\ neg r = false /\ is_inf r = false
    /\ (is_zero r = true <->
        Forall (fun v => exists t, Sub (SetInt v) (SetInt v) meanValue = Returned t
                                   /\ is_zero t = true) values).
Proof.
  intros HM. unfold variance.
  destruct (variance_loop_sign meanValue values HM NewFloat_0 eq_refl eq_refl eq_refl)
    as (r & Hr & Hp & Hn & Hi & Hz).
  exists r. repeat (split; [assumption|]).
  rewrite Hz. split; [intros (_ & H); exact H | intros H; split; [reflexivity | exact H]].
Qed.

Lemma variance_sign_witness :
  exists r,
    variance [7; 7] (mkFloat 53 false (MFin 7 0)) = Returned r
    /\ prec r = 53 /\ neg r = false /\ is_inf r = false
    /\ (is_zero r = true <->
        Forall (fun v => exists t, Sub (SetInt v) (SetInt v) (mkFloat 53 false (MFin 7 0))
                                   = Returned t /\ is_zero t = true) [7; 7]).
Proof.
  apply (variance_sign [7; 7] (mkFloat 53 false (MFin 7 0))). reflexivity.
Defined.

(** ** The coefficients of a fit *)

Lemma coefficients_inv (keys ranks : list Z) (b0 b1 zc : Float) :
  coefficients keys ranks = Returned (b0, b1, zc) ->
  exists meanX meanY cov var prod,
    mean keys = Returned meanX
    /\ mean ranks = Returned meanY
    /\ covariance keys ranks meanX meanY = Returned cov
    /\ variance keys meanX = Returned var
    /\ Quo cov cov var = Returned b1
    /\ Mul meanX meanX b1 = Returned prod
    /\ Sub new meanY prod = Returned b0
    /\ Quo (Neg new b0) (Neg new b0) b1 = Returned zc.
Proof.
  unfold coefficients. intros H.
  bind_inv H as meanX HmX. bind_inv H as meanY HmY. bind_inv H as cov Hcov.
  bind_inv H as var Hvar. bind_inv H as slope Hslope. bind_inv H as prod Hprod.
  bind_inv H as icpt Hicpt. bind_inv H as w0 Hw. inversion H; subst.
  exists meanX, meanY, cov, var, prod. auto 10.
Qed.

Lemma coefficients_prec53 (keys ranks : list Z) (b0 b1 zc : Float) :
  coefficients keys ranks = Returned (b0, b1, zc) ->
  prec b0 = 53 /\ prec b1 = 53 /\ prec zc = 53.
Proof.
  intros H.
  apply coefficients_inv in H
    as (meanX & meanY & cov & var & prod & HmX & HmY & Hcov & Hvar & Hb1 & Hprod & Hb0 & Hzc).
  apply prec_mean in HmX, HmY.
  apply (prec_covariance_loop keys meanX meanY ranks NewFloat_0 cov eq_refl) in Hcov.
  apply prec_Quo in Hb1. rewrite rprec_self in Hb1 by lia.
  apply prec_Mul in Hprod. rewrite rprec_self in Hprod by lia.
  apply prec_Sub in Hb0. unfold rprec in Hb0. simpl in Hb0.
  apply prec_Quo in Hzc.
  assert (Hn : prec (Neg new b0) = prec b0) by reflexivity.
  rewrite rprec_self in Hzc by lia.
  repeat split; lia.
Qed.


(** Whatever the size of the keys, the three coefficients a fit returns
    have 53 bits of precision: the sums of [mean], [covariance] and
    [variance] are accumulated in [big.NewFloat(0.0)], whose precision is
    that of a [float64]. *)
Theorem coefficients_precision (keys ranks : list Z) (b0 b1 zc : Float) :
  coefficients keys ranks = Returned (b0, b1, zc) ->
  prec b0 = 53 /\ prec b1 = 53 /\ prec zc = 53.
Proof. apply coefficients_prec53. Qed.

Lemma coefficients_precision_witness :
  exists b0 b1 zc,
    coefficients [0; 10; 20; 30] [0; 1; 2; 3] = Returned (b0, b1, zc)
    /\ prec b0 = 53 /\ prec b1 = 53 /\ prec zc = 53.
Proof.
  eexists _, _, _. split; [vm_compute; reflexivity|].
  match goal with |- prec ?x = _ /\ prec ?y = _ /\ prec ?z = _ =>
    apply (coefficients_precision [0; 10; 20; 30] [0; 1; 2; 3] x y z) end.
  vm_compute. reflexivity.
Defined.

(** The slope and the intercept a fit returns are never infinite; its x
    intercept is infinite exactly when the slope is zero, and then the
    intercept is not zero. *)
Theorem zero_crossing_infinite (keys ranks : list Z) (b0 b1 zc : Float) :
  len keys = len ranks -> 2 <= len keys ->
  coefficients keys ranks = Returned (b0, b1, zc) ->
  is_inf b0 = false /\ is_inf b1 = false
  /\ is_inf zc = is_zero b1
  /\ (is_zero b1 = true -> is_zero b0 = false).
Proof.
  intros Hlen H2 H.
  destruct (coefficients_noninf keys ranks b0 b1 zc Hlen H2 H) as (Hi0 & Hi1).
  pose proof (coefficients_prec53 keys ranks b0 b1 zc H) as (Hp0 & _).
  apply coefficients_inv in H as (_ & _ & _ & _ & _ & _ & _ & _ & _ & _ & _ & _ & Hzc).
  split; [exact Hi0|]. split; [exact Hi1|].
  unfold Quo, Neg, Set_, is_inf, is_zero in *. simpl in Hzc.
  destruct (mag b1) as [|m1 e1|] eqn:E1; [| |discriminate].
  - destruct (mag b0) as [|m0 e0|] eqn:E0; [discriminate | |discriminate].
    simpl in Hzc.
    destruct (round_pos (prec b0) (Z.pos m0) e0 ltac:(lia) eq_refl) as (m' & e' & Hr).
    rewrite Hr in Hzc. inversion Hzc; subst zc. simpl. auto.
  - destruct (mag b0) as [|m0 e0|] eqn:E0; [| |discriminate]; simpl in Hzc.
    + inversion Hzc; subst zc. simpl. split; [reflexivity | discriminate].
    + destruct (round_pos (prec b0) (Z.pos m0) e0 ltac:(lia) eq_refl) as (m' & e' & Hr).
      rewrite Hr in Hzc. inversion Hzc; subst zc. simpl.
      unfold quo_finite.
      match goal with |- context [round ?p ?a ?b] =>
        pose proof (round_not_inf p a b); destruct (round p a b) end;
        try congruence; split; try reflexivity; discriminate.
Qed.

Lemma zero_crossing_infinite_witness :
  exists b0 b1 zc,
    coefficients [2 ^ 60 + 1; 2 ^ 60 + 1] [0; 1] = Returned (b0, b1, zc)
    /\ is_zero b1 = true /\ is_inf zc = true /\ is_inf b0 = false.
Proof.
  eexists _, _, _. split; [vm_compute; reflexivity|].
  split; [reflexivity|].
  match goal with |- is_inf ?z = _ /\ is_inf ?x = _ =>
    destruct (zero_crossing_infinite [2 ^ 60 + 1; 2 ^ 60 + 1] [0; 1] x
                (mkFloat 53 false MZero) z eq_refl ltac:(unfold len; simpl; lia)
                ltac:(vm_compute; reflexivity)) as (H0 & _ & Hz & _) end.
  split; [rewrite Hz; reflexivity | exact H0].
Defined.

(** ** rmi.go: widths and depths out of the ordinary *)

Lemma NewRMI_sorted_result (values : list Z) (wid dep : Z) (x : option RMI * option error) :
  SliceIsSorted values = true ->
  NewRMI values wid dep = Returned x ->
  exists rmi, x = (Some rmi, None).
Proof.
  intros Hs H. unfold NewRMI in H. rewrite Hs in H. simpl in H.
  bind_inv H as l0 H0. bind_inv H as nodes0 H1. bind_inv H as nodes1 H2.
  bind_inv H as rt H3. inversion H. eauto.
Qed.

(** On sorted keys, a negative depth makes [NewRMI] panic in the allocation
    of the layers, the depth 0 in the store of the root (there is no layer
    0), and a negative width with a depth of two or more in the allocation of
    layer 1, whose size is the width. *)
Theorem NewRMI_bad_shape (values : list Z) (wid dep : Z) :
  SliceIsSorted values = true ->
  (dep < 0 -> NewRMI values wid dep = Panicked MakeSliceLen)
  /\ (dep = 0 -> NewRMI values wid dep = Panicked IndexOutOfRange)
  /\ (min_int <= wid < 0 -> 2 <= dep -> NewRMI values wid dep = Panicked MakeSliceLen).
Proof.
  intros Hs. unfold NewRMI. rewrite Hs. cbn [negb]. repeat split.
  - intros Hd. unfold make. destruct (dep <? 0) eqn:E; [reflexivity | lia].
  - intros ->. reflexivity.
  - intros Hw Hd. unfold make at 1. destruct (dep <? 0) eqn:E; [lia|]. cbn [bind].
    destruct (Z.to_nat dep) as [|[|n]] eqn:En; [lia | lia |].
    cbn [make_layers]. unfold make at 1. cbn [Z.ltb Z.compare bind].
    cbn [make_layers]. rewrite Z.mul_1_l, wrap64_small by (unfold max_int; lia).
    unfold make at 1. destruct (wid <? 0) eqn:Ew; [reflexivity | lia].
Qed.

Lemma NewRMI_bad_shape_witness :
  NewRMI [1; 2; 3] 2 (-1) = Panicked MakeSliceLen
  /\ NewRMI [1; 2; 3] 2 0 = Panicked IndexOutOfRange
  /\ NewRMI [1; 2; 3] (-2) 3 = Panicked MakeSliceLen.
Proof.
  destruct (NewRMI_bad_shape [1; 2; 3] 2 (-1) eq_refl) as (H1 & _).
  destruct (NewRMI_bad_shape [1; 2; 3] 2 0 eq_refl) as (_ & H2 & _).
  destruct (NewRMI_bad_shape [1; 2; 3] (-2) 3 eq_refl) as (_ & _ & H3).
  split; [apply H1; lia|]. split; [apply H2; reflexivity|].
  apply H3; [unfold min_int; lia | lia].
Defined.

(** When the last layer has more slots than an [int] counts
    ([width^(depth-1) > MaxInt]), [NewRMI] panics on every sorted input: it
    never returns a tree whose layer sizes have wrapped around. *)
Theorem NewRMI_layer_overflow (values : list Z) (wid dep : Z) :
  SliceIsSorted values = true ->
  0 <= wid -> max_int < wid ^ (dep - 1) ->
  exists p, NewRMI values wid dep = Panicked p.
Proof.
  intros Hs Hw Hbig. destruct (NewRMI values wid dep) as [x|p] eqn:E; [|eauto].
  destruct (NewRMI_sorted_result values wid dep x Hs E) as (rmi & ->).
  destruct (NewRMI_layers values wid dep rmi Hw E) as (Hd & _ & Hrows & _).
  destruct (Hrows (dep - 1) ltac:(lia)) as (_ & Hle). lia.
Qed.

Lemma NewRMI_layer_overflow_witness :
  exists p, NewRMI [1; 2; 3] 2 65 = Panicked p.
Proof.
  apply (NewRMI_layer_overflow [1; 2; 3] 2 65).
  - reflexivity.
  - lia.
  - unfold max_int. simpl. lia.
Defined.

(** The width 0 is accepted by [NewRMI] (the children loop runs no
    iteration and layers 1 and below are allocated empty), but on the tree
    it returns for a depth of two or more every query panics: the root has no
    child to descend to. *)
Theorem GetIndex_width_zero (values : list Z) (dep key : Z) (rmi : RMI) :
  2 <= dep ->
  NewRMI values 0 dep = Returned (Some rmi, None) ->
  exists p, GetIndex rmi key = Panicked p.
Proof.
  intros Hd H.
  destruct (NewRMI_layers values 0 dep rmi ltac:(lia) H) as (_ & Hlen & Hrows & _).
  destruct (Hrows 1 ltac:(lia)) as (Hrow1 & _).
  apply NewRMI_inv in H as (_ & _ & _ & _ & _ & Hdep & _ & _).
  unfold GetIndex, GetIndex_counted.
  destruct (nodes rmi) as [|r0 [|r1 rest]] eqn:En; unfold len in Hlen; simpl in Hlen; try lia.
  unfold row_len in Hrow1. simpl in Hrow1.
  destruct r1 as [|s r1]; [|unfold len in Hrow1; simpl in Hrow1; lia].
  cbn [skipn]. destruct (root rmi) as [node|]; [|simpl; eauto].
  cbn [GetIndex_loop]. rewrite Hdep.
  destruct (1 =? dep) eqn:E1; [lia|].
  unfold descend. destruct (child_slot rmi key node (NewFloat_int (width rmi)) []) as [i|p];
    cbn [bind]; [|simpl; eauto].
  unfold index. unfold len. cbn [length].
  destruct ((i <? 0) || (Z.of_nat 0 <=? i)) eqn:Ei; [simpl; eauto|].
  apply orb_false_iff in Ei as (Ea & Eb).
  apply Z.ltb_ge in Ea. apply Z.leb_gt in Eb. simpl in Eb. lia.
Qed.

Lemma GetIndex_width_zero_witness :
  exists rmi,
    NewRMI [1; 2; 3] 0 2 = Returned (Some rmi, None)
    /\ exists p, GetIndex rmi 2 = Panicked p.
Proof.
  eexists. split; [vm_compute; reflexivity|].
  match goal with |- exists p, GetIndex ?r _ = _ =>
    apply (GetIndex_width_zero [1; 2; 3] 2 2 r) end.
  - lia.
  - vm_compute. reflexivity.
Defined.

(** ** Trees over fewer than two keys *)

(** Over no key or one key, a width of one or more, a depth of one or more
    and layers whose sizes fit an [int], [NewRMI] returns a tree, and every
    slot of every layer holds the same model: slope 0, intercept 0. *)
Theorem few_keys_tree (values : list Z) (wid dep : Z) :
  len values < 2 -> 1 <= wid -> 1 <= dep -> wid ^ (dep - 1) <= max_int ->
  exists rmi,
    NewRMI values wid dep = Returned (Some rmi, None)
    /\ maxIndex rmi = len values - 1
    /\ forall i pos, 0 <= i < dep -> 0 <= pos < wid ^ i ->
                     get (nodes rmi) i pos = Some (small_node 0).
Proof.
  intros Hn Hw Hd Hfit.
  destruct (NewRMI_small_returns values wid dep Hn Hw Hd Hfit) as (rmi & Hnew).
  exists rmi. split; [exact Hnew|].
  destruct (NewRMI_layers values wid dep rmi ltac:(lia) Hnew) as (_ & _ & _ & Hpop).
  apply NewRMI_inv in Hnew as (nodes0 & _ & Hmake & Hbuild & _ & _ & Hmax & _).
  split; [exact Hmax|].
  apply make_layers_spec in Hmake as (_ & _ & Hnone); [|unfold min_int, max_int; lia].
  apply (buildRecursive_all_nodes wid dep
           (fun v ix off => len v = len ix /\ len ix < 2 /\ off = 0)
           (fun nd => nd = small_node 0)) in Hbuild.
  - intros i pos Hi Hpos. destruct (Hpop i pos Hi Hpos) as (nd & Hnd).
    rewrite Hnd. f_equal. apply (Hbuild i pos nd); [lia | lia | exact Hnd].
  - intros v ix off (H & _). exact H.
  - intros v ix off loc c (Hl & Hs & ->) Hin.
    pose proof (children_small v ix wid loc 0 Hs) as Hall.
    rewrite Forall_forall in Hall. destruct (Hall c Hin) as (-> & -> & ->).
    unfold len. simpl. repeat split; lia.
  - intros v ix off nd (Hl & Hs & ->) Hf.
    rewrite fit_small in Hf by assumption. congruence.
  - rewrite len_iota. unfold len in *. repeat split; lia.
  - intros k j nd _ _ Hg. rewrite Hnone in Hg. discriminate.
Qed.

Lemma few_keys_tree_witness :
  exists rmi,
    NewRMI [42] 3 3 = Returned (Some rmi, None)
    /\ maxIndex rmi = len [42] - 1
    /\ forall i pos, 0 <= i < 3 -> 0 <= pos < 3 ^ i ->
                     get (nodes rmi) i pos = Some (small_node 0).
Proof.
  apply (few_keys_tree [42] 3 3).
  - unfold len. simpl. lia.
  - lia.
  - lia.
  - unfold max_int. simpl. lia.
Defined.

(** ** rmi.go: the keys the children of a node are given *)

Lemma firstn_add {A : Type} (n k : nat) :
  forall l : list A, firstn (n + k) l = firstn n l ++ firstn k (skipn n l).
Proof.
  induction n as [|n IH]; intros l; [reflexivity|].
  destruct l as [|x l]; simpl.
  - now rewrite firstn_nil.
  - now rewrite IH.
Qed.

Lemma sub_app {A : Type} (l : list A) (lo mid hi : Z) :
  0 <= lo -> lo <= mid -> mid <= hi ->
  sub l lo mid ++ sub l mid hi = sub l lo hi.
Proof.
  intros H0 H1 H2. unfold sub.
  replace (Z.to_nat (hi - lo)) with (Z.to_nat (mid - lo) + Z.to_nat (hi - mid))%nat by lia.
  rewrite firstn_add, skipn_skipn.
  replace (Z.to_nat (mid - lo) + Z.to_nat lo)%nat with (Z.to_nat mid) by lia.
  reflexivity.
Qed.

Lemma sub_sub {A : Type} (l : list A) (lo hi x y : Z) :
  0 <= lo -> 0 <= x -> x <= y -> y <= hi - lo ->
  sub (sub l lo hi) x y = sub l (lo + x) (lo + y).
Proof.
  intros H0 H1 H2 H3. unfold sub.
  rewrite skipn_firstn_comm, firstn_firstn, skipn_skipn.
  replace (Init.Nat.min (Z.to_nat (y - x)) (Z.to_nat (hi - lo) - Z.to_nat x))
    with (Z.to_nat (y - x)) by lia.
  replace (Z.to_nat x + Z.to_nat lo)%nat with (Z.to_nat (lo + x)) by lia.
  replace (lo + y - (lo + x)) with (y - x) by lia.
  reflexivity.
Qed.

Lemma sub_prefix {A : Type} (l : list A) (hi : Z) : sub l 0 hi = firstn (Z.to_nat hi) l.
Proof. unfold sub. now rewrite Z.sub_0_r. Qed.

Lemma concat_sub_contiguous (top : Z) (bounds : list (Z * Z)) :
  forall start,
    0 <= start <= top ->
    contiguous start bounds ->
    Forall (fun lr => snd lr <= top) bounds ->
    exists r, start <= r <= top
              /\ forall l : list Z,
                   concat (map (fun lr => sub l (fst lr) (snd lr)) bounds) = sub l start r.
Proof.
  induction bounds as [|[lo hi] bounds IH]; intros start Hs Hc Hall.
  - exists start. split; [lia|]. intros l. simpl. now rewrite sub_empty.
  - destruct Hc as (-> & Hle & Hc). inversion Hall as [|? ? Hhi Hall']; subst.
    simpl in Hhi.
    destruct (IH hi ltac:(lia) Hc Hall') as (r & Hr & Heq).
    exists r. split; [lia|]. intros l. cbn [map concat fst snd]. rewrite Heq.
    apply sub_app; lia.
Qed.

Lemma map_calls_of (values indices : list Z) (base : Z) (bounds : list (Z * Z)) :
  forall i offset,
    map cc_values (calls_of values indices base i offset bounds)
    = map (fun lr => sub values (fst lr) (snd lr)) bounds
    /\ map cc_indices (calls_of values indices base i offset bounds)
       = map (fun lr => sub indices (fst lr) (snd lr)) bounds.
Proof.
  induction bounds as [|[lo hi] bounds IH]; intros i offset; [split; reflexivity|].
  cbn [calls_of map cc_values cc_indices fst snd].
  destruct (IH (i + 1) (if lo =? hi then offset else nth (Z.to_nat lo) indices 0))
    as (Hv & Hi).
  rewrite Hv, Hi. split; reflexivity.
Qed.

(** The children of a node are given, left to right, the pieces of a prefix
    of its keys (and of its ranks) that stops short of the last key: the
    last key of a node is never handed to a child. *)
Theorem children_prefix (values indices : list Z) (wid loc offset : Z) :
  len values = len indices ->
  exists r,
    0 <= r <= Z.max 0 (len values - 1)
    /\ concat (map cc_values (children values indices wid loc offset))
       = firstn (Z.to_nat r) values
    /\ concat (map cc_indices (children values indices wid loc offset))
       = firstn (Z.to_nat r) indices.
Proof.
  intros Hlen. unfold children.
  destruct (map_calls_of values indices (wrap64 (loc * wid))
              (node_bounds (len indices) wid) 0 offset) as (Hv & Hi).
  rewrite Hv, Hi.
  pose proof (node_bounds_good (len indices) wid (len_nonneg indices)) as Hgood.
  assert (Hcont : contiguous 0 (node_bounds (len indices) wid)).
  { unfold node_bounds. apply child_bounds_contiguous. apply head_inv_start.
    apply len_nonneg. }
  assert (Htop : Forall (fun lr => snd lr <= Z.max 0 (len values - 1))
                        (node_bounds (len indices) wid)).
  { rewrite Hlen. eapply Forall_impl; [|exact Hgood].
    intros lr (_ & _ & H & _). exact H. }
  destruct (concat_sub_contiguous (Z.max 0 (len values - 1)) _ 0 ltac:(lia) Hcont Htop)
    as (r & Hr & Hc).
  exists r. split; [exact Hr|].
  rewrite !Hc, !sub_prefix. split; reflexivity.
Qed.

Lemma children_prefix_witness :
  exists r,
    0 <= r <= Z.max 0 (len [10; 20; 30; 40; 50; 60; 70] - 1)
    /\ concat (map cc_values (children [10; 20; 30; 40; 50; 60; 70] (iota 7) 3 0 0))
       = firstn (Z.to_nat r) [10; 20; 30; 40; 50; 60; 70]
    /\ concat (map cc_indices (children [10; 20; 30; 40; 50; 60; 70] (iota 7) 3 0 0))
       = firstn (Z.to_nat r) (iota 7).
Proof.
  apply (children_prefix [10; 20; 30; 40; 50; 60; 70] (iota 7) 3 0 0). reflexivity.
Defined.

Lemma child_start_S (rangeSize : Z) (k : nat) :
  child_start rangeSize (S k) = (Z.of_nat k + 1) * (rangeSize - 1) + 1.
Proof. unfold child_start. rewrite Nat2Z.inj_succ. lia. Qed.

Lemma child_start_bounds (rangeSize : Z) (k : nat) :
  1 <= rangeSize ->
  0 <= child_start rangeSize k <= Z.of_nat k * (rangeSize - 1) + 1
  /\ child_start rangeSize k <= child_start rangeSize (S k).
Proof.
  intros H. rewrite child_start_S. destruct k as [|k].
  - unfold child_start. lia.
  - rewrite child_start_S. rewrite Nat2Z.inj_succ. nia.
Qed.

Lemma child_bounds_closed (n rangeSize wid : Z) :
  2 <= wid -> 1 <= rangeSize -> wid * rangeSize <= n ->
  forall (todo k : nat),
    Z.of_nat k + Z.of_nat todo <= wid ->
    child_bounds n rangeSize todo (child_start rangeSize k) (child_start rangeSize (S k))
    = map (fun j => (child_start rangeSize j, child_start rangeSize (S j))) (seq k todo).
Proof.
  intros Hw Hrs Hn. induction todo as [|todo IH]; intros k Hk; [reflexivity|].
  cbn [child_bounds seq map].
  assert (Hr : 0 < child_start rangeSize (S k) < n).
  { rewrite child_start_S. nia. }
  unfold clamp_bounds.
  destruct (child_start rangeSize (S k) <=? 0) eqn:E1; [lia|].
  destruct (child_start rangeSize (S k) >=? n) eqn:E2; [lia|].
  f_equal. destruct todo as [|todo]; [reflexivity|].
  replace (next_right n rangeSize (child_start rangeSize (S k)))
    with (child_start rangeSize (S (S k))).
  - apply IH. lia.
  - unfold next_right. rewrite !child_start_S. rewrite Nat2Z.inj_succ. nia.
Qed.

Lemma nth_error_map_seq {B : Type} (f : nat -> B) (n : nat) :
  forall (s k : nat) (x : B),
    nth_error (map f (seq s n)) k = Some x -> x = f (s + k)%nat.
Proof.
  induction n as [|n IH]; intros s k x H; simpl in H.
  - destruct k; discriminate.
  - destruct k as [|k]; simpl in H.
    + inversion H. f_equal. lia.
    + apply IH in H. rewrite H. f_equal. lia.
Qed.

(** A node of [n] keys, with a width of two or more that is not above [n],
    gives child 0 its first [n / width] keys and every later child the next
    [n / width - 1] keys: child [k] gets the keys from [child_start] of [k]
    to that of [k + 1].  The last [width - 1] keys at least are given to no
    child. *)
Theorem children_ranges (values indices : list Z) (wid loc offset : Z)
        (k : nat) (c : ChildCall) :
  len values = len indices ->
  2 <= wid -> wid <= len values ->
  nth_error (children values indices wid loc offset) k = Some c ->
  cc_values c
  = sub values (child_start (len values / wid) k) (child_start (len values / wid) (S k))
  /\ cc_indices c
     = sub indices (child_start (len values / wid) k) (child_start (len values / wid) (S k))
  /\ (k = 0%nat -> len (cc_values c) = len values / wid)
  /\ (k <> 0%nat -> len (cc_values c) = len values / wid - 1)
  /\ child_start (len values / wid) (S k) <= len values - (wid - 1).
Proof.
  intros Hlen Hw Hn H.
  assert (Hk : Z.of_nat k < wid).
  { apply children_len in H; [lia | exact Hlen]. }
  unfold children in H.
  apply nth_error_calls_of in H as (_ & lr & Hlr & Hv & Hi).
  set (rs := len values / wid) in *.
  assert (Hrs : 1 <= rs).
  { unfold rs. apply Z.div_le_lower_bound; lia. }
  assert (Hmul : wid * rs <= len values).
  { unfold rs. apply Z.mul_div_le. lia. }
  unfold node_bounds in Hlr. rewrite <- Hlen in Hlr.
  rewrite float_quo_div in Hlr by (try apply len_nonneg; lia).
  fold rs in Hlr. rewrite Z.max_r in Hlr by lia.
  replace (child_bounds (len values) rs (Z.to_nat wid) 0 rs)
    with (child_bounds (len values) rs (Z.to_nat wid) (child_start rs 0) (child_start rs 1))
    in Hlr by (f_equal; unfold child_start; lia).
  rewrite (child_bounds_closed (len values) rs wid Hw Hrs Hmul) in Hlr by lia.
  apply nth_error_map_seq in Hlr. change (0 + k)%nat with k in Hlr.
  subst lr. cbn [fst snd] in *.
  pose proof (child_start_bounds rs k Hrs) as (Hb1 & Hb2).
  assert (Htop : child_start rs (S k) <= len values - (wid - 1)).
  { rewrite child_start_S. nia. }
  split; [exact Hv|]. split; [exact Hi|].
  rewrite Hv, len_sub by lia.
  split; [|split; [|exact Htop]].
  - intros ->. unfold child_start. lia.
  - intros Hk0. destruct k as [|k]; [congruence|].
    rewrite !child_start_S. rewrite Nat2Z.inj_succ. lia.
Qed.

Lemma children_ranges_witness :
  exists c,
    nth_error (children [10; 20; 30; 40; 50; 60; 70] (iota 7) 2 0 0) 1 = Some c
    /\ cc_values c = [40; 50]
    /\ cc_indices c = [3; 4].
Proof.
  eexists. split; [vm_compute; reflexivity|].
  match goal with |- cc_values ?c = _ /\ _ =>
    destruct (children_ranges [10; 20; 30; 40; 50; 60; 70] (iota 7) 2 0 0 1 c
                eq_refl ltac:(lia) ltac:(unfold len; simpl; lia) eq_refl)
      as (Hv & Hi & _) end.
  split; [exact Hv | exact Hi].
Defined.

(** ** rmi.go: the ranks of a node are the positions of its keys *)

Lemma firstn_seq_le (k : nat) :
  forall s n, (k <= n)%nat -> firstn k (seq s n) = seq s k.
Proof.
  induction k as [|k IH]; intros s n H; [reflexivity|].
  destruct n as [|n]; [lia|]. simpl. f_equal. apply IH. lia.
Qed.

Lemma sub_iota (n : nat) (lo hi : Z) :
  0 <= lo -> lo <= hi -> hi <= Z.of_nat n ->
  sub (iota n) lo hi = map Z.of_nat (seq (Z.to_nat lo) (Z.to_nat (hi - lo))).
Proof.
  intros H0 H1 H2. unfold sub, iota.
  rewrite skipn_map, firstn_map, skipn_seq, firstn_seq_le by lia.
  reflexivity.
Qed.

Lemma in_range_child (values : list Z) (wid : Z) (c c' : ChildCall) (k : nat) :
  in_range values c ->
  nth_error (children (cc_values c) (cc_indices c) wid (cc_location c) (cc_offset c)) k
  = Some c' ->
  in_range values c'.
Proof.
  intros (Hlen & Hoff & lo & hi & H0 & H1 & H2 & Hv & Hi) Hk.
  pose proof (children_len _ _ _ _ _ _ _ Hlen Hk) as (Hlen' & _ & _).
  pose proof (children_offsets _ _ wid (cc_location c) _ Hlen Hoff) as Hoffs.
  rewrite Forall_forall in Hoffs. specialize (Hoffs c' (nth_error_In _ _ Hk)).
  unfold children in Hk.
  apply nth_error_calls_of in Hk as (_ & lr & Hlr & Hv' & Hi').
  pose proof (node_bounds_good (len (cc_indices c)) wid (len_nonneg _)) as Hgood.
  rewrite Forall_forall in Hgood. specialize (Hgood lr (nth_error_In _ _ Hlr)).
  destruct Hgood as (Hg0 & Hg1 & Hg2 & _).
  assert (Hn : len (cc_indices c) = hi - lo).
  { rewrite Hi. apply len_sub; [lia | lia | rewrite len_iota; exact H2]. }
  split; [exact Hlen'|]. split.
  - intros Hpos. rewrite Hoffs. apply nth_indep. unfold len in Hpos. lia.
  - exists (lo + fst lr), (lo + snd lr).
    split; [lia|]. split; [lia|]. split; [lia|].
    rewrite Hv', Hi', Hv, Hi. split; apply sub_sub; lia.
Qed.

Lemma in_range_descendant (values : list Z) (wid : Z) (path : list nat) :
  forall c c',
    in_range values c ->
    descendant wid path c = Some c' ->
    in_range values c'.
Proof.
  induction path as [|k path IH]; intros c c' Hc H; simpl in H.
  - inversion H; subst. exact Hc.
  - destruct (nth_error (children (cc_values c) (cc_indices c) wid
                                  (cc_location c) (cc_offset c)) k) as [c1|] eqn:E;
      [|discriminate].
    apply (IH c1 c'); [|exact H]. apply (in_range_child values wid c c1 k Hc E).
Qed.

(** Every node of the tree, at whatever depth and for whatever width, is
    built from a range [[lo, hi)] of the key array together with exactly the
    positions [lo], ..., [hi - 1] as its ranks; when the range is not empty
    the offset it is given is [lo]. *)
Theorem node_ranges (values : list Z) (wid : Z) (path : list nat) (c : ChildCall) :
  descendant wid path (root_call values) = Some c ->
  exists lo hi,
    0 <= lo /\ lo <= hi /\ hi <= len values
    /\ cc_values c = sub values lo hi
    /\ cc_indices c = map Z.of_nat (seq (Z.to_nat lo) (Z.to_nat (hi - lo)))
    /\ (lo < hi -> cc_offset c = lo).
Proof.
  intros H.
  assert (Hroot : in_range values (root_call values)).
  { unfold in_range, root_call. cbn [cc_values cc_indices cc_offset].
    rewrite len_iota. split; [reflexivity|]. split.
    - intros Hpos. destruct values as [|v values]; [simpl in Hpos; lia | reflexivity].
    - exists 0, (len values). split; [lia|]. split; [apply len_nonneg|].
      split; [lia|]. unfold sub. rewrite Z.sub_0_r. cbn [Z.to_nat skipn].
      unfold len. rewrite Nat2Z.id.
      split; symmetry; apply firstn_all2.
      + lia.
      + unfold iota. rewrite length_map, length_seq. lia. }
  destruct (in_range_descendant values wid path _ c Hroot H)
    as (Hlen & Hoff & lo & hi & H0 & H1 & H2 & Hv & Hi).
  exists lo, hi. rewrite sub_iota in Hi by (try exact H2; lia).
  repeat (split; [assumption|]).
  intros Hlt. rewrite Hoff.
  - rewrite Hi.
    replace (Z.to_nat (hi - lo)) with (S (Z.to_nat (hi - lo - 1))) by lia.
    cbn [seq map nth]. lia.
  - rewrite Hi. unfold len. rewrite length_map, length_seq. lia.
Qed.

Lemma node_ranges_witness :
  exists c lo hi,
    descendant 2 [1%nat; 0%nat] (root_call [10; 20; 30; 40; 50; 60; 70]) = Some c
    /\ 0 <= lo /\ lo <= hi /\ hi <= len [10; 20; 30; 40; 50; 60; 70]
    /\ cc_values c = sub [10; 20; 30; 40; 50; 60; 70] lo hi
    /\ cc_indices c = map Z.of_nat (seq (Z.to_nat lo) (Z.to_nat (hi - lo)))
    /\ (lo < hi -> cc_offset c = lo).
Proof.
  eexists.
  match goal with |- exists lo hi, ?d = Some ?c /\ _ =>
    assert (Hd : d = Some c) by (vm_compute; reflexivity);
    destruct (node_ranges [10; 20; 30; 40; 50; 60; 70] 2 [1%nat; 0%nat] c Hd)
      as (lo & hi & Hr) end.
  exists lo, hi. split; [exact Hd | exact Hr].
Defined.

(** ** rmi.go: the models a tree holds *)

Lemma fit_prec (values indices : list Z) (offset : Z) (nd : Node) :
  fit values indices offset = Returned nd -> prec (m nd) = 53.
Proof.
  unfold fit. destruct (2 <=? len indices).
  - intros H. bind_inv H as r Hr. destruct r as ((b0 & b1) & zc).
    inversion H; subst nd. cbn [m].
    apply coefficients_prec53 in Hr. tauto.
  - intros H. inversion H. reflexivity.
Qed.

(** Every model a tree holds, at whatever layer and slot, has a slope and an
    intercept that are not infinite, and a slope of 53 bits of precision. *)
Theorem tree_models_finite (values : list Z) (wid dep : Z) (rmi : RMI)
        (i pos : Z) (nd : Node) :
  NewRMI values wid dep = Returned (Some rmi, None) ->
  0 <= i -> 0 <= pos ->
  get (nodes rmi) i pos = Some nd ->
  is_inf (m nd) = false /\ is_inf (b nd) = false /\ prec (m nd) = 53.
Proof.
  intros H Hi Hpos Hget.
  destruct (NewRMI_nodes_noninf values wid dep rmi H i pos nd Hi Hpos Hget) as (Hm & Hb).
  split; [exact Hm|]. split; [exact Hb|].
  apply NewRMI_inv in H as (nodes0 & _ & Hmake & Hbuild & _).
  apply make_layers_spec in Hmake as (_ & _ & Hnone); [|unfold min_int, max_int; lia].
  apply (buildRecursive_all_nodes wid dep
           (fun v ix _ => len v = len ix)
           (fun nd => prec (m nd) = 53)) in Hbuild.
  - apply (Hbuild i pos nd Hi Hpos Hget).
  - intros v ix off Hlen. exact Hlen.
  - intros v ix off loc c Hlen Hin.
    apply In_nth_error in Hin as (k & Hk).
    apply children_len in Hk as (Hl & _); [exact Hl | exact Hlen].
  - intros v ix off nd' _ Hfit. apply (fit_prec v ix off nd' Hfit).
  - now rewrite len_iota.
  - intros k j nd' _ _ Hg. rewrite Hnone in Hg. discriminate.
Qed.

Lemma tree_models_finite_witness :
  exists rmi nd,
    NewRMI [10; 20; 30; 40; 50; 60; 70] 2 2 = Returned (Some rmi, None)
    /\ get (nodes rmi) 1 1 = Some nd
    /\ is_inf (m nd) = false /\ is_inf (b nd) = false /\ prec (m nd) = 53.
Proof.
  assert (H : exists rmi,
             NewRMI [10; 20; 30; 40; 50; 60; 70] 2 2 = Returned (Some rmi, None)
             /\ exists nd, get (nodes rmi) 1 1 = Some nd).
  { eexists. split; [vm_compute; reflexivity|]. eexists. vm_compute. reflexivity. }
  destruct H as (rmi & Hnew & nd & Hget).
  exists rmi, nd. split; [exact Hnew|]. split; [exact Hget|].
  apply (tree_models_finite [10; 20; 30; 40; 50; 60; 70] 2 2 rmi 1 1 nd Hnew
           ltac:(lia) ltac:(lia) Hget).
Defined.

(** ** rmi.go: what a call of [buildRecursive] writes *)

(** A call of [buildRecursive] for position [q] of layer [d] that returns
    has changed no size of a layer and no slot outside the subtree of that
    position: the layers above [d] are as they were, and so is every slot of a
    layer [k >= d] outside the positions from [q * width^(k-d)] up to
    [(q + 1) * width^(k-d)]. *)
Theorem buildRecursive_frame (wid dep : Z) (fuel : nat) (vals idx : list Z)
        (off d q : Z) (nodes nodes' : Layers) :
  0 <= wid -> 0 <= d <= dep - 1 -> 0 <= q -> len vals = len idx ->
  (forall k, 0 <= k -> d + k <= dep - 1 -> (q + 1) * wid ^ k <= max_int + 1) ->
  buildRecursive wid dep fuel vals idx off d q nodes = Returned nodes' ->
  shape nodes' = shape nodes
  /\ forall k j, 0 <= k -> 0 <= j ->
                 ~ (d <= k /\ q * wid ^ (k - d) <= j < (q + 1) * wid ^ (k - d)) ->
                 get nodes' k j = get nodes k j.
Proof.
  intros Hw Hd Hq Hlen Hfits H.
  assert (Hqmax : q <= max_int).
  { specialize (Hfits 0 ltac:(lia) ltac:(lia)). rewrite Z.pow_0_r in Hfits. lia. }
  split.
  - rewrite <- (wrap64_small q) in H by (unfold min_int; lia).
    apply (buildRecursive_post wid dep Hw) in H; [|lia..|exact Hlen].
    destruct H as (Hshape & _). exact Hshape.
  - apply (buildRecursive_content wid dep Hw) in H; try assumption.
    destruct H as (Hout & _). exact Hout.
Qed.

Lemma buildRecursive_frame_witness :
  exists nodes',
    buildRecursive 2 2 1 [20; 30] [1; 2] 1 1 1 [[None]; [None; None]] = Returned nodes'
    /\ shape nodes' = shape [[None]; [None; None]]
    /\ get nodes' 1 0 = None /\ get nodes' 0 0 = None.
Proof.
  eexists. split; [vm_compute; reflexivity|].
  match goal with |- shape ?n' = _ /\ _ =>
    destruct (buildRecursive_frame 2 2 1 [20; 30] [1; 2] 1 1 1 [[None]; [None; None]] n')
      as (Hs & Hf) end.
  - lia.
  - lia.
  - lia.
  - reflexivity.
  - intros k Hk0 Hk1. assert (k = 0) by lia. subst k. unfold max_int. simpl. lia.
  - vm_compute. reflexivity.
  - split; [exact Hs|]. split.
    + rewrite (Hf 1 0); [reflexivity | lia | lia |]. simpl. lia.
    + rewrite (Hf 0 0); [reflexivity | lia | lia |]. lia.
Defined.

(** ** rmi.go: a query never reads the x intercept *)

Lemma GetIndex_loop_with_w (z : Float) (rmi : RMI) (key : Z) (rest : Layers) :
  forall (cur : option Node) (nextLayer : Z) (scale : Float) (evals : nat),
    GetIndex_loop (with_w z rmi) key (map (map (option_map (set_w z))) rest)
                  (option_map (set_w z) cur) nextLayer scale evals
    = GetIndex_loop rmi key rest cur nextLayer scale evals.
Proof.
  induction rest as [|layer rest IH]; intros cur nextLayer scale evals.
  - destruct cur as [node|]; reflexivity.
  - destruct cur as [node|]; [|reflexivity].
    cbn [map option_map GetIndex_loop]. change (depth (with_w z rmi)) with (depth rmi).
    destruct (nextLayer =? depth rmi); [reflexivity|].
    unfold descend.
    assert (Hslot : child_slot (with_w z rmi) key (set_w z node) scale
                               (map (option_map (set_w z)) layer)
                    = child_slot rmi key node scale layer).
    { unfold child_slot, len. rewrite length_map. reflexivity. }
    rewrite Hslot.
    destruct (child_slot rmi key node scale layer) as [i|p]; [|reflexivity].
    cbn [bind]. change (width (with_w z rmi)) with (width rmi).
    unfold index, len. rewrite length_map, nth_error_map.
    destruct ((i <? 0) || (Z.of_nat (length layer) <=? i)); [reflexivity|].
    destruct (nth_error layer (Z.to_nat i)) as [child|]; [|reflexivity].
    cbn [option_map bind].
    destruct (Mul scale scale (NewFloat_int (width rmi))) as [scale'|p]; [|reflexivity].
    cbn [bind]. apply IH.
Qed.

(** [GetIndex] never reads the field [w] of a node: replacing the x
    intercept of every node of a tree by any other number changes neither
    the outcome of a query nor the number of models it evaluates. *)
Theorem GetIndex_ignores_w (z : Float) (rmi : RMI) (key : Z) :
  GetIndex_counted (with_w z rmi) key = GetIndex_counted rmi key.
Proof.
  unfold GetIndex_counted. cbn [with_w root nodes width].
  rewrite skipn_map. apply GetIndex_loop_with_w.
Qed.

(** ** rmi_test.go: the distance from an index to a value *)

Lemma Cmp_cases (x y : Z) :
  (x < y /\ Cmp x y = -1) \/ (x = y /\ Cmp x y = 0) \/ (y < x /\ Cmp x y = 1).
Proof.
  unfold Cmp. destruct (Z.compare_spec x y); [right; left | left | right; right]; auto.
Qed.

Lemma sorted_mono (values : list Z) :
  SliceIsSorted values = true ->
  forall i j, 0 <= i -> i <= j -> j < len values ->
              nth (Z.to_nat i) values 0 <= nth (Z.to_nat j) values 0.
Proof.
  intros Hs i j Hi Hij Hj. rewrite SliceIsSorted_true in Hs. unfold len in Hj.
  replace j with (i + Z.of_nat (Z.to_nat (j - i))) in * by lia.
  induction (Z.to_nat (j - i)) as [|n IH].
  - rewrite Z.add_0_r. lia.
  - etransitivity; [apply IH; lia|].
    replace (Z.to_nat (i + Z.of_nat (S n))) with (S (Z.to_nat (i + Z.of_nat n))) by lia.
    apply Hs. lia.
Qed.

Lemma distance_right_lower (values : list Z) (value low : Z) :
  low <= MaxInt32 + 1 ->
  forall (todo : nat) (i acc : Z),
    0 <= i -> i + Z.of_nat todo <= len values -> low <= acc ->
    exists r, distance_right values value todo i acc = Returned r /\ low <= r.
Proof.
  intros Hlow. induction todo as [|todo IH]; intros i acc Hi Hlen Hacc.
  - exists acc. split; [reflexivity | exact Hacc].
  - cbn [distance_right]. rewrite (index_returns values i 0) by lia. cbn [bind].
    destruct (Cmp_cases (nth (Z.to_nat i) values 0) value)
      as [(_ & ->) | [(_ & ->) | (_ & ->)]]; cbn [Z.eqb Pos.eqb].
    + apply IH; lia.
    + exists acc. split; [reflexivity | exact Hacc].
    + apply IH; lia.
Qed.

Lemma distance_left_lower (values : list Z) (value low : Z) :
  low <= MaxInt32 + 1 ->
  forall (todo : nat) (i acc : Z),
    i < len values -> -1 <= i - Z.of_nat todo -> low <= acc ->
    exists r, distance_left values value todo i acc = Returned r /\ low <= r.
Proof.
  intros Hlow. induction todo as [|todo IH]; intros i acc Hi Hlen Hacc.
  - exists acc. split; [reflexivity | exact Hacc].
  - cbn [distance_left]. rewrite (index_returns values i 0) by lia. cbn [bind].
    destruct (Cmp_cases (nth (Z.to_nat i) values 0) value)
      as [(_ & ->) | [(_ & ->) | (_ & ->)]]; cbn [Z.eqb Pos.eqb].
    + apply IH; lia.
    + exists acc. split; [reflexivity | exact Hacc].
    + apply IH; lia.
Qed.

Lemma index_panics {A : Type} (l : list A) (i : Z) :
  i < 0 \/ len l <= i -> index l i = Panicked IndexOutOfRange.
Proof.
  intros H. unfold index.
  destruct ((i <? 0) || (len l <=? i)) eqn:E; [reflexivity|].
  apply orb_false_iff in E as (E1 & E2).
  apply Z.ltb_ge in E1. apply Z.leb_gt in E2. lia.
Qed.

(** With an index that is not a position of the keys, and so on no key at
    all, [distanceToValueFromIndex] panics: a negative index in the first
    step to the right, an index past the end in the first step to the
    left. *)
Theorem distance_out_of_range (values : list Z) (value pos : Z) :
  pos < 0 \/ len values <= pos ->
  distanceToValueFromIndex values value pos = Panicked IndexOutOfRange.
Proof.
  intros H. unfold distanceToValueFromIndex.
  pose proof (len_nonneg values) as Hn.
  destruct H as [H | H].
  - destruct (Z.to_nat (len values - pos)) as [|todo] eqn:E; [lia|].
    cbn [distance_right]. rewrite index_panics by lia. reflexivity.
  - replace (Z.to_nat (len values - pos)) with 0%nat by lia.
    cbn [distance_right bind].
    destruct (Z.to_nat (pos + 1)) as [|todo] eqn:E; [lia|].
    cbn [distance_left]. rewrite index_panics by lia. reflexivity.
Qed.

Lemma distance_out_of_range_witness :
  distanceToValueFromIndex [10; 20; 30] 20 3 = Panicked IndexOutOfRange
  /\ distanceToValueFromIndex [] 20 0 = Panicked IndexOutOfRange.
Proof.
  split.
  - apply (distance_out_of_range [10; 20; 30] 20 3). right. unfold len. simpl. lia.
  - apply (distance_out_of_range [] 20 0). right. unfold len. simpl. lia.
Defined.

Lemma distance_in_range (values : list Z) (value pos : Z) :
  0 <= pos < len values ->
  exists d,
    distanceToValueFromIndex values value pos = Returned d
    /\ 0 <= d
    /\ (d = 0 <-> nth (Z.to_nat pos) values 0 = value).
Proof.
  intros Hpos. unfold distanceToValueFromIndex.
  assert (Hmax : 1 <= MaxInt32 + 1) by (unfold MaxInt32; lia).
  destruct (Z.to_nat (len values - pos)) as [|tr] eqn:Er; [lia|].
  destruct (Z.to_nat (pos + 1)) as [|tl] eqn:El; [lia|].
  cbn [distance_right distance_left].
  rewrite (index_returns values pos 0) by lia. cbn [bind].
  destruct (Cmp_cases (nth (Z.to_nat pos) values 0) value)
    as [(Hc & ->) | [(Hc & ->) | (Hc & ->)]]; cbn [Z.eqb Pos.eqb].
  - destruct (distance_right_lower values value 1 Hmax tr (pos + 1) (0 + 1))
      as (dr & -> & Hdr); [lia..|].
    destruct (distance_left_lower values value 1 Hmax tl (pos - 1) (MaxInt32 + 1))
      as (dl & -> & Hdl); [lia..|].
    cbn [bind]. exists (Z.min dl dr). split; [reflexivity|]. lia.
  - cbn [bind]. exists 0. split; [reflexivity|]. split; [lia|]. tauto.
  - destruct (distance_right_lower values value 1 Hmax tr (pos + 1) (MaxInt32 + 1))
      as (dr & -> & Hdr); [lia..|].
    destruct (distance_left_lower values value 1 Hmax tl (pos - 1) (0 + 1))
      as (dl & -> & Hdl); [lia..|].
    cbn [bind]. exists (Z.min dl dr). split; [reflexivity|]. lia.
Qed.

(** With an index that is a position of the keys, [distanceToValueFromIndex]
    returns a distance that is not negative, and that is 0 exactly when the
    key at the index is the value. *)
Theorem distance_zero (values : list Z) (value pos : Z) :
  0 <= pos < len values ->
  exists d,
    distanceToValueFromIndex values value pos = Returned d
    /\ 0 <= d
    /\ (d = 0 <-> nth (Z.to_nat pos) values 0 = value).
Proof. apply distance_in_range. Qed.

Lemma distance_zero_witness :
  exists d,
    distanceToValueFromIndex [10; 20; 20; 30] 20 2 = Returned d
    /\ 0 <= d
    /\ (d = 0 <-> nth (Z.to_nat 2) [10; 20; 20; 30] 0 = 20).
Proof.
  apply (distance_zero [10; 20; 20; 30] 20 2). unfold len. simpl. lia.
Defined.

Lemma distance_right_hit (values : list Z) (value a : Z) :
  a < len values ->
  nth (Z.to_nat a) values 0 = value ->
  forall (todo : nat) (i acc : Z),
    0 <= i -> i <= a -> a < i + Z.of_nat todo ->
    (forall j, i <= j -> j < a -> nth (Z.to_nat j) values 0 < value) ->
    distance_right values value todo i acc = Returned (acc + (a - i)).
Proof.
  intros Ha Hval. induction todo as [|todo IH]; intros i acc Hi Hia Htodo Hless; [lia|].
  cbn [distance_right]. rewrite (index_returns values i 0) by lia. cbn [bind].
  destruct (Z.eq_dec i a) as [->|Hne].
  - rewrite Hval. unfold Cmp. rewrite Z.compare_refl. cbn [Z.eqb Pos.eqb].
    f_equal. lia.
  - specialize (Hless i ltac:(lia) ltac:(lia)) as Hlt.
    destruct (Cmp_cases (nth (Z.to_nat i) values 0) value)
      as [(_ & ->) | [(Hc & _) | (Hc & _)]]; [|lia|lia].
    cbn [Z.eqb Pos.eqb]. rewrite IH; [f_equal; lia | lia | lia | lia |].
    intros j Hj1 Hj2. apply Hless; lia.
Qed.

Lemma distance_left_hit (values : list Z) (value a : Z) :
  0 <= a ->
  nth (Z.to_nat a) values 0 = value ->
  forall (todo : nat) (i acc : Z),
    i < len values -> a <= i -> i - Z.of_nat todo < a ->
    (forall j, a < j -> j <= i -> value < nth (Z.to_nat j) values 0) ->
    distance_left values value todo i acc = Returned (acc + (i - a)).
Proof.
  intros Ha Hval. induction todo as [|todo IH]; intros i acc Hi Hia Htodo Hmore; [lia|].
  cbn [distance_left]. rewrite (index_returns values i 0) by lia. cbn [bind].
  destruct (Z.eq_dec i a) as [->|Hne].
  - rewrite Hval. unfold Cmp. rewrite Z.compare_refl. cbn [Z.eqb Pos.eqb].
    f_equal. lia.
  - specialize (Hmore i ltac:(lia) ltac:(lia)) as Hgt.
    destruct (Cmp_cases (nth (Z.to_nat i) values 0) value)
      as [(Hc & _) | [(Hc & _) | (_ & ->)]]; [lia|lia|].
    cbn [Z.eqb Pos.eqb]. rewrite IH; [f_equal; lia | lia | lia | lia |].
    intros j Hj1 Hj2. apply Hmore; lia.
Qed.

Lemma distance_right_above (values : list Z) (value : Z) :
  forall (todo : nat) (i acc : Z),
    0 <= i -> i + Z.of_nat (S todo) <= len values ->
    (forall j, i <= j -> j < len values -> value < nth (Z.to_nat j) values 0) ->
    distance_right values value (S todo) i acc = Returned (MaxInt32 + 1).
Proof.
  induction todo as [|todo IH]; intros i acc Hi Hlen Hmore;
    cbn [distance_right]; rewrite (index_returns values i 0) by lia; cbn [bind];
    specialize (Hmore i ltac:(lia) ltac:(lia)) as Hgt;
    (destruct (Cmp_cases (nth (Z.to_nat i) values 0) value)
      as [(Hc & _) | [(Hc & _) | (_ & ->)]]; [lia|lia|]); cbn [Z.eqb Pos.eqb].
  - reflexivity.
  - apply IH; [lia | lia |]. intros j Hj1 Hj2. apply Hmore; lia.
Qed.

Lemma distance_left_below (values : list Z) (value : Z) :
  forall (todo : nat) (i acc : Z),
    i < len values -> -1 <= i - Z.of_nat (S todo) ->
    (forall j, 0 <= j -> j <= i -> nth (Z.to_nat j) values 0 < value) ->
    distance_left values value (S todo) i acc = Returned (MaxInt32 + 1).
Proof.
  induction todo as [|todo IH]; intros i acc Hi Hlen Hless;
    cbn [distance_left]; rewrite (index_returns values i 0) by lia; cbn [bind];
    specialize (Hless i ltac:(lia) ltac:(lia)) as Hlt;
    (destruct (Cmp_cases (nth (Z.to_nat i) values 0) value)
      as [(_ & ->) | [(Hc & _) | (Hc & _)]]; [|lia|lia]); cbn [Z.eqb Pos.eqb].
  - reflexivity.
  - apply IH; [lia | lia |]. intros j Hj1 Hj2. apply Hless; lia.
Qed.

(** On sorted keys, from an index that is a position of the keys,
    [distanceToValueFromIndex] returns the number of steps to the nearest
    occurrence of the value, whichever side it is on, capped at
    [math.MaxInt32 + 1]: the side without the value counts [MaxInt32 + 1]. *)
Theorem distance_sorted (values : list Z) (value pos a : Z) :
  SliceIsSorted values = true ->
  0 <= pos < len values -> 0 <= a < len values ->
  nth (Z.to_nat a) values 0 = value ->
  (forall j, Z.min pos a <= j <= Z.max pos a -> j <> a ->
             nth (Z.to_nat j) values 0 <> value) ->
  distanceToValueFromIndex values value pos
  = Returned (Z.min (MaxInt32 + 1) (Z.abs (a - pos))).
Proof.
  intros Hs Hpos Ha Hval Hnear0.
  assert (Hnear : forall j, Z.min pos a <= j < Z.max pos a -> j <> a ->
                            nth (Z.to_nat j) values 0 <> value).
  { intros j Hj. apply Hnear0. lia. }
  assert (Hself : pos <> a -> nth (Z.to_nat pos) values 0 <> value).
  { apply Hnear0. lia. }
  clear Hnear0.
  pose proof (sorted_mono values Hs) as Hmono.
  unfold distanceToValueFromIndex.
  destruct (Z.to_nat (len values - pos)) as [|tr] eqn:Er; [lia|].
  destruct (Z.to_nat (pos + 1)) as [|tl] eqn:El; [lia|].
  destruct (Z.lt_trichotomy pos a) as [Hlt | [-> | Hgt]].
  - rewrite (distance_right_hit values value a ltac:(lia) Hval (S tr) pos 0);
      [|lia|lia|lia|].
    + cbn [bind].
      rewrite (distance_left_below values value tl pos 0); [|lia|lia|].
      * cbn [bind]. f_equal. lia.
      * intros j Hj1 Hj2.
        pose proof (Hmono j pos Hj1 Hj2 ltac:(lia)).
        pose proof (Hmono pos a ltac:(lia) ltac:(lia) ltac:(lia)).
        specialize (Hself ltac:(lia)). lia.
    + intros j Hj1 Hj2.
      pose proof (Hmono j a ltac:(lia) ltac:(lia) ltac:(lia)).
      specialize (Hnear j ltac:(lia) ltac:(lia)). lia.
  - rewrite (distance_right_hit values value a ltac:(lia) Hval (S tr) a 0);
      [|lia|lia|lia|intros; lia].
    cbn [bind].
    rewrite (distance_left_hit values value a ltac:(lia) Hval (S tl) a 0);
      [|lia|lia|lia|intros; lia].
    cbn [bind]. f_equal. unfold MaxInt32. lia.
  - rewrite (distance_right_above values value tr pos 0); [|lia|lia|].
    + cbn [bind].
      rewrite (distance_left_hit values value a ltac:(lia) Hval (S tl) pos 0);
        [|lia|lia|lia|].
      * cbn [bind]. f_equal. lia.
      * intros j Hj1 Hj2.
        pose proof (Hmono a j ltac:(lia) ltac:(lia) ltac:(lia)).
        destruct (Z.eq_dec j pos) as [->|Hne].
        -- specialize (Hself ltac:(lia)). lia.
        -- specialize (Hnear j ltac:(lia) ltac:(lia)). lia.
    + intros j Hj1 Hj2.
      pose proof (Hmono pos j ltac:(lia) Hj1 Hj2).
      pose proof (Hmono a pos ltac:(lia) ltac:(lia) ltac:(lia)).
      specialize (Hself ltac:(lia)). lia.
Qed.

Lemma distance_sorted_witness :
  distanceToValueFromIndex [10; 20; 20; 30; 40; 50] 20 4 = Returned 2
  /\ distanceToValueFromIndex [10; 20; 20; 30; 40; 50] 40 1 = Returned 3.
Proof.
  split.
  - apply (distance_sorted [10; 20; 20; 30; 40; 50] 20 4 2).
    + reflexivity.
    + unfold len. simpl. lia.
    + unfold len. simpl. lia.
    + reflexivity.
    + intros j Hj Hne. assert (j = 3 \/ j = 4) as [-> | ->] by lia; simpl; lia.
  - apply (distance_sorted [10; 20; 20; 30; 40; 50] 40 1 4).
    + reflexivity.
    + unfold len. simpl. lia.
    + unfold len. simpl. lia.
    + reflexivity.
    + intros j Hj Hne.
      assert (j = 1 \/ j = 2 \/ j = 3) as [-> | [-> | ->]] by lia; simpl; lia.
Defined.

(** ** rmi_test.go: the distance of a predicted index

    [TestGetIndex] hands the index [GetIndex] returns to
    [distanceToValueFromIndex] (lines 318-320). *)


